(** * Channel gateway of AionUi: pairing, sessions, plugins, router

    A shallow embedding of the TypeScript sources of the channel subsystem
    (PairingService, SessionManager, BasePlugin, PluginManager,
    ActionExecutor and the SQLite access layer they call), followed by the
    properties proved about them.

    Conventions of the embedding
    - A JavaScript [Map] keeps insertion order, and the sources iterate
      over it; it is modelled as an association list ([JsMap]).
    - A SQLite table is the list of its rows; PRIMARY KEY and UNIQUE
      constraints are the ones of the migration that creates the tables.
      A statement fails only by violating such a constraint (foreign keys
      are not switched on anywhere in the sources and are not modelled).
    - [Date.now()], [Math.random()], [crypto.randomBytes] and [uuid()] read
      successive values of an oracle kept in the [World].
    - A thrown [Error] is the constructor [Throw] carrying its message. *)

From Stdlib Require Import Ascii.
From stdpp Require Import base decidable option list sorting strings numbers pretty gmap.

Open Scope string_scope.
Open Scope list_scope.
Open Scope Z_scope.

(* ===================================================================== *)
(** * JavaScript values shared by all components                          *)
(* ===================================================================== *)

(** Outcome of a call that may throw. *)
Inductive Res (A : Type) : Type :=
  | Ok (a : A)
  | Throw (msg : string).
Arguments Ok {A} a.
Arguments Throw {A} msg.

Global Instance Res_fmap : FMap Res := λ A B f r,
  match r with Ok a => Ok (f a) | Throw msg => Throw msg end.

(** [IQueryResult<T>] of the database layer: [{success: true, data}] or
    [{success: false, error}]. *)
Inductive IQueryResult (A : Type) : Type :=
  | QOk (data : A)
  | QFail (err : string).
Arguments QOk {A} data.
Arguments QFail {A} err.

(** ** [Map<string, V>] with its insertion order *)
Module JsMap.
Abbreviation t V := (list (string * V)).

Definition empty {V} : t V := [].

Fixpoint get {V} (k : string) (m : t V) : option V :=
  match m with
  | [] => None
  | (k', v) :: m' => if decide (k' = k) then Some v else get k m'
  end.

Definition has {V} (k : string) (m : t V) : bool :=
  match get k m with Some _ => true | None => false end.

(** [set] on a present key replaces the value in place; on an absent key
    it appends the entry. *)
Fixpoint set {V} (k : string) (v : V) (m : t V) : t V :=
  match m with
  | [] => [(k, v)]
  | (k', v') :: m' =>
      if decide (k' = k) then (k, v) :: m' else (k', v') :: set k v m'
  end.

Fixpoint delete {V} (k : string) (m : t V) : t V :=
  match m with
  | [] => []
  | (k', v') :: m' =>
      if decide (k' = k) then m' else (k', v') :: delete k m'
  end.

Definition keys {V} (m : t V) : list string := m.*1.
Definition values {V} (m : t V) : list V := m.*2.
Definition size {V} (m : t V) : nat := length m.
End JsMap.

(** [array.find(p)]: the first element that satisfies [p]. *)
Fixpoint js_find {A} (p : A → bool) (l : list A) : option A :=
  match l with
  | [] => None
  | x :: l' => if p x then Some x else js_find p l'
  end.

(* ===================================================================== *)
(** * types.ts                                                            *)
(* ===================================================================== *)

Inductive PluginType := telegram | slack | discord.
Inductive PluginStatus :=
  | created | initializing | ready | starting | running | stopping | stopped
  | error.
Inductive PairingStatus := pending | approved | rejected | expired.
Inductive ChannelAgentType := gemini | acp | codex.

Global Instance PluginType_eq_dec : EqDecision PluginType.
Proof. solve_decision. Defined.
Global Instance PluginStatus_eq_dec : EqDecision PluginStatus.
Proof. solve_decision. Defined.
Global Instance PairingStatus_eq_dec : EqDecision PairingStatus.
Proof. solve_decision. Defined.
Global Instance ChannelAgentType_eq_dec : EqDecision ChannelAgentType.
Proof. solve_decision. Defined.

(** The string a status has in the TypeScript sources (statuses are string
    literal types there and are spliced into messages). *)
Definition PluginType_str (t : PluginType) : string :=
  match t with telegram => "telegram" | slack => "slack" | discord => "discord" end.

Definition PluginStatus_str (s : PluginStatus) : string :=
  match s with
  | created => "created" | initializing => "initializing" | ready => "ready"
  | starting => "starting" | running => "running" | stopping => "stopping"
  | stopped => "stopped" | error => "error"
  end.

Definition PairingStatus_str (s : PairingStatus) : string :=
  match s with
  | pending => "pending" | approved => "approved"
  | rejected => "rejected" | expired => "expired"
  end.

Record IPluginCredentials := mkCredentials { token : option string }.

Record IChannelPluginConfig := mkPluginConfig {
  cfg_id : string;
  cfg_type : PluginType;
  cfg_name : string;
  cfg_enabled : bool;
  cfg_credentials : option IPluginCredentials;
  cfg_status : PluginStatus;
  cfg_lastConnected : option Z;
  cfg_createdAt : Z;
  cfg_updatedAt : Z;
}.

Record IChannelPluginStatus := mkPluginStatus {
  ps_id : string;
  ps_type : PluginType;
  ps_name : string;
  ps_enabled : bool;
  ps_connected : bool;
  ps_status : PluginStatus;
  ps_lastConnected : option Z;
  ps_error : option string;
  ps_activeUsers : nat;
  ps_botUsername : option string;
  ps_hasToken : bool;
}.

Record IChannelUser := mkUser {
  usr_id : string;
  usr_platformUserId : string;
  usr_platformType : PluginType;
  usr_displayName : option string;
  usr_authorizedAt : Z;
  usr_lastActive : option Z;
  usr_sessionId : option string;
}.

Record IChannelSession := mkSession {
  ses_id : string;
  ses_userId : string;
  ses_agentType : ChannelAgentType;
  ses_conversationId : option string;
  ses_workspace : option string;
  ses_createdAt : Z;
  ses_lastActivity : Z;
}.

Record IChannelPairingRequest := mkRequest {
  req_code : string;
  req_platformUserId : string;
  req_platformType : PluginType;
  req_displayName : option string;
  req_requestedAt : Z;
  req_expiresAt : Z;
  req_status : PairingStatus;
}.

Global Instance IChannelSession_eq_dec : EqDecision IChannelSession.
Proof. solve_decision. Defined.
Global Instance IChannelPairingRequest_eq_dec : EqDecision IChannelPairingRequest.
Proof. solve_decision. Defined.
Global Instance IChannelUser_eq_dec : EqDecision IChannelUser.
Proof. solve_decision. Defined.

(** [replyMarkup] of an outgoing message: which keyboard builder of
    TelegramKeyboards.ts produced it. *)
Inductive ReplyMarkup :=
  | ResponseActionsKeyboard
  | ErrorRecoveryKeyboard
  | MainMenuKeyboard
  | PairingCodeKeyboard
  | ToolConfirmationKeyboard (callId : string) (options : list (string * string)).

Global Instance ReplyMarkup_eq_dec : EqDecision ReplyMarkup.
Proof. solve_decision. Defined.

(** [IUnifiedOutgoingMessage]; every message built by the gateway has type
    ['text'] and parse mode ['HTML'], so only the two varying fields are
    kept. *)
Record IUnifiedOutgoingMessage := mkOutgoing {
  out_text : string;
  out_replyMarkup : option ReplyMarkup;
}.

Global Instance IUnifiedOutgoingMessage_eq_dec : EqDecision IUnifiedOutgoingMessage.
Proof. solve_decision. Defined.

Inductive MessageContentType :=
  | ct_text | ct_photo | ct_document | ct_voice | ct_audio | ct_video
  | ct_sticker | ct_action | ct_command.

Global Instance MessageContentType_eq_dec : EqDecision MessageContentType.
Proof. solve_decision. Defined.

Record IUnifiedUser := mkUnifiedUser {
  uu_id : string;
  uu_displayName : string;
}.

Record IMessageAction := mkAction {
  act_name : string;
  act_params : list (string * string);
}.

Record IUnifiedIncomingMessage := mkIncoming {
  in_id : string;
  in_platform : PluginType;
  in_chatId : string;
  in_user : IUnifiedUser;
  in_contentType : MessageContentType;
  in_contentText : string;
  in_action : option IMessageAction;
}.

(* ===================================================================== *)
(** * process/database: the four assistant tables                         *)
(* ===================================================================== *)

Record Database := mkDatabase {
  assistant_plugins : list IChannelPluginConfig;        (* PRIMARY KEY id *)
  assistant_users : list IChannelUser;
      (* PRIMARY KEY id, UNIQUE(platform_user_id, platform_type) *)
  assistant_sessions : list IChannelSession;            (* PRIMARY KEY id *)
  assistant_pairing_codes : list IChannelPairingRequest; (* PRIMARY KEY code *)
}.

Definition set_plugins (f : list IChannelPluginConfig → list IChannelPluginConfig)
    (d : Database) : Database :=
  mkDatabase (f (assistant_plugins d)) (assistant_users d)
             (assistant_sessions d) (assistant_pairing_codes d).
Definition set_users (f : list IChannelUser → list IChannelUser)
    (d : Database) : Database :=
  mkDatabase (assistant_plugins d) (f (assistant_users d))
             (assistant_sessions d) (assistant_pairing_codes d).
Definition set_sessions (f : list IChannelSession → list IChannelSession)
    (d : Database) : Database :=
  mkDatabase (assistant_plugins d) (assistant_users d)
             (f (assistant_sessions d)) (assistant_pairing_codes d).
Definition set_pairing_codes
    (f : list IChannelPairingRequest → list IChannelPairingRequest)
    (d : Database) : Database :=
  mkDatabase (assistant_plugins d) (assistant_users d)
             (assistant_sessions d) (f (assistant_pairing_codes d)).

(** The message of the exception better-sqlite3 raises on a violated
    constraint; the layer returns it as [error]. *)
Definition constraint_failed (column : string) : string :=
  "UNIQUE constraint failed: " +:+ column.

Module Db.

(** *** Ordering of query results *)

(** Stable insertion into a list sorted by decreasing key. *)
Fixpoint insert_desc {A} (key : A → Z) (r : A) (l : list A) : list A :=
  match l with
  | [] => [r]
  | x :: l' =>
      if bool_decide (key x ≤ key r) then r :: l else x :: insert_desc key r l'
  end.

(** [ORDER BY key DESC]; rows with equal keys keep their table order. *)
Definition order_by_desc {A} (key : A → Z) (l : list A) : list A :=
  foldr (insert_desc key) [] l.

(** What [ORDER BY key DESC] guarantees of its result. *)
Definition desc {A} (key : A → Z) : list A → Prop :=
  StronglySorted (λ x y, key y ≤ key x).

(** *** Channel Plugin operations *)

(** [SELECT * FROM assistant_plugins ORDER BY created_at ASC] *)
Definition getChannelPlugins (d : Database) : IQueryResult (list IChannelPluginConfig) :=
  QOk (order_by_desc (λ c, - cfg_createdAt c) (assistant_plugins d)).

Definition getChannelPlugin (pluginId : string) (d : Database)
    : IQueryResult (option IChannelPluginConfig) :=
  QOk (js_find (λ c, bool_decide (cfg_id c = pluginId)) (assistant_plugins d)).

(** [UPDATE assistant_plugins SET status = ?, last_connected =
    COALESCE(?, last_connected), updated_at = ? WHERE id = ?] *)
Definition updateChannelPluginStatus (pluginId : string) (status : PluginStatus)
    (lastConnected : option Z) (now : Z) (d : Database) : Database :=
  set_plugins (fmap (λ c,
    if decide (cfg_id c = pluginId)
    then mkPluginConfig (cfg_id c) (cfg_type c) (cfg_name c) (cfg_enabled c)
           (cfg_credentials c) status
           (match lastConnected with Some t => Some t | None => cfg_lastConnected c end)
           (cfg_createdAt c) now
    else c)) d.

(** *** Channel User operations *)

Definition getChannelUserByPlatform (platformUserId : string)
    (platformType : PluginType) (d : Database) : IQueryResult (option IChannelUser) :=
  QOk (js_find (λ u, bool_decide (usr_platformUserId u = platformUserId
                                    ∧ usr_platformType u = platformType))
               (assistant_users d)).

(** [INSERT INTO assistant_users]: refused when the id or the
    (platform_user_id, platform_type) pair is already present. *)
Definition createChannelUser (user : IChannelUser) (d : Database)
    : IQueryResult IChannelUser * Database :=
  if bool_decide (usr_id user ∈ usr_id <$> assistant_users d) then
    (QFail (constraint_failed "assistant_users.id"), d)
  else if bool_decide ((usr_platformUserId user, usr_platformType user)
             ∈ (λ u, (usr_platformUserId u, usr_platformType u)) <$> assistant_users d) then
    (QFail (constraint_failed
              "assistant_users.platform_user_id, assistant_users.platform_type"), d)
  else (QOk user, set_users (λ l, l ++ [user]) d).

(** *** Channel Session operations *)

Definition getChannelSessions (d : Database) : IQueryResult (list IChannelSession) :=
  QOk (order_by_desc ses_lastActivity (assistant_sessions d)).

(** [INSERT ... ON CONFLICT(id) DO UPDATE SET agent_type, conversation_id,
    workspace, last_activity]: the conflicting row keeps its [user_id]
    and [created_at]. [now] stands in for a zero timestamp
    ([session.createdAt || now]). *)
Definition upsertChannelSession (session : IChannelSession) (now : Z)
    (d : Database) : Database :=
  if bool_decide (ses_id session ∈ ses_id <$> assistant_sessions d) then
    set_sessions (fmap (λ r,
      if decide (ses_id r = ses_id session)
      then mkSession (ses_id r) (ses_userId r) (ses_agentType session)
             (ses_conversationId session) (ses_workspace session)
             (ses_createdAt r)
             (if decide (ses_lastActivity session = 0) then now
              else ses_lastActivity session)
      else r)) d
  else
    set_sessions (λ l, l ++ [
      mkSession (ses_id session) (ses_userId session) (ses_agentType session)
        (ses_conversationId session) (ses_workspace session)
        (if decide (ses_createdAt session = 0) then now else ses_createdAt session)
        (if decide (ses_lastActivity session = 0) then now
         else ses_lastActivity session)]) d.

Definition deleteChannelSession (sessionId : string) (d : Database) : Database :=
  set_sessions (filter (λ r, ses_id r ≠ sessionId)) d.

(** *** Channel Pairing Code operations *)

(** [SELECT * FROM assistant_pairing_codes WHERE status = 'pending' AND
    expires_at > ? ORDER BY requested_at DESC] *)
Definition getPendingPairingRequests (now : Z) (d : Database)
    : IQueryResult (list IChannelPairingRequest) :=
  QOk (order_by_desc req_requestedAt
         (filter (λ r, req_status r = pending ∧ now < req_expiresAt r)
                 (assistant_pairing_codes d))).

Definition getPairingRequestByCode (code : string) (d : Database)
    : IQueryResult (option IChannelPairingRequest) :=
  QOk (js_find (λ r, bool_decide (req_code r = code)) (assistant_pairing_codes d)).

Definition createPairingRequest (request : IChannelPairingRequest) (d : Database)
    : IQueryResult IChannelPairingRequest * Database :=
  if bool_decide (req_code request ∈ req_code <$> assistant_pairing_codes d) then
    (QFail (constraint_failed "assistant_pairing_codes.code"), d)
  else (QOk request, set_pairing_codes (λ l, l ++ [request]) d).

Definition with_status (status : PairingStatus) (r : IChannelPairingRequest)
    : IChannelPairingRequest :=
  mkRequest (req_code r) (req_platformUserId r) (req_platformType r)
    (req_displayName r) (req_requestedAt r) (req_expiresAt r) status.

(** [UPDATE assistant_pairing_codes SET status = ? WHERE code = ?] *)
Definition updatePairingRequestStatus (code : string) (status : PairingStatus)
    (d : Database) : Database :=
  set_pairing_codes (fmap (λ r,
    if decide (req_code r = code) then with_status status r else r)) d.

(** [DELETE FROM assistant_pairing_codes WHERE expires_at < ? OR
    status != 'pending']; the result is the number of deleted rows. *)
Definition cleanupExpiredPairingRequests (now : Z) (d : Database)
    : IQueryResult nat * Database :=
  let kept := filter (λ r, ¬ (req_expiresAt r < now ∨ req_status r ≠ pending))
                     (assistant_pairing_codes d) in
  (QOk (length (assistant_pairing_codes d) - length kept)%nat,
   set_pairing_codes (λ _, kept) d).

End Db.

(* ===================================================================== *)
(** * The process: database, clock and random sources, IPC bridge          *)
(* ===================================================================== *)

(** Events emitted on the IPC bridge ([channelBridge.*.emit]). *)
Inductive BridgeEvent :=
  | pairingRequested (request : IChannelPairingRequest)
  | userAuthorized (user : IChannelUser)
  | pluginStatusChanged (pluginId : string) (status : IChannelPluginStatus).

Record World := mkWorld {
  db : Database;
  clock : nat → Z;          (* the successive results of Date.now() *)
  tick : nat;               (* how many of them have been read *)
  random : nat → nat;       (* Math.floor(Math.random() * 10), successively *)
  rnd : nat;
  randomBytes : nat → string; (* crypto.randomBytes(4).toString('hex') *)
  rb : nat;
  uuids : nat → string;     (* uuid() *)
  uu : nat;
  bridge : list BridgeEvent; (* emitted so far, oldest first *)
}.

Definition with_db (f : Database → Database) (w : World) : World :=
  mkWorld (f (db w)) (clock w) (tick w) (random w) (rnd w) (randomBytes w)
          (rb w) (uuids w) (uu w) (bridge w).

(** Computations over a state [St]: they read and change it and end with a
    value or a thrown error. *)
Definition ST (St A : Type) : Type := St → Res A * St.

(** Computations in the process. *)
Definition M (A : Type) : Type := ST World A.

Definition ret {St A} (a : A) : ST St A := λ s, (Ok a, s).
Definition throw {St A} (msg : string) : ST St A := λ s, (Throw msg, s).
Definition bind {St A B} (m : ST St A) (k : A → ST St B) : ST St B :=
  λ s, match m s with
       | (Ok a, s') => k a s'
       | (Throw msg, s') => (Throw msg, s')
       end.

(** [try { m } catch (error) { h(error.message) }] *)
Definition try_catch {St A} (m : ST St A) (h : string → ST St A) : ST St A :=
  λ s, match m s with
       | (Ok a, s') => (Ok a, s')
       | (Throw msg, s') => h msg s'
       end.

Declare Scope js_scope.
Delimit Scope js_scope with js.
Notation "x <- m ;; k" := (bind m (λ x, k))
  (at level 100, m at next level, right associativity) : js_scope.
Notation "m ;;; k" := (bind m (λ _, k))
  (at level 100, right associativity) : js_scope.
Open Scope js_scope.

(** [Date.now()] *)
Definition Date_now : M Z := λ w,
  (Ok (clock w (tick w)),
   mkWorld (db w) (clock w) (S (tick w)) (random w) (rnd w) (randomBytes w)
           (rb w) (uuids w) (uu w) (bridge w)).

(** One digit index drawn as [Math.floor(Math.random() * chars.length)]
    with [chars.length = 10]. *)
Definition Math_random_index : M nat := λ w,
  (Ok (random w (rnd w) `mod` 10)%nat,
   mkWorld (db w) (clock w) (tick w) (random w) (S (rnd w)) (randomBytes w)
           (rb w) (uuids w) (uu w) (bridge w)).

Definition crypto_randomBytes_hex : M string := λ w,
  (Ok (randomBytes w (rb w)),
   mkWorld (db w) (clock w) (tick w) (random w) (rnd w) (randomBytes w)
           (S (rb w)) (uuids w) (uu w) (bridge w)).

Definition uuid : M string := λ w,
  (Ok (uuids w (uu w)),
   mkWorld (db w) (clock w) (tick w) (random w) (rnd w) (randomBytes w)
           (rb w) (uuids w) (S (uu w)) (bridge w)).

Definition emit (e : BridgeEvent) : M unit := λ w,
  (Ok tt,
   mkWorld (db w) (clock w) (tick w) (random w) (rnd w) (randomBytes w)
           (rb w) (uuids w) (uu w) (bridge w ++ [e])).

(** A read of the database and a statement that changes it. *)
Definition query {A} (q : Database → A) : M A := λ w, (Ok (q (db w)), w).
Definition exec (f : Database → Database) : M unit := λ w, (Ok tt, with_db f w).
Definition exec_result {A} (f : Database → A * Database) : M A := λ w,
  let '(r, d) := f (db w) in (Ok r, with_db (λ _, d) w).

(* ===================================================================== *)
(** * pairing/PairingService.ts                                           *)
(* ===================================================================== *)

Module PAIRING_CONFIG.
Definition CODE_LENGTH : nat := 6.
Definition CODE_EXPIRY_MS : Z := 10 * 60 * 1000.
Definition CLEANUP_INTERVAL_MS : Z := 60 * 1000.
End PAIRING_CONFIG.

(** [a || b] on strings: the empty string is falsy. *)
Definition str_or (a b : string) : string := if decide (a = "") then b else a.

Record ApproveResult := mkApproveResult {
  ar_success : bool;
  ar_user : option IChannelUser;
  ar_error : option string;
}.

Record RejectResult := mkRejectResult {
  rr_success : bool;
  rr_error : option string;
}.

Module PairingService.

Definition chars : list string :=
  ["0"; "1"; "2"; "3"; "4"; "5"; "6"; "7"; "8"; "9"].

(** [generateRandomCode]: [CODE_LENGTH] characters of [chars]. *)
Fixpoint generateRandomCode_loop (n : nat) (code : string) : M string :=
  match n with
  | O => ret code
  | S n' =>
      i <- Math_random_index ;;
      generateRandomCode_loop n' (code +:+ nth i chars "")
  end.

Definition generateRandomCode : M string :=
  generateRandomCode_loop PAIRING_CONFIG.CODE_LENGTH "".

(** [generateUniqueCode]: the [while (attempts < maxAttempts)] loop, by
    recursion on the attempts that remain. *)
Fixpoint generateUniqueCode_loop (remaining : nat) : M string :=
  match remaining with
  | O => throw "Failed to generate unique pairing code"
  | S remaining' =>
      code <- generateRandomCode ;;
      existing <- query (Db.getPairingRequestByCode code) ;;
      match existing with
      | QOk (Some data) =>
          if decide (req_status data ≠ pending) then ret code
          else
            now <- Date_now ;;
            if decide (req_expiresAt data < now) then ret code
            else generateUniqueCode_loop remaining'
      | _ => ret code
      end
  end.

Definition maxAttempts : nat := 10.

Definition generateUniqueCode : M string := generateUniqueCode_loop maxAttempts.

Definition same_identity (platformUserId : string) (platformType : PluginType)
    (r : IChannelPairingRequest) : bool :=
  bool_decide (req_platformUserId r = platformUserId
               ∧ req_platformType r = platformType
               ∧ req_status r = pending).

(** The second half of [generatePairingCode]: a fresh code and a new
    pending request. *)
Definition createNewRequest (platformUserId : string) (platformType : PluginType)
    (displayName : option string) : M (string * Z) :=
  code <- generateUniqueCode ;;
  now <- Date_now ;;
  let expiresAt := now + PAIRING_CONFIG.CODE_EXPIRY_MS in
  let request := mkRequest code platformUserId platformType displayName
                   now expiresAt pending in
  createResult <- exec_result (Db.createPairingRequest request) ;;
  match createResult with
  | QFail e => throw (str_or e "Failed to create pairing request")
  | QOk _ =>
      emit (pairingRequested request) ;;;
      ret (code, expiresAt)
  end.

Definition generatePairingCode (platformUserId : string) (platformType : PluginType)
    (displayName : option string) : M (string * Z) :=
  t <- Date_now ;;
  existingResult <- query (Db.getPendingPairingRequests t) ;;
  match existingResult with
  | QOk data =>
      match js_find (same_identity platformUserId platformType) data with
      | Some existing =>
          now <- Date_now ;;
          if decide (now < req_expiresAt existing)
          then ret (req_code existing, req_expiresAt existing)
          else createNewRequest platformUserId platformType displayName
      | None => createNewRequest platformUserId platformType displayName
      end
  | QFail _ => createNewRequest platformUserId platformType displayName
  end.

(** The [for (const request of existingResult.data)] loop of
    [refreshPairingCode]. *)
Fixpoint expire_pending (platformUserId : string) (platformType : PluginType)
    (data : list IChannelPairingRequest) : M unit :=
  match data with
  | [] => ret tt
  | request :: data' =>
      (if same_identity platformUserId platformType request
       then exec (Db.updatePairingRequestStatus (req_code request) expired)
       else ret tt) ;;;
      expire_pending platformUserId platformType data'
  end.

Definition refreshPairingCode (platformUserId : string) (platformType : PluginType)
    (displayName : option string) : M (string * Z) :=
  t <- Date_now ;;
  existingResult <- query (Db.getPendingPairingRequests t) ;;
  (match existingResult with
   | QOk data => expire_pending platformUserId platformType data
   | QFail _ => ret tt
   end) ;;;
  generatePairingCode platformUserId platformType displayName.

Definition isUserAuthorized (platformUserId : string) (platformType : PluginType)
    (d : Database) : bool :=
  match Db.getChannelUserByPlatform platformUserId platformType d with
  | QOk (Some _) => true
  | _ => false
  end.

Definition getPairingRequest (code : string) (d : Database)
    : option IChannelPairingRequest :=
  match Db.getPairingRequestByCode code d with
  | QOk data => data
  | QFail _ => None
  end.

(** [data.find(r => ... && r.status === 'pending' && r.expiresAt >
    Date.now())]: the clock is read for every row that passes the first
    three tests. *)
Fixpoint find_live (platformUserId : string) (platformType : PluginType)
    (data : list IChannelPairingRequest) : M (option IChannelPairingRequest) :=
  match data with
  | [] => ret None
  | r :: data' =>
      if same_identity platformUserId platformType r then
        now <- Date_now ;;
        if decide (now < req_expiresAt r) then ret (Some r)
        else find_live platformUserId platformType data'
      else find_live platformUserId platformType data'
  end.

Definition getPendingRequestForUser (platformUserId : string)
    (platformType : PluginType) : M (option IChannelPairingRequest) :=
  t <- Date_now ;;
  result <- query (Db.getPendingPairingRequests t) ;;
  match result with
  | QFail _ => ret None
  | QOk data => find_live platformUserId platformType data
  end.

Definition approvePairing (code : string) : M ApproveResult :=
  request <- query (getPairingRequest code) ;;
  match request with
  | None => ret (mkApproveResult false None (Some "Pairing request not found"))
  | Some request =>
      now <- Date_now ;;
      if decide (req_expiresAt request < now) then
        exec (Db.updatePairingRequestStatus code expired) ;;;
        ret (mkApproveResult false None (Some "Pairing code has expired"))
      else if decide (req_status request ≠ pending) then
        ret (mkApproveResult false None
               (Some ("Pairing request already "
                      +:+ PairingStatus_str (req_status request))))
      else
        existingUser <- query (Db.getChannelUserByPlatform
                                 (req_platformUserId request)
                                 (req_platformType request)) ;;
        match existingUser with
        | QOk (Some data) =>
            exec (Db.updatePairingRequestStatus code approved) ;;;
            ret (mkApproveResult true (Some data) None)
        | _ =>
            t <- Date_now ;;
            hex <- crypto_randomBytes_hex ;;
            let userId := "assistant_user_" +:+ pretty t +:+ "_"
                          +:+ String.substring 0%nat 6%nat hex in
            authorizedAt <- Date_now ;;
            let user := mkUser userId (req_platformUserId request)
                          (req_platformType request) (req_displayName request)
                          authorizedAt None None in
            createResult <- exec_result (Db.createChannelUser user) ;;
            match createResult with
            | QFail e => ret (mkApproveResult false None (Some e))
            | QOk _ =>
                exec (Db.updatePairingRequestStatus code approved) ;;;
                emit (userAuthorized user) ;;;
                ret (mkApproveResult true (Some user) None)
            end
        end
  end.

Definition rejectPairing (code : string) : M RejectResult :=
  request <- query (getPairingRequest code) ;;
  match request with
  | None => ret (mkRejectResult false (Some "Pairing request not found"))
  | Some _ =>
      exec (Db.updatePairingRequestStatus code rejected) ;;;
      ret (mkRejectResult true None)
  end.

(** [data.filter(r => r.status === 'pending' && r.expiresAt > Date.now())] *)
Fixpoint filter_live (data : list IChannelPairingRequest)
    : M (list IChannelPairingRequest) :=
  match data with
  | [] => ret []
  | r :: data' =>
      if decide (req_status r = pending) then
        now <- Date_now ;;
        rest <- filter_live data' ;;
        ret (if decide (now < req_expiresAt r) then r :: rest else rest)
      else filter_live data'
  end.

Definition getPendingRequests : M (list IChannelPairingRequest) :=
  t <- Date_now ;;
  result <- query (Db.getPendingPairingRequests t) ;;
  match result with
  | QFail _ => ret []
  | QOk data => filter_live data
  end.

Definition cleanupExpired : M nat :=
  now <- Date_now ;;
  result <- exec_result (Db.cleanupExpiredPairingRequests now) ;;
  match result with
  | QOk n => ret n
  | QFail _ => ret 0%nat
  end.

End PairingService.

(* ===================================================================== *)
(** * core/SessionManager.ts                                              *)
(* ===================================================================== *)

Module SessionManager.

(** [activeSessions : Map<string, IChannelSession>], keyed by user id. *)
Definition t : Type := JsMap.t IChannelSession.

(** [loadActiveSessions], run by the constructor. *)
Definition loadActiveSessions (d : Database) : t :=
  match Db.getChannelSessions d with
  | QOk data => foldl (λ m session, JsMap.set (ses_userId session) session m)
                      JsMap.empty data
  | QFail _ => JsMap.empty
  end.

Definition new : M t := query loadActiveSessions.

Definition getSession (userId : string) (m : t) : option IChannelSession :=
  JsMap.get userId m.

Definition createSessionWithConversation (user : IChannelUser)
    (conversationId : string) (agentType : ChannelAgentType)
    (workspace : option string) (m : t) : M (IChannelSession * t) :=
  (match JsMap.get (usr_id user) m with
   | Some existingSession => exec (Db.deleteChannelSession (ses_id existingSession))
   | None => ret tt
   end) ;;;
  now <- Date_now ;;
  id <- uuid ;;
  let session := mkSession id (usr_id user) agentType (Some conversationId)
                   workspace now now in
  t <- Date_now ;;
  exec (Db.upsertChannelSession session t) ;;;
  let m' := JsMap.set (usr_id user) session m in
  query (Db.getChannelUserByPlatform (usr_platformUserId user)
           (usr_platformType user)) ;;;
  ret (session, m').

Definition createSession (user : IChannelUser) (agentType : ChannelAgentType)
    (workspace : option string) (m : t) : M (IChannelSession * t) :=
  conversationId <- uuid ;;
  createSessionWithConversation user conversationId agentType workspace m.

(** The cached object is changed in place: the entry of the first
    session that satisfies [p]. *)
Fixpoint update_first (p : IChannelSession → bool)
    (f : IChannelSession → IChannelSession) (m : t) : t :=
  match m with
  | [] => []
  | (k, s) :: m' =>
      if p s then (k, f s) :: m' else (k, s) :: update_first p f m'
  end.

Definition touch (conversationId : option string) (lastActivity : Z)
    (s : IChannelSession) : IChannelSession :=
  mkSession (ses_id s) (ses_userId s) (ses_agentType s) conversationId
    (ses_workspace s) (ses_createdAt s) lastActivity.

Definition updateSessionConversation (sessionId conversationId : string)
    (m : t) : M (bool * t) :=
  let has_id := λ s, bool_decide (ses_id s = sessionId) in
  match js_find has_id (JsMap.values m) with
  | None => ret (false, m)
  | Some session =>
      now <- Date_now ;;
      let upd := touch (Some conversationId) now in
      t <- Date_now ;;
      exec (Db.upsertChannelSession (upd session) t) ;;;
      ret (true, update_first has_id upd m)
  end.

Definition updateSessionActivity (userId : string) (m : t) : M t :=
  match JsMap.get userId m with
  | None => ret m
  | Some session =>
      now <- Date_now ;;
      let session' := touch (ses_conversationId session) now session in
      t <- Date_now ;;
      exec (Db.upsertChannelSession session' t) ;;;
      ret (JsMap.set userId session' m)
  end.

Definition clearSession (userId : string) (m : t) : M (bool * t) :=
  match JsMap.get userId m with
  | None => ret (false, m)
  | Some session =>
      exec (Db.deleteChannelSession (ses_id session)) ;;;
      ret (true, JsMap.delete userId m)
  end.

Definition clearSessionByConversationId (conversationId : string) (m : t)
    : M (option IChannelSession * t) :=
  match js_find (λ e : string * IChannelSession,
                   bool_decide (ses_conversationId e.2 = Some conversationId)) m with
  | None => ret (None, m)
  | Some (foundUserId, foundSession) =>
      exec (Db.deleteChannelSession (ses_id foundSession)) ;;;
      ret (Some foundSession, JsMap.delete foundUserId m)
  end.

Definition getAllSessions (m : t) : list IChannelSession := JsMap.values m.
Definition getSessionCount (m : t) : nat := JsMap.size m.

(** The [for (const [userId, session] of this.activeSessions.entries())]
    loop of [cleanupStaleSessions]; entries deleted during the iteration
    are the ones already visited. *)
Fixpoint cleanup_loop (now maxAgeMs : Z) (entries : list (string * IChannelSession))
    (cleaned : nat) (m : t) : M (nat * t) :=
  match entries with
  | [] => ret (cleaned, m)
  | (userId, session) :: entries' =>
      if decide (maxAgeMs < now - ses_lastActivity session) then
        exec (Db.deleteChannelSession (ses_id session)) ;;;
        cleanup_loop now maxAgeMs entries' (S cleaned) (JsMap.delete userId m)
      else cleanup_loop now maxAgeMs entries' cleaned m
  end.

Definition cleanupStaleSessions (maxAgeMs : Z) (m : t) : M (nat * t) :=
  now <- Date_now ;;
  cleanup_loop now maxAgeMs m 0%nat m.

(** ** Sequences of operations *)

Inductive Op :=
  | CreateSession (user : IChannelUser) (agentType : ChannelAgentType)
      (workspace : option string)
  | CreateSessionWithConversation (user : IChannelUser) (conversationId : string)
      (agentType : ChannelAgentType) (workspace : option string)
  | UpdateSessionConversation (sessionId conversationId : string)
  | UpdateSessionActivity (userId : string)
  | ClearSession (userId : string)
  | ClearSessionByConversationId (conversationId : string)
  | CleanupStaleSessions (maxAgeMs : Z).

(** The process and the manager's cache. *)
Definition State : Type := World * t.

Definition after {A} (r : Res (A * t) * World) (old : t) : State :=
  match r with
  | (Ok (_, m), w) => (w, m)
  | (Throw _, w) => (w, old)
  end.

Definition step (st : State) (op : Op) : State :=
  let '(w, m) := st in
  match op with
  | CreateSession user agentType workspace =>
      after (createSession user agentType workspace m w) m
  | CreateSessionWithConversation user conversationId agentType workspace =>
      after (createSessionWithConversation user conversationId agentType workspace m w) m
  | UpdateSessionConversation sessionId conversationId =>
      after (updateSessionConversation sessionId conversationId m w) m
  | UpdateSessionActivity userId =>
      after ((m' <- updateSessionActivity userId m ;; ret (tt, m')) w) m
  | ClearSession userId => after (clearSession userId m w) m
  | ClearSessionByConversationId conversationId =>
      after (clearSessionByConversationId conversationId m w) m
  | CleanupStaleSessions maxAgeMs => after (cleanupStaleSessions maxAgeMs m w) m
  end.

Definition run (ops : list Op) (st : State) : State := foldl step st ops.

(** The manager as constructed on a process. *)
Definition init (w : World) : State := (w, loadActiveSessions (db w)).

(** The session rows of a user in the store, and the user's sessions in
    the cache. *)
Definition stored_sessions (userId : string) (st : State) : list IChannelSession :=
  filter (λ s, ses_userId s = userId) (assistant_sessions (db st.1)).
Definition cached_sessions (userId : string) (st : State) : list IChannelSession :=
  filter (λ s, ses_userId s = userId) (JsMap.values st.2).

(** What the proof maintains: the cache has one entry per key, filed
    under the session's own user; session ids are a key of the table; and
    every stored row is the row of the session cached for its user. *)
Record Inv (d : Database) (m : t) : Prop := {
  inv_keys : NoDup (JsMap.keys m);
  inv_filed : ∀ k s, (k, s) ∈ m → ses_userId s = k;
  inv_ids : NoDup (ses_id <$> assistant_sessions d);
  inv_rows : ∀ r, r ∈ assistant_sessions d →
               ∃ s, JsMap.get (ses_userId r) m = Some s ∧ ses_id s = ses_id r;
}.

End SessionManager.

(* ===================================================================== *)
(** * plugins/BasePlugin.ts                                               *)
(* ===================================================================== *)

Record BotInfo := mkBotInfo {
  bot_username : option string;
  bot_displayName : option string;
}.

(** The abstract members of [BasePlugin]: what a platform connector
    supplies. [S] is the connector's own state; a hook returns the new
    state and, when it throws, the message of the error. *)
Class Connector (S : Type) := {
  plugin_type : S → PluginType;
  onInitialize : IChannelPluginConfig → S → S * option string;
  onStart : S → S * option string;
  onStop : S → S * option string;
  sendMessage : string → IUnifiedOutgoingMessage → S → S * Res string;
  editMessage : string → string → IUnifiedOutgoingMessage → S → S * Res unit;
  getActiveUserCount : S → nat;
  getBotInfo : S → option BotInfo;
}.

(** The platform hooks, for the record of which of them ran. *)
Inductive Hook := HookInitialize | HookStart | HookStop.

Global Instance Hook_eq_dec : EqDecision Hook.
Proof. solve_decision. Defined.

(** A handler registered with [onMessage] / [onConfirm]: the closures are
    told apart by a name. *)
Definition Handler : Type := string.

Module BasePlugin.
Section BasePlugin.
Context {S : Type} `{!Connector S}.

Record t := mk {
  _status : PluginStatus;
  config : option IChannelPluginConfig;
  messageHandler : option Handler;
  confirmHandler : option Handler;
  errorMessage : option string;
  connector : S;             (* the fields of the subclass *)
  hooks : list Hook;         (* the platform hooks run so far, oldest first *)
}.

(** [new Constructor()] *)
Definition new (s : S) : t := mk created None None None None s [].

(** [setStatus(status, error?)]: [errorMessage = error ?? null]. *)
Definition setStatus (status : PluginStatus) (error : option string) (p : t) : t :=
  mk status (config p) (messageHandler p) (confirmHandler p) error
     (connector p) (hooks p).

Definition run_hook (h : Hook) (f : S → S * option string) (p : t)
    : option string * t :=
  let '(s', thrown) := f (connector p) in
  (thrown, mk (_status p) (config p) (messageHandler p) (confirmHandler p)
              (errorMessage p) s' (hooks p ++ [h])).

Definition initialize (cfg : IChannelPluginConfig) (p : t) : Res unit * t :=
  let p := setStatus initializing None p in
  let p := mk (_status p) (Some cfg) (messageHandler p) (confirmHandler p)
              (errorMessage p) (connector p) (hooks p) in
  match run_hook HookInitialize (onInitialize cfg) p with
  | (None, p) => (Ok tt, setStatus ready None p)
  | (Some message, p) => (Throw message, setStatus error (Some message) p)
  end.

Definition start (p : t) : Res unit * t :=
  if decide (_status p ≠ ready ∧ _status p ≠ stopped) then
    (Throw ("Cannot start plugin in status: " +:+ PluginStatus_str (_status p)), p)
  else
    let p := setStatus starting None p in
    match run_hook HookStart onStart p with
    | (None, p) => (Ok tt, setStatus running None p)
    | (Some message, p) => (Throw message, setStatus error (Some message) p)
    end.

Definition stop (p : t) : Res unit * t :=
  if decide (_status p ≠ running ∧ _status p ≠ error) then (Ok tt, p)
  else
    let p := setStatus stopping None p in
    match run_hook HookStop onStop p with
    | (None, p) => (Ok tt, setStatus stopped None p)
    | (Some message, p) => (Throw message, setStatus error (Some message) p)
    end.

Definition onMessage (handler : Handler) (p : t) : t :=
  mk (_status p) (config p) (Some handler) (confirmHandler p) (errorMessage p)
     (connector p) (hooks p).

Definition onConfirm (handler : Handler) (p : t) : t :=
  mk (_status p) (config p) (messageHandler p) (Some handler) (errorMessage p)
     (connector p) (hooks p).

(** The two abstract senders, on the connector inside the plugin. *)
Definition send (chatId : string) (msg : IUnifiedOutgoingMessage) (p : t)
    : Res string * t :=
  let '(s', r) := sendMessage chatId msg (connector p) in
  (r, mk (_status p) (config p) (messageHandler p) (confirmHandler p)
         (errorMessage p) s' (hooks p)).

Definition edit (chatId messageId : string) (msg : IUnifiedOutgoingMessage) (p : t)
    : Res unit * t :=
  let '(s', r) := editMessage chatId messageId msg (connector p) in
  (r, mk (_status p) (config p) (messageHandler p) (confirmHandler p)
         (errorMessage p) s' (hooks p)).

(** The getters [status], [error] and the member [type]. *)
Definition status (p : t) : PluginStatus := _status p.
Definition error (p : t) : option string := errorMessage p.
Definition type (p : t) : PluginType := plugin_type (connector p).
End BasePlugin.
Arguments t S : clear implicits.
End BasePlugin.

(* ===================================================================== *)
(** * gateway/PluginManager.ts                                            *)
(* ===================================================================== *)

Module PluginManager.
Section PluginManager.
Context {S : Type} `{!Connector S}.

Record t := mk {
  (** the module-level [pluginRegistry]: what [new Constructor()] builds
      for a plugin type, if the type is registered *)
  pluginRegistry : PluginType → option S;
  plugins : JsMap.t (BasePlugin.t S);
  messageHandler : option Handler;
  confirmHandler : option Handler;
  pluginErrors : gmap string string;
}.

Definition new (registry : PluginType → option S) : t :=
  mk registry JsMap.empty None None ∅.

Definition with_plugins (f : JsMap.t (BasePlugin.t S) → JsMap.t (BasePlugin.t S))
    (pm : t) : t :=
  mk (pluginRegistry pm) (f (plugins pm)) (messageHandler pm) (confirmHandler pm)
     (pluginErrors pm).
Definition with_errors (f : gmap string string → gmap string string) (pm : t) : t :=
  mk (pluginRegistry pm) (plugins pm) (messageHandler pm) (confirmHandler pm)
     (f (pluginErrors pm)).

Definition getPluginError (pluginId : string) (pm : t) : option string :=
  pluginErrors pm !! pluginId.

Definition clearPluginError (pluginId : string) (pm : t) : t :=
  with_errors (delete pluginId) pm.

Definition setMessageHandler (handler : Handler) (pm : t) : t :=
  mk (pluginRegistry pm) (prod_map id (BasePlugin.onMessage handler) <$> plugins pm)
     (Some handler) (confirmHandler pm) (pluginErrors pm).

Definition setConfirmHandler (handler : Handler) (pm : t) : t :=
  mk (pluginRegistry pm) (prod_map id (BasePlugin.onConfirm handler) <$> plugins pm)
     (messageHandler pm) (Some handler) (pluginErrors pm).

Definition getPlugin (pluginId : string) (pm : t) : option (BasePlugin.t S) :=
  JsMap.get pluginId (plugins pm).

Definition getAllPlugins (pm : t) : list (BasePlugin.t S) :=
  JsMap.values (plugins pm).

(** [!!config.credentials?.token] *)
Definition hasToken (config : IChannelPluginConfig) : bool :=
  match cfg_credentials config with
  | Some (mkCredentials (Some tok)) => negb (String.eqb tok "")
  | _ => false
  end.

Definition buildPluginStatus (config : IChannelPluginConfig) (pm : t)
    : IChannelPluginStatus :=
  let plugin := JsMap.get (cfg_id config) (plugins pm) in
  let botInfo := plugin ≫= λ p, getBotInfo (BasePlugin.connector p) in
  let errorMessage :=
    match plugin ≫= BasePlugin.error with
    | Some e => Some e
    | None => pluginErrors pm !! cfg_id config
    end in
  mkPluginStatus (cfg_id config) (cfg_type config) (cfg_name config)
    (cfg_enabled config)
    (match plugin with
     | Some p => bool_decide (BasePlugin.status p = running)
     | None => false
     end)
    (match plugin with
     | Some p => BasePlugin.status p
     | None => cfg_status config
     end)
    (cfg_lastConnected config)
    errorMessage
    (match plugin with
     | Some p => getActiveUserCount (BasePlugin.connector p)
     | None => 0%nat
     end)
    (botInfo ≫= bot_username)
    (hasToken config).

Definition emitStatusChange (pluginId : string) (pm : t) : M unit :=
  configResult <- query (Db.getChannelPlugin pluginId) ;;
  match configResult with
  | QOk (Some data) => emit (pluginStatusChanged pluginId (buildPluginStatus data pm))
  | _ => ret tt
  end.

Definition emitStatusChangeWithError (pluginId : string)
    (config : IChannelPluginConfig) (errorMessage : string) : M unit :=
  emit (pluginStatusChanged pluginId
          (mkPluginStatus (cfg_id config) (cfg_type config) (cfg_name config)
             (cfg_enabled config) false error (cfg_lastConnected config)
             (Some errorMessage) 0%nat None (hasToken config))).

(** The [catch] blocks of [startPlugin]: cache the message, persist the
    status, emit, rethrow. *)
Definition start_failed (id : string) (config : IChannelPluginConfig)
    (errorMsg thrown : string) (pm : t) : M (Res unit * t) :=
  let pm := with_errors (insert id errorMsg) pm in
  now <- Date_now ;;
  exec (Db.updateChannelPluginStatus id error None now) ;;;
  emitStatusChangeWithError id config errorMsg ;;;
  ret (Throw thrown, pm).

(** [if (this.messageHandler) plugin.onMessage(...)] and the same for
    the confirm handler. *)
Definition attach_handlers (pm : t) (plugin : BasePlugin.t S) : BasePlugin.t S :=
  let plugin := match messageHandler pm with
                | Some h => BasePlugin.onMessage h plugin
                | None => plugin
                end in
  match confirmHandler pm with
  | Some h => BasePlugin.onConfirm h plugin
  | None => plugin
  end.

(** [startPlugin]. The value is the outcome of the call for its caller
    together with the manager afterwards (the manager keeps what was
    done before a [throw]). *)
Definition startPlugin (config : IChannelPluginConfig) (pm : t) : M (Res unit * t) :=
  let id := cfg_id config in
  let pm := with_errors (delete id) pm in
  if JsMap.has id (plugins pm) then ret (Ok tt, pm)
  else
    match pluginRegistry pm (cfg_type config) with
    | None =>
        let errorMsg := "Unknown plugin type: " +:+ PluginType_str (cfg_type config) in
        ret (Throw errorMsg, with_errors (insert id errorMsg) pm)
    | Some fresh =>
        let plugin := BasePlugin.new fresh in
        match BasePlugin.initialize config plugin with
        | (Throw message, _) =>
            start_failed id config
              ("Plugin initialization failed: " +:+ message) message pm
        | (Ok _, plugin) =>
            match BasePlugin.start (attach_handlers pm plugin) with
            | (Throw message, _) =>
                start_failed id config
                  ("Plugin start failed: " +:+ message) message pm
            | (Ok _, plugin) =>
                let pm := with_plugins (JsMap.set id plugin) pm in
                lastConnected <- Date_now ;;
                now <- Date_now ;;
                exec (Db.updateChannelPluginStatus id running
                        (Some lastConnected) now) ;;;
                emitStatusChange id pm ;;;
                ret (Ok tt, pm)
            end
        end
    end.

Definition stopPlugin (pluginId : string) (pm : t) : M (Res unit * t) :=
  match JsMap.get pluginId (plugins pm) with
  | None => ret (Ok tt, pm)
  | Some plugin =>
      match BasePlugin.stop plugin with
      | (Throw message, plugin) =>
          (* the instance in the map is the one [stop] changed *)
          ret (Throw message, with_plugins (JsMap.set pluginId plugin) pm)
      | (Ok _, _) =>
          let pm := with_plugins (JsMap.delete pluginId) pm in
          now <- Date_now ;;
          exec (Db.updateChannelPluginStatus pluginId stopped None now) ;;;
          emitStatusChange pluginId pm ;;;
          ret (Ok tt, pm)
      end
  end.

(** [ORDER BY created_at ASC] of [getChannelPlugins], then one status per
    stored configuration. *)
Definition getPluginStatuses (pm : t) : M (list IChannelPluginStatus) :=
  result <- query Db.getChannelPlugins ;;
  match result with
  | QOk data => ret ((λ config, buildPluginStatus config pm) <$> data)
  | QFail _ => ret []
  end.

(** ** Sequences of calls *)

Inductive Op :=
  | StartPlugin (config : IChannelPluginConfig)
  | StopPlugin (pluginId : string).

Definition State : Type := World * t.

Definition step (st : State) (op : Op) : State :=
  let '(w, pm) := st in
  match (match op with
         | StartPlugin config => startPlugin config pm w
         | StopPlugin pluginId => stopPlugin pluginId pm w
         end) with
  | (Ok (_, pm'), w') => (w', pm')
  | (Throw _, w') => (w', pm)
  end.

Definition run (ops : list Op) (st : State) : State := foldl step st ops.

(** The runtime instances the map holds for an id. *)
Definition runtimes (pluginId : string) (pm : t) : list (BasePlugin.t S) :=
  (filter (λ e, e.1 = pluginId) (plugins pm)).*2.

(** What the proof maintains: one entry per id, and no cached error for
    an id that is in the map. *)
Definition Inv (pm : t) : Prop :=
  NoDup (JsMap.keys (plugins pm))
  ∧ ∀ id, id ∈ JsMap.keys (plugins pm) → pluginErrors pm !! id = None.
End PluginManager.
Arguments t S : clear implicits.
End PluginManager.

(* ===================================================================== *)
(** * actions/types.ts, ChatActions.ts, PlatformActions.ts                *)
(* ===================================================================== *)

Record IActionResult := mkActionResult {
  res_success : bool;
  res_message : option IUnifiedOutgoingMessage;
  res_error : option string;
}.

Definition createErrorResponse (error : string) : IActionResult :=
  mkActionResult false (Some (mkOutgoing ("❌ " +:+ error) None)) (Some error).

Definition createSuccessResponse (message : option IUnifiedOutgoingMessage)
    : IActionResult :=
  mkActionResult true message None.

(** The line feed of ['\n']. *)
Definition nl : string := String (Ascii.ascii_of_nat 10) EmptyString.

(** The double quote. *)
Definition dq : string := String (Ascii.ascii_of_nat 34) EmptyString.

Definition join_lines (lines : list string) : string := String.concat nl lines.

(** [escapeHtml]: the three global replacements. *)
Fixpoint escapeHtml (text : string) : string :=
  match text with
  | EmptyString => EmptyString
  | String c rest =>
      (if decide (c = "&"%char) then "&amp;"
       else if decide (c = "<"%char) then "&lt;"
       else if decide (c = ">"%char) then "&gt;"
       else String c EmptyString) +:+ escapeHtml rest
  end.

Definition buildChatErrorResponse (error : string) : IUnifiedOutgoingMessage :=
  mkOutgoing ("❌ <b>Processing Failed</b>" +:+ nl +:+ nl +:+ error +:+ nl +:+ nl
              +:+ "Please retry or start a new conversation.")
             (Some ErrorRecoveryKeyboard).

Definition SystemActionNames : list string :=
  ["session.new"; "session.status"; "help.show"; "help.features"; "help.pairing";
   "help.tips"; "settings.show"; "agent.show"; "agent.select"].
Definition ChatActionNames : list string :=
  ["chat.send"; "chat.regenerate"; "chat.continue"; "action.copy"; "confirm"].
Definition PlatformActionNames : list string :=
  ["pairing.show"; "pairing.refresh"; "pairing.check"; "pairing.help"].

(** [Math.ceil((expiresAt - Date.now()) / 1000 / 60)] *)
Definition expiresInMinutes (expiresAt now : Z) : Z := - ((- (expiresAt - now)) `div` 60000).

(** [handlePairingShow] of PlatformActions.ts, on the process. *)
Definition handlePairingShow (userId : string) (platform : PluginType)
    (displayName : option string) : M IActionResult :=
  authorized <- query (PairingService.isUserAuthorized userId platform) ;;
  if authorized : bool then
    ret (createSuccessResponse (Some (mkOutgoing
      (join_lines ["✅ <b>Authorized</b>"; "";
                   "Your account is already paired and ready to use."; "";
                   "Send a message to start chatting, or use the buttons below."])
      (Some MainMenuKeyboard))))
  else
    try_catch
      (generated <- PairingService.generatePairingCode userId platform displayName ;;
       now <- Date_now ;;
       ret (createSuccessResponse (Some (mkOutgoing
         (join_lines ["🔗 <b>Device Pairing</b>"; "";
                      "Please approve this pairing request in the AionUi app:"; "";
                      "<code>" +:+ generated.1 +:+ "</code>"; "";
                      "⏱ Valid for: " +:+ pretty (expiresInMinutes generated.2 now)
                        +:+ " minutes"; "";
                      "<b>Steps:</b>"; "1. Open AionUi app";
                      "2. Go to WebUI → Channels";
                      "3. Click " +:+ dq +:+ "Approve" +:+ dq
                        +:+ " in pending pairing requests"])
         (Some PairingCodeKeyboard)))))
      (λ message,
         ret (createErrorResponse ("Failed to generate pairing code: " +:+ message))).

(* ===================================================================== *)
(** * gateway/ActionExecutor.ts                                           *)
(* ===================================================================== *)

(** The rendered messages of the agent ([TMessage]), as far as
    [convertTMessageToOutgoing] looks at them. *)
Record ConfirmationDetails := mkConfirmation {
  cd_type : string;
  cd_fileName : string;
  cd_command : string;
  cd_toolDisplayName : string;
  cd_toolName : string;
  cd_serverName : string;
  cd_prompt : string;
}.

Record ToolItem := mkTool {
  tool_callId : string;
  tool_status : string;
  tool_description : string;
  tool_name : string;
  tool_confirmationDetails : option ConfirmationDetails;
}.

Inductive TMessage :=
  | tm_text (content : string)
  | tm_tips (type : string) (content : string)
  | tm_tool_group (content : list ToolItem)
  | tm_tool_call (status : string) (name : string)
  | tm_other.

Definition getConfirmationOptions (type : string) : list (string * string) :=
  if decide (type = "edit") then
    [("✅ Allow Once", "proceed_once"); ("✅ Always Allow", "proceed_always");
     ("❌ Cancel", "cancel")]
  else if decide (type = "exec") then
    [("✅ Allow Execution", "proceed_once"); ("✅ Always Allow", "proceed_always");
     ("❌ Cancel", "cancel")]
  else if decide (type = "mcp") then
    [("✅ Allow Once", "proceed_once"); ("✅ Always Allow Tool", "proceed_always_tool");
     ("✅ Always Allow Server", "proceed_always_server"); ("❌ Cancel", "cancel")]
  else [("✅ Confirm", "proceed_once"); ("❌ Cancel", "cancel")].

Definition getConfirmationPrompt (details : ConfirmationDetails) : string :=
  if decide (cd_type details = "edit") then
    "📝 <b>Edit File Confirmation</b>" +:+ nl +:+ "File: <code>"
    +:+ escapeHtml (str_or (cd_fileName details) "Unknown file") +:+ "</code>"
    +:+ nl +:+ nl +:+ "Allow editing this file?"
  else if decide (cd_type details = "exec") then
    "⚡ <b>Execute Command Confirmation</b>" +:+ nl +:+ "Command: <code>"
    +:+ escapeHtml (str_or (cd_command details) "Unknown command") +:+ "</code>"
    +:+ nl +:+ nl +:+ "Allow executing this command?"
  else if decide (cd_type details = "mcp") then
    "🔧 <b>MCP Tool Confirmation</b>" +:+ nl +:+ "Tool: <code>"
    +:+ escapeHtml (str_or (cd_toolDisplayName details)
                      (str_or (cd_toolName details) "Unknown tool")) +:+ "</code>"
    +:+ nl +:+ "Server: <code>"
    +:+ escapeHtml (str_or (cd_serverName details) "Unknown server") +:+ "</code>"
    +:+ nl +:+ nl +:+ "Allow calling this tool?"
  else if decide (cd_type details = "info") then
    "ℹ️ <b>Information Confirmation</b>" +:+ nl
    +:+ escapeHtml (cd_prompt details) +:+ nl +:+ nl +:+ "Continue?"
  else "Please confirm the operation".

Definition toolLine (tool : ToolItem) : string :=
  let statusIcon :=
    if decide (tool_status tool = "Success") then "✅"
    else if decide (tool_status tool = "Error") then "❌"
    else if decide (tool_status tool = "Executing") then "⏳"
    else if decide (tool_status tool = "Confirming") then "❓"
    else "📋" in
  statusIcon +:+ " " +:+ escapeHtml (str_or (tool_description tool) (tool_name tool)).

Definition convertTMessageToOutgoing (message : TMessage) (isComplete : bool)
    : IUnifiedOutgoingMessage :=
  match message with
  | tm_text content =>
      mkOutgoing (str_or (escapeHtml content) "...")
                 (if isComplete then Some ResponseActionsKeyboard else None)
  | tm_tips type content =>
      let icon := if decide (type = "error") then "❌"
                  else if decide (type = "success") then "✅" else "⚠️" in
      mkOutgoing (icon +:+ " " +:+ escapeHtml content) None
  | tm_tool_group content =>
      let toolLines := toolLine <$> content in
      match js_find (λ tool, bool_decide (tool_status tool = "Confirming")
                             && bool_decide (is_Some (tool_confirmationDetails tool)))
                    content with
      | Some (mkTool callId _ _ _ (Some details)) =>
          mkOutgoing (join_lines toolLines +:+ nl +:+ nl +:+ getConfirmationPrompt details)
                     (Some (ToolConfirmationKeyboard callId
                              (getConfirmationOptions (cd_type details))))
      | _ => mkOutgoing (str_or (join_lines toolLines) "🔧 Executing tools...") None
      end
  | tm_tool_call status name =>
      let statusIcon := if decide (status = "success") then "✅"
                        else if decide (status = "error") then "❌" else "⏳" in
      mkOutgoing (statusIcon +:+ " " +:+ escapeHtml name) None
  | tm_other => mkOutgoing "⏳ Processing..." None
  end.

(** Which call site issued an [editMessage]. *)
Inductive EditOrigin :=
  | Throttled (at_ : Z)   (* [doEditMessage], with the value it gave [lastUpdateTime] *)
  | Final                 (* the edit after the stream has completed *)
  | Failure.              (* the edit in the [catch] of [handleChatMessage] *)

(** What the executor does that can be observed from outside it, in the
    order in which it does it. *)
Inductive Effect :=
  | EffIsUserAuthorized (authorized : bool)
  | EffPairingShow
  | EffSend (msg : IUnifiedOutgoingMessage) (result : Res string)
  | EffEdit (origin : EditOrigin) (messageId : string)
      (msg : IUnifiedOutgoingMessage) (result : Res unit)
  | EffLookupChannelUser
  | EffGetSession
  | EffGetOrCreateConversation
  | EffCreateSession (conversationId : string)
  | EffExecuteAction (actionName : string)
  | EffHandler (actionName : string)
  | EffChat (text : string).

(** One inbound event of the event loop while the agent streams: a
    callback of [messageService.sendMessage], or the pending timer. *)
Inductive StreamStep :=
  | OnEvent (message : TMessage) (isInsert : bool)
  | TimerFires.

(** The collaborators outside the gateway, as they answer while one
    message is handled. *)
Record Collaborators := mkCollaborators {
  (** [ConversationService.getOrCreateTelegramConversation]: the id of the
      conversation, or the error *)
  conversation : IQueryResult string;
  (** the handlers of SystemActions.ts and ChatActions.ts and the pairing
      handlers other than [pairing.show]: what they return or throw *)
  handler : string → list (string * string) → Res IActionResult;
  (** [messageService.sendMessage]: the events it delivers and how its
      promise settles *)
  stream : list StreamStep;
  stream_outcome : Res unit;
}.

Record IActionContext := mkContext {
  ctx_platform : PluginType;
  ctx_pluginId : string;
  ctx_userId : string;
  ctx_chatId : string;
  ctx_displayName : option string;
  ctx_channelUser : option IChannelUser;
  ctx_sessionId : option string;
  ctx_conversationId : option string;
  ctx_originalMessage : IUnifiedIncomingMessage;
}.

Module ActionExecutor.
Section ActionExecutor.
Context {S : Type} `{!Connector S}.

(** While a message is handled: the process, the session cache, the
    plugin instance the context closures hold, and the effects so far. *)
Record Exec := mkExec {
  world : World;
  sessions : SessionManager.t;
  plugin : BasePlugin.t S;
  log : list Effect;
}.

Definition E (A : Type) : Type := ST Exec A.

Definition in_world {A} (m : M A) : E A := λ st,
  let '(r, w') := m (world st) in
  (r, mkExec w' (sessions st) (plugin st) (log st)).

Definition in_sessions {A} (f : SessionManager.t → M (A * SessionManager.t))
    : E A := λ st,
  match f (sessions st) (world st) with
  | (Ok (a, m'), w') => (Ok a, mkExec w' m' (plugin st) (log st))
  | (Throw msg, w') => (Throw msg, mkExec w' (sessions st) (plugin st) (log st))
  end.

Definition note (e : Effect) : E unit := λ st,
  (Ok tt, mkExec (world st) (sessions st) (plugin st) (log st ++ [e])).

(** [context.sendMessage] and [context.editMessage] *)
Definition ctx_sendMessage (ctx : IActionContext) (msg : IUnifiedOutgoingMessage)
    : E string := λ st,
  let '(r, p') := BasePlugin.send (ctx_chatId ctx) msg (plugin st) in
  (r, mkExec (world st) (sessions st) p' (log st ++ [EffSend msg r])).

Definition ctx_editMessage (ctx : IActionContext) (origin : EditOrigin)
    (messageId : string) (msg : IUnifiedOutgoingMessage) : E unit := λ st,
  let '(r, p') := BasePlugin.edit (ctx_chatId ctx) messageId msg (plugin st) in
  (r, mkExec (world st) (sessions st) p' (log st ++ [EffEdit origin messageId msg r])).

Definition ignore_errors (m : E unit) : E unit := try_catch m (λ _, ret tt).

(** ** [handleChatMessage] *)

Definition UPDATE_THROTTLE_MS : Z := 500.

(** The local variables of [handleChatMessage] that the callbacks share;
    a pending timer is the time at which it is due. *)
Record Chat := mkChat {
  lastUpdateTime : Z;
  pendingUpdateTimer : option Z;
  pendingMessage : option IUnifiedOutgoingMessage;
  sentMessageIds : list string;
  lastMessageContent : option IUnifiedOutgoingMessage;
}.

(** [sentMessageIds[sentMessageIds.length - 1] || thinkingMsgId] *)
Definition last_sent (thinkingMsgId : string) (c : Chat) : string :=
  match last (sentMessageIds c) with
  | Some messageId => str_or messageId thinkingMsgId
  | None => thinkingMsgId
  end.

Definition doEditMessage (ctx : IActionContext) (thinkingMsgId : string)
    (msg : IUnifiedOutgoingMessage) (c : Chat) : E Chat :=
  now <- in_world Date_now ;;
  let c := mkChat now (pendingUpdateTimer c) (pendingMessage c)
                  (sentMessageIds c) (lastMessageContent c) in
  ignore_errors (ctx_editMessage ctx (Throttled now) (last_sent thinkingMsgId c) msg) ;;;
  ret c.

(** The callback passed to [messageService.sendMessage]. *)
Definition onEvent (ctx : IActionContext) (thinkingMsgId : string)
    (message : TMessage) (isInsert : bool) (c : Chat) : E Chat :=
  now <- in_world Date_now ;;
  let outgoingMessage := convertTMessageToOutgoing message false in
  let c := mkChat (lastUpdateTime c) (pendingUpdateTimer c) (pendingMessage c)
                  (sentMessageIds c) (Some outgoingMessage) in
  if isInsert then
    try_catch
      (newMsgId <- ctx_sendMessage ctx outgoingMessage ;;
       ret (mkChat (lastUpdateTime c) (pendingUpdateTimer c) (pendingMessage c)
                   (sentMessageIds c ++ [newMsgId]) (lastMessageContent c)))
      (λ _, ret c)
  else
    let c := mkChat (lastUpdateTime c) (pendingUpdateTimer c) (Some outgoingMessage)
                    (sentMessageIds c) (lastMessageContent c) in
    if decide (UPDATE_THROTTLE_MS ≤ now - lastUpdateTime c) then
      let c := mkChat (lastUpdateTime c) None (pendingMessage c)
                      (sentMessageIds c) (lastMessageContent c) in
      doEditMessage ctx thinkingMsgId outgoingMessage c
    else
      let delay := UPDATE_THROTTLE_MS - (now - lastUpdateTime c) in
      ret (mkChat (lastUpdateTime c) (Some (now + delay)) (pendingMessage c)
                  (sentMessageIds c) (lastMessageContent c)).

(** The callback of [setTimeout]. It runs only when a timer is pending
    and due: the reading [doEditMessage] is about to take is not before
    the time the timer was set for. *)
Definition onTimer (ctx : IActionContext) (thinkingMsgId : string) (c : Chat)
    : E Chat := λ st,
  match pendingUpdateTimer c with
  | Some due =>
      if decide (due ≤ clock (world st) (tick (world st))) then
        (c' <- match pendingMessage c with
               | Some msg =>
                   c' <- doEditMessage ctx thinkingMsgId msg c ;;
                   ret (mkChat (lastUpdateTime c') (pendingUpdateTimer c') None
                               (sentMessageIds c') (lastMessageContent c'))
               | None => ret c
               end ;;
         ret (mkChat (lastUpdateTime c') None (pendingMessage c')
                     (sentMessageIds c') (lastMessageContent c'))) st
      else (Ok c, st)
  | None => (Ok c, st)
  end.

Fixpoint run_stream (ctx : IActionContext) (thinkingMsgId : string)
    (steps : list StreamStep) (c : Chat) : E Chat :=
  match steps with
  | [] => ret c
  | OnEvent message isInsert :: steps' =>
      c' <- onEvent ctx thinkingMsgId message isInsert c ;;
      run_stream ctx thinkingMsgId steps' c'
  | TimerFires :: steps' =>
      c' <- onTimer ctx thinkingMsgId c ;;
      run_stream ctx thinkingMsgId steps' c'
  end.

Definition thinking : IUnifiedOutgoingMessage := mkOutgoing "⏳ Thinking..." None.

Definition with_actions (msg : IUnifiedOutgoingMessage) : IUnifiedOutgoingMessage :=
  mkOutgoing (out_text msg) (Some ResponseActionsKeyboard).

Definition truthy (s : option string) : bool :=
  match s with Some x => negb (String.eqb x "") | None => false end.

(** [if (context.channelUser) this.sessionManager.updateSessionActivity(...)] *)
Definition touch_activity (ctx : IActionContext) : E unit :=
  match ctx_channelUser ctx with
  | Some channelUser =>
      in_sessions (λ m, m' <- SessionManager.updateSessionActivity
                                 (usr_id channelUser) m ;; ret (tt, m'))
  | None => ret tt
  end.

Definition handleChatMessage (ctx : IActionContext) (text : string)
    (collab : Collaborators) : E unit :=
  touch_activity ctx ;;;
  thinkingMsgId <- ctx_sendMessage ctx thinking ;;
  try_catch
    (if truthy (ctx_sessionId ctx) && truthy (ctx_conversationId ctx) then
       c <- run_stream ctx thinkingMsgId (stream collab)
              (mkChat 0 None None [thinkingMsgId] None) ;;
       match stream_outcome collab with
       | Throw message => throw message
       | Ok _ =>
           let c := mkChat (lastUpdateTime c) None (pendingMessage c)
                           (sentMessageIds c) (lastMessageContent c) in
           let finalMessage :=
             match lastMessageContent c with
             | Some content => with_actions content
             | None => mkOutgoing "✅ Done" (Some ResponseActionsKeyboard)
             end in
           ignore_errors
             (ctx_editMessage ctx Final (last_sent thinkingMsgId c) finalMessage)
       end
     else throw "Session not initialized")
    (λ message,
       ctx_editMessage ctx Failure thinkingMsgId (buildChatErrorResponse message)).

(** ** [executeAction] *)

Definition actionRegistry : list string :=
  SystemActionNames ++ ChatActionNames ++ PlatformActionNames.

Definition run_handler (ctx : IActionContext) (actionName : string)
    (params : list (string * string)) (collab : Collaborators) : E IActionResult :=
  note (EffHandler actionName) ;;;
  if decide (actionName = "pairing.show") then
    note EffPairingShow ;;;
    in_world (handlePairingShow (ctx_userId ctx) (ctx_platform ctx)
                (ctx_displayName ctx))
  else
    match handler collab actionName params with
    | Ok result => ret result
    | Throw message => throw message
    end.

Definition send_result (ctx : IActionContext) (result : IActionResult) : E unit :=
  match res_message result with
  | Some message => ctx_sendMessage ctx message ;;; ret tt
  | None => ret tt
  end.

Definition executeAction (ctx : IActionContext) (actionName : string)
    (params : list (string * string)) (collab : Collaborators) : E unit :=
  note (EffExecuteAction actionName) ;;;
  if bool_decide (actionName ∈ actionRegistry) then
    try_catch
      (result <- run_handler ctx actionName params collab ;;
       send_result ctx result)
      (λ message,
         ctx_sendMessage ctx (mkOutgoing ("❌ Action failed: " +:+ message) None) ;;;
         ret tt)
  else
    ctx_sendMessage ctx (mkOutgoing ("Unknown action: " +:+ actionName) None) ;;;
    ret tt.

(** ** [handleIncomingMessage] *)

(** The pairing branch: show the pairing message and return. *)
Definition show_pairing (ctx : IActionContext) : E unit :=
  note EffPairingShow ;;;
  result <- in_world (handlePairingShow (ctx_userId ctx) (ctx_platform ctx)
                        (ctx_displayName ctx)) ;;
  send_result ctx result.

Definition is_start (message : IUnifiedIncomingMessage) : bool :=
  bool_decide (in_contentType message = ct_command)
  && String.eqb (in_contentText message) "/start".

(** Steps 5 to 8, for an authorized user whose row was found. *)
Definition serve (ctx : IActionContext) (message : IUnifiedIncomingMessage)
    (channelUser : IChannelUser) (collab : Collaborators) : E unit :=
  let ctx := mkContext (ctx_platform ctx) (ctx_pluginId ctx) (ctx_userId ctx)
               (ctx_chatId ctx) (ctx_displayName ctx) (Some channelUser)
               (ctx_sessionId ctx) (ctx_conversationId ctx)
               (ctx_originalMessage ctx) in
  note EffGetSession ;;;
  cached <- (λ st, (Ok (SessionManager.getSession (usr_id channelUser) (sessions st)), st)) ;;
  resolved <-
    match cached with
    | Some session =>
        if truthy (ses_conversationId session) then ret (Some session)
        else ret None
    | None => ret None
    end ;;
  session <-
    match resolved with
    | Some session => ret (Some session)
    | None =>
        note EffGetOrCreateConversation ;;;
        match conversation collab with
        | QOk conversationId =>
            note (EffCreateSession conversationId) ;;;
            session <- in_sessions (SessionManager.createSessionWithConversation
                                      channelUser conversationId gemini None) ;;
            ret (Some session)
        | QFail err =>
            ctx_sendMessage ctx
              (mkOutgoing ("❌ Failed to create session: "
                           +:+ str_or err "Unknown error") None) ;;;
            ret None
        end
    end ;;
  match session with
  | None => ret tt
  | Some session =>
      let ctx := mkContext (ctx_platform ctx) (ctx_pluginId ctx) (ctx_userId ctx)
                   (ctx_chatId ctx) (ctx_displayName ctx) (ctx_channelUser ctx)
                   (Some (ses_id session)) (ses_conversationId session)
                   (ctx_originalMessage ctx) in
      match in_action message with
      | Some action => executeAction ctx (act_name action) (act_params action) collab
      | None =>
          if decide (in_contentType message = ct_action) then
            executeAction ctx (in_contentText message) [] collab
          else if bool_decide (in_contentType message = ct_text)
                  && negb (String.eqb (in_contentText message) "") then
            note (EffChat (in_contentText message)) ;;;
            handleChatMessage ctx (in_contentText message) collab
          else
            ctx_sendMessage ctx
              (mkOutgoing "This message type is not supported. Please send a text message."
                          (Some MainMenuKeyboard)) ;;;
            ret tt
      end
  end.

(** The body of [handleIncomingMessage] once the plugin is resolved: the
    [try] block and its [catch]. *)
Definition route (ctx : IActionContext) (message : IUnifiedIncomingMessage)
    (collab : Collaborators) : E unit :=
  try_catch
    (isAuthorized <- in_world (query (PairingService.isUserAuthorized
                                        (uu_id (in_user message)) (in_platform message))) ;;
     note (EffIsUserAuthorized isAuthorized) ;;;
     if is_start message then show_pairing ctx
     else if negb isAuthorized then show_pairing ctx
     else
       note EffLookupChannelUser ;;;
       userResult <- in_world (query (Db.getChannelUserByPlatform
                                        (uu_id (in_user message)) (in_platform message))) ;;
       match userResult with
       | QOk (Some channelUser) => serve ctx message channelUser collab
       | _ =>
           ctx_sendMessage ctx
             (mkOutgoing "❌ User data error. Please re-pair your account." None) ;;;
           ret tt
       end)
    (λ errorMessage,
       ctx_sendMessage ctx
         (mkOutgoing ("❌ Error processing message: " +:+ errorMessage)
                     (Some MainMenuKeyboard)) ;;;
       ret tt).

(** The executor with what it is wired to. *)
Record Gateway := mkGateway {
  gw_world : World;
  gw_sessions : SessionManager.t;
  gw_plugins : PluginManager.t S;
  gw_log : list Effect;
}.

(** [getPluginForMessage]: the first plugin of the platform among those
    the manager holds, with the key under which it holds it. *)
Definition getPluginForMessage (message : IUnifiedIncomingMessage)
    (pm : PluginManager.t S) : option (string * BasePlugin.t S) :=
  js_find (λ e, bool_decide (BasePlugin.type e.2 = in_platform message))
          (PluginManager.plugins pm).

Definition handleIncomingMessage (message : IUnifiedIncomingMessage)
    (collab : Collaborators) (gw : Gateway) : Res unit * Gateway :=
  match getPluginForMessage message (gw_plugins gw) with
  | None => (Ok tt, gw)
  | Some (key, found) =>
      let ctx := mkContext (in_platform message)
                   (PluginType_str (in_platform message) +:+ "_default")
                   (uu_id (in_user message)) (in_chatId message)
                   (Some (uu_displayName (in_user message)))
                   None None None message in
      let '(r, st) := route ctx message collab
                        (mkExec (gw_world gw) (gw_sessions gw) found (gw_log gw)) in
      (r, mkGateway (world st) (sessions st)
            (PluginManager.with_plugins (JsMap.set key (plugin st)) (gw_plugins gw))
            (log st))
  end.

(** ** Vocabulary of the statements about the executor *)

(** The values [doEditMessage] gave [lastUpdateTime], in order. *)
Fixpoint throttled_edits (l : list Effect) : list Z :=
  match l with
  | [] => []
  | EffEdit (Throttled t) _ _ _ :: l' => t :: throttled_edits l'
  | _ :: l' => throttled_edits l'
  end.

(** Any two of the times are a throttle window apart. *)
Definition spaced (times : list Z) : Prop :=
  StronglySorted (λ a b, a + UPDATE_THROTTLE_MS ≤ b) times.

Definition is_final (e : Effect) : bool :=
  match e with EffEdit Final _ _ _ => true | _ => false end.

(** What the callbacks keep true of the effects [new] they have added:
    the throttled edits are a window apart, none is later than
    [lastUpdateTime], and the final edit is not among them. *)
Definition log_ok (base : list Effect) (c : Chat) (st : Exec) : Prop :=
  ∃ new, log st = base ++ new
    ∧ spaced (throttled_edits new)
    ∧ Forall (λ t, t ≤ lastUpdateTime c) (throttled_edits new)
    ∧ Forall (λ e, is_final e = false) new.

(** A pending timer is due a full window after the last edit. *)
Definition timer_ok (c : Chat) : Prop :=
  ∀ due, pendingUpdateTimer c = Some due →
         lastUpdateTime c + UPDATE_THROTTLE_MS ≤ due.

(** The message of the last event of the stream. *)
Fixpoint last_event (steps : list StreamStep) (acc : option TMessage)
    : option TMessage :=
  match steps with
  | [] => acc
  | OnEvent message _ :: steps' => last_event steps' (Some message)
  | TimerFires :: steps' => last_event steps' acc
  end.

(** The effects of the pairing branch: the authorization test, the
    pairing-show handler, and messages sent. *)
Definition pairing_effect (e : Effect) : bool :=
  match e with
  | EffIsUserAuthorized _ | EffPairingShow | EffSend _ _ => true
  | _ => false
  end.

(** How a branch that only sends messages ends: normally when its last
    send went through, and with the error of the last send otherwise. *)
Definition delivered (r : Res unit) (new : list Effect) : Prop :=
  (r = Ok tt ↔ ∃ msg messageId, last new = Some (EffSend msg (Ok messageId)))
  ∧ (∀ err, r = Throw err → ∃ msg, last new = Some (EffSend msg (Throw err))).
End ActionExecutor.
Arguments Exec S : clear implicits.
Arguments Gateway S : clear implicits.
End ActionExecutor.

(** ** Vocabulary of the statements about pairing *)

(** The clock never runs backwards. *)
Definition clock_monotone (w : World) : Prop :=
  ∀ i j : nat, (i ≤ j)%nat → clock w i ≤ clock w j.

(** [w'] comes after [w] in the same process: same oracles, and no clock
    reading has been given back. *)
Definition later (w w' : World) : Prop :=
  clock w' = clock w ∧ (tick w ≤ tick w')%nat.

(** Nothing observable happened between [w] and [w']: the database and the
    bridge are the same. *)
Definition quiet (w w' : World) : Prop :=
  db w' = db w ∧ bridge w' = bridge w ∧ later w w'.

(** Every stored request expires [CODE_EXPIRY_MS] after it was requested
    (the only statement that inserts one is in [generatePairingCode]). *)
Definition wf_codes (d : Database) : Prop :=
  Forall (λ r, req_expiresAt r = req_requestedAt r + PAIRING_CONFIG.CODE_EXPIRY_MS)
         (assistant_pairing_codes d).

(** The status stored for a code, if the code is stored. *)
Definition stored_status (code : string) (w : World) : option PairingStatus :=
  req_status <$> PairingService.getPairingRequest code (db w).

(** ** Concrete processes used to exercise the pairing statements *)
Module PairingExamples.

Definition empty_db : Database := mkDatabase [] [] [] [].

(** A process whose clock starts at 1000 ms and advances by one
    millisecond per reading. *)
Definition process (d : Database) : World :=
  mkWorld d (λ n, 1000 + Z.of_nat n) 0 (λ n, n) 0
          (λ _, "a1b2c3d4") 0 (λ n, "uuid-" +:+ pretty n) 0 [].

Definition w0 : World := process empty_db.

(** Code 123456 of user "42", requested at 500 and valid until 600500. *)
Definition request (status : PairingStatus) : IChannelPairingRequest :=
  mkRequest "123456" "42" telegram (Some "Ann") 500 600500 status.

Definition w_pending : World :=
  process (mkDatabase [] [] [] [request pending]).
Definition w_approved : World :=
  process (mkDatabase [] [] [] [request approved]).

(** The same request, already approved, read after it has run out. *)
Definition w_approved_late : World :=
  process (mkDatabase [] [] [] [
    mkRequest "123456" "42" telegram (Some "Ann") 100 900 approved]).

(** Still pending, but past its [expiresAt]; the sweep has not run. *)
Definition stale : IChannelPairingRequest :=
  mkRequest "123456" "42" telegram (Some "Ann") 100 900 pending.
Definition w_stale : World := process (mkDatabase [] [] [] [stale]).

(** A pending request of user "42" and an unrelated user whose id is the
    one [approvePairing] is about to generate. *)
Definition w_collision : World :=
  process (mkDatabase []
    [mkUser "assistant_user_1001_a1b2c3" "7" slack None 10 None None]
    [] [request pending]).

End PairingExamples.

(** ** A scripted connector, to run the plugin code on *)
Module Demo.

(** A bot whose hooks fail as scripted and which numbers the messages it
    sends; [outbox] is what reached the platform, oldest first. *)
Inductive Delivery :=
  | Sent (chatId : string) (msg : IUnifiedOutgoingMessage)
  | Edited (chatId messageId : string) (msg : IUnifiedOutgoingMessage).

Record Bot := mkBot {
  bot_platform : PluginType;
  initialize_throws : option string;
  start_throws : option string;
  stop_throws : option string;
  outbox : list Delivery;
}.

Definition deliver (d : Delivery) (b : Bot) : Bot :=
  mkBot (bot_platform b) (initialize_throws b) (start_throws b) (stop_throws b)
        (outbox b ++ [d]).

#[global] Instance Bot_connector : Connector Bot := {|
  plugin_type := bot_platform;
  onInitialize := λ _ b, (b, initialize_throws b);
  onStart := λ b, (b, start_throws b);
  onStop := λ b, (b, stop_throws b);
  sendMessage := λ chatId msg b,
    (deliver (Sent chatId msg) b, Ok ("m" +:+ pretty (length (outbox b))));
  editMessage := λ chatId messageId msg b,
    (deliver (Edited chatId messageId msg) b, Ok tt);
  getActiveUserCount := λ _, 0%nat;
  getBotInfo := λ _, Some (mkBotInfo (Some "aion_bot") None);
|}.

Definition good_bot : Bot := mkBot telegram None None None [].
Definition bad_token_bot : Bot :=
  mkBot telegram None (Some "401: Unauthorized") None [].
Definition stuck_bot : Bot :=
  mkBot telegram None None (Some "polling did not stop") [].

Definition registry (b : Bot) : PluginType → option Bot :=
  λ t, if decide (t = telegram) then Some b else None.

Definition telegram_config : IChannelPluginConfig :=
  mkPluginConfig "telegram_default" telegram "Telegram Bot" true
    (Some (mkCredentials (Some "123:abc"))) created None 900 900.

Definition world : World :=
  PairingExamples.process (mkDatabase [telegram_config] [] [] []).

(** A manager with the telegram plugin started. *)
Definition running_manager (b : Bot) : PluginManager.State :=
  PluginManager.run [PluginManager.StartPlugin telegram_config]
    (world, PluginManager.new (registry b)).

(** A plugin that has been initialized and not started yet. *)
Definition ready_plugin : BasePlugin.t Bot :=
  (BasePlugin.initialize telegram_config (BasePlugin.new good_bot)).2.
Definition running_plugin : BasePlugin.t Bot :=
  (BasePlugin.start ready_plugin).2.

End Demo.

(** ** A streamed answer, to run the executor on *)
Module ChatDemo.

(** The clock advances by 300 ms per reading. *)
Definition process : World :=
  mkWorld (mkDatabase [Demo.telegram_config] [] [] [])
          (λ n, 1000 + 300 * Z.of_nat n) 0 (λ n, n) 0
          (λ _, "a1b2c3d4") 0 (λ n, "uuid-" +:+ pretty n) 0 [].

Definition incoming : IUnifiedIncomingMessage :=
  mkIncoming "17" telegram "chat-1" (mkUnifiedUser "42" "Ann") ct_text "hello" None.

Definition context : IActionContext :=
  mkContext telegram "telegram_default" "42" "chat-1" (Some "Ann") None
            (Some "session-1") (Some "conversation-1") incoming.

(** Three updates of one message; the second and the third arrive inside
    the throttle window, and the timer set by the second one fires. *)
Definition agent : Collaborators :=
  mkCollaborators (QOk "conversation-1") (λ _ _, Throw "not available")
    [OnEvent (tm_text "H") false; OnEvent (tm_text "Hel") false; TimerFires;
     OnEvent (tm_text "Hello") false]
    (Ok tt).

Definition start : ActionExecutor.Exec Demo.Bot :=
  ActionExecutor.mkExec process [] Demo.running_plugin [].

(** The gateway with the telegram plugin running and nobody paired. *)
Definition gateway : ActionExecutor.Gateway Demo.Bot :=
  let '(w, pm) := Demo.running_manager Demo.good_bot in
  ActionExecutor.mkGateway w [] pm [].

(** The same text arriving for a platform no running plugin serves. *)
Definition incoming_slack : IUnifiedIncomingMessage :=
  mkIncoming "17" slack "chat-1" (mkUnifiedUser "42" "Ann") ct_text "hello" None.

End ChatDemo.

(** ** A sequence of session operations, to run the manager on *)
Module SessionExamples.

Definition ann : IChannelUser := mkUser "u1" "42" telegram (Some "Ann") 10 None None.
Definition bob : IChannelUser := mkUser "u2" "43" telegram (Some "Bob") 11 None None.

(** Ann already has a session row when the manager is constructed. *)
Definition process : World :=
  PairingExamples.process
    (mkDatabase [] [ann; bob]
       [mkSession "s0" "u1" gemini (Some "c0") None 20 20] []).

(** Two "new session" requests in a row for Ann, an agent switch, a
    session for Bob on the same conversation, and the clean-ups. *)
Definition ops : list SessionManager.Op :=
  [SessionManager.CreateSession ann gemini None;
   SessionManager.CreateSessionWithConversation ann "c9" gemini None;
   SessionManager.CreateSession ann acp None;
   SessionManager.CreateSessionWithConversation bob "c9" gemini None;
   SessionManager.UpdateSessionActivity "u1";
   SessionManager.ClearSessionByConversationId "c9";
   SessionManager.CreateSessionWithConversation bob "c7" codex None;
   SessionManager.CleanupStaleSessions 86400000].

End SessionExamples.

(* ===================================================================== *)
(** * Further vocabulary: pairing codes                                   *)
(* ===================================================================== *)

(** A decimal digit. *)
Definition is_digit (c : ascii) : Prop :=
  c ∈ String.list_ascii_of_string "0123456789".

(** The rows [refreshPairingCode] marks as expired when its query runs at
    [now]: the requests of the identity that are pending and not run out,
    by their codes. *)
Definition refreshed_codes (platformUserId : string) (platformType : PluginType)
    (now : Z) (d : Database) : list string :=
  req_code <$> filter (λ r, PairingService.same_identity platformUserId platformType r = true
                            ∧ now < req_expiresAt r)
                      (assistant_pairing_codes d).

Definition expire_codes (codes : list string) (r : IChannelPairingRequest)
    : IChannelPairingRequest :=
  if bool_decide (req_code r ∈ codes) then Db.with_status expired r else r.

(** What a decision on the code [code] may change between [w] and [w']:
    at most the status of the requests stored under [code] (all of them
    get the same [Some] status, or none is touched); no request is added
    or removed, sessions and plugin configurations are as before, and
    nothing at all happens when the code is not stored. *)
Definition decides_only (code : string) (w w' : World) : Prop :=
  (∃ status : option PairingStatus,
      assistant_pairing_codes (db w')
      = (λ r, match status with
              | Some s => if decide (req_code r = code) then Db.with_status s r else r
              | None => r
              end) <$> assistant_pairing_codes (db w))
  ∧ assistant_sessions (db w') = assistant_sessions (db w)
  ∧ assistant_plugins (db w') = assistant_plugins (db w)
  ∧ (PairingService.getPairingRequest code (db w) = None → w' = w).

(** The process with its random source moved to position [i]. *)
Definition at_rnd (w : World) (i : nat) : World :=
  mkWorld (db w) (clock w) (tick w) (random w) i (randomBytes w)
          (rb w) (uuids w) (uu w) (bridge w).

(** The code [generateRandomCode] draws when the random source stands at
    position [i]. *)
Definition drawn_code (w : World) (i : nat) : string :=
  match PairingService.generateRandomCode (at_rnd w i) with
  | (Ok code, _) => code
  | (Throw _, _) => ""
  end.

(** Processes used to exercise the statements about code generation. *)
Module PairingEdgeExamples.

(** A pending request that runs out exactly at the first clock reading
    (1000) of the process. *)
Definition on_the_edge : IChannelPairingRequest :=
  mkRequest "123456" "42" telegram (Some "Ann") 400 1000 pending.
Definition w_edge : World :=
  PairingExamples.process (mkDatabase [] [] [] [on_the_edge]).

(** A random source that always draws 7, so that every code drawn is
    777777, and a clock that stands still. *)
Definition sevens (d : Database) : World :=
  mkWorld d (λ _, 1000) 0 (λ _, 7%nat) 0
          (λ _, "a1b2c3d4") 0 (λ n, "uuid-" +:+ pretty n) 0 [].

(** The code 777777 is pending for another user and not run out. *)
Definition w_taken : World :=
  sevens (mkDatabase [] [] []
            [mkRequest "777777" "43" telegram None 900 600900 pending]).

(** The code 777777 was used before and its request was rejected; the
    sweep has not removed it yet. *)
Definition w_used : World :=
  sevens (mkDatabase [] [] []
            [mkRequest "777777" "43" telegram None 900 600900 rejected]).

End PairingEdgeExamples.

(* ===================================================================== *)
(** * Further vocabulary: the effects of a chat                           *)
(* ===================================================================== *)

(** The message an edit is aimed at after the effects [l], when it was
    [current] before them: the last message that was sent successfully,
    or the thinking message [thinkingMsgId] when that id is falsy. *)
Fixpoint current_target (thinkingMsgId current : string) (l : list Effect) : string :=
  match l with
  | [] => current
  | EffSend _ (Ok messageId) :: l' =>
      current_target thinkingMsgId (str_or messageId thinkingMsgId) l'
  | _ :: l' => current_target thinkingMsgId current l'
  end.

(** Every edit of the throttled editor and the final edit in [l] is aimed
    at the current target, and the edit that reports a failure at the
    thinking message. *)
Fixpoint targets_ok (thinkingMsgId current : string) (l : list Effect) : Prop :=
  match l with
  | [] => True
  | EffSend _ (Ok messageId) :: l' =>
      targets_ok thinkingMsgId (str_or messageId thinkingMsgId) l'
  | EffEdit Failure target _ _ :: l' =>
      target = thinkingMsgId ∧ targets_ok thinkingMsgId current l'
  | EffEdit _ target _ _ :: l' =>
      target = current ∧ targets_ok thinkingMsgId current l'
  | _ :: l' => targets_ok thinkingMsgId current l'
  end.

(** A message sent or an edit of the throttled editor. *)
Definition is_stream_effect (e : Effect) : bool :=
  match e with
  | EffSend _ _ | EffEdit (Throttled _) _ _ _ => true
  | _ => false
  end.

Section Stream_vocabulary.
Context {S : Type} `{!Connector S}.

(** What the callbacks of [handleChatMessage] keep true of the effects
    [new] they have added and of their variables: they only send messages
    and issue throttled edits, every edit is aimed at the message sent
    last, [sentMessageIds] ends with that message, and neither the session
    cache nor the database nor the bridge is touched. *)
Definition stream_ok (tid : string) (base : ActionExecutor.Exec S)
    (c : ActionExecutor.Chat) (st : ActionExecutor.Exec S) : Prop :=
  ∃ new, ActionExecutor.log st = ActionExecutor.log base ++ new
    ∧ Forall (λ e, is_stream_effect e = true) new
    ∧ targets_ok tid tid new
    ∧ ActionExecutor.last_sent tid c = current_target tid tid new
    ∧ ActionExecutor.sessions st = ActionExecutor.sessions base
    ∧ db (ActionExecutor.world st) = db (ActionExecutor.world base)
    ∧ bridge (ActionExecutor.world st) = bridge (ActionExecutor.world base).
End Stream_vocabulary.

(** The effects of the last step of the router, once the session is
    resolved: dispatching an action, a chat, or the refusal of the
    content. *)
Definition is_dispatch_effect (e : Effect) : bool :=
  match e with
  | EffSend _ _ | EffEdit _ _ _ _ | EffExecuteAction _ | EffHandler _
  | EffChat _ | EffPairingShow => true
  | _ => false
  end.

Section Dispatch_vocabulary.
Context {S : Type} `{!Connector S}.

(** A computation of the executor that adds nothing to the record of
    effects but dispatch effects. *)
Definition only_dispatches {A} (m : ActionExecutor.E (S:=S) A) : Prop :=
  ∀ st, ∃ new, ActionExecutor.log (m st).2 = ActionExecutor.log st ++ new
    ∧ Forall (λ e, is_dispatch_effect e = true) new.

(** [!session || !session.conversationId] for the cached session of a
    user. *)
Definition usable_session (userId : string) (st : ActionExecutor.Exec S) : bool :=
  match SessionManager.getSession userId (ActionExecutor.sessions st) with
  | Some session => ActionExecutor.truthy (ses_conversationId session)
  | None => false
  end.
End Dispatch_vocabulary.

(* ===================================================================== *)
(** * plugins/telegram/TelegramAdapter.ts and TelegramKeyboards.ts        *)
(* ===================================================================== *)

Module TelegramAdapter.

(** ** Text formatting *)

(** [text.replace(/c/g, by)] for a pattern of one character. The
    characters replaced below are ASCII, so replacing them byte by byte
    in the UTF-8 form of the text is replacing them in the text. *)
Fixpoint replace_all (c : ascii) (by_ : string) (text : string) : string :=
  match text with
  | EmptyString => EmptyString
  | String x rest =>
      (if decide (x = c) then by_ else String x EmptyString)
      +:+ replace_all c by_ rest
  end.

(** [escapeHtml] as it is written: three replacements, one after the
    other. *)
Definition escapeHtml (text : string) : string :=
  replace_all ">" "&gt;" (replace_all "<" "&lt;" (replace_all "&" "&amp;" text)).

(** ** Callback data *)

(** [s.split(sep)] for a separator of one character: never empty. *)
Fixpoint split (sep : ascii) (s : string) : list string :=
  match s with
  | EmptyString => [EmptyString]
  | String c rest =>
      if decide (c = sep) then EmptyString :: split sep rest
      else match split sep rest with
           | part :: parts => String c part :: parts
           | [] => [String c EmptyString]
           end
  end.

(** [parts.join(sep)] *)
Fixpoint join (sep : string) (parts : list string) : string :=
  match parts with
  | [] => EmptyString
  | part :: rest =>
      match rest with
      | [] => part
      | _ :: _ => part +:+ sep +:+ join sep rest
      end
  end.

Record CallbackData := mkCallbackData {
  cb_action : string;
  cb_params : list string;
}.

(** [{ action: parts[0], params: parts.slice(1) }] *)
Definition parseCallbackData (data : string) : CallbackData :=
  let parts := split ":" data in
  mkCallbackData (hd EmptyString parts) (drop 1 parts).

(** [[action, ...params].join(':')] *)
Definition buildCallbackData (action : string) (params : list string) : string :=
  join ":" (action :: params).

(** [callbackData.startsWith(`${actionPrefix}:`)] *)
Definition matchAction (callbackData actionPrefix : string) : bool :=
  String.prefix (actionPrefix +:+ ":") callbackData.

(** [parts.length > 1 ? parts[1] : callbackData] *)
Definition extractAction (callbackData : string) : string :=
  match split ":" callbackData with
  | _ :: action :: _ => action
  | _ => callbackData
  end.

Definition extractCategory (callbackData : string) : string :=
  hd EmptyString (split ":" callbackData).

(** The callback data [createToolConfirmationKeyboard] gives the button
    of an option: [`confirm:${callId}:${value}`]. *)
Definition confirmCallbackData (callId value : string) : string :=
  "confirm:" +:+ callId +:+ ":" +:+ value.

(** The confirm branch of [handleCallbackQuery]: the [callId] and the
    [value] it calls the confirm handler with, if it calls it. *)
Definition confirmCall (data : string) : option (string * string) :=
  if decide (extractCategory data = "confirm") then
    let parts := split ":" data in
    if decide (3 ≤ length parts)%nat then
      Some (nth 1 parts EmptyString, join ":" (drop 2 parts))
    else None
  else None.

(** ** Message length *)

(** A JavaScript string as the sequence of its UTF-16 code units: this is
    what [length], [slice] and [lastIndexOf] count in. *)
Definition JsString : Type := list N.

(** The code units [trim] removes: WhiteSpace and LineTerminator of
    ECMAScript. *)
Definition is_white (u : N) : bool :=
  ((9 <=? u) && (u <=? 13) || (u =? 32) || (u =? 160) || (u =? 5760)
   || (8192 <=? u) && (u <=? 8202) || (u =? 8232) || (u =? 8233)
   || (u =? 8239) || (u =? 8287) || (u =? 12288) || (u =? 65279))%N.

Definition line_feed : N := 10.
Definition space : N := 32.

Fixpoint trimStart (s : JsString) : JsString :=
  match s with
  | [] => []
  | u :: s' => if is_white u then trimStart s' else s
  end.

Definition trimEnd (s : JsString) : JsString := reverse (trimStart (reverse s)).

Definition trim (s : JsString) : JsString := trimEnd (trimStart s).

(** What is left of a string when its white space is taken out. *)
Definition visible (s : JsString) : JsString :=
  filter (λ u, is_white u = false) (s : list N).

(** The search of [lastIndexOf] downwards from index [k]. *)
Fixpoint lastIndexOf_from (c : N) (s : JsString) (k : nat) : Z :=
  if bool_decide (s !! k = Some c) then Z.of_nat k
  else match k with
       | O => -1
       | Datatypes.S k' => lastIndexOf_from c s k'
       end.

(** [s.lastIndexOf(c, position)] for a search string of one code unit and
    a position that is not negative: the search starts at
    [min(position, s.length - 1)]. *)
Definition lastIndexOf (c : N) (s : JsString) (position : nat) : Z :=
  lastIndexOf_from c s (position `min` (length s - 1)).

Definition TELEGRAM_MESSAGE_LIMIT : nat := 4096.

(** One round of the loop of [splitMessage] for a [remaining] longer than
    [maxLength]: where it cuts. [Math.floor(maxLength * 0.8)] is
    [4 * maxLength / 5] for the lengths a string can have. *)
Definition splitIndex (remaining : JsString) (maxLength : nat) : nat :=
  let newlineSearchStart := (4 * Z.of_nat maxLength) `div` 5 in
  let lastNewline := lastIndexOf line_feed remaining maxLength in
  if decide (newlineSearchStart < lastNewline) then Z.to_nat (lastNewline + 1)
  else
    let lastSpace := lastIndexOf space remaining maxLength in
    if decide (newlineSearchStart < lastSpace) then Z.to_nat (lastSpace + 1)
    else maxLength.

(** The [while] loop; [None] when [fuel] rounds do not end it. *)
Fixpoint splitMessage_loop (fuel : nat) (maxLength : nat) (remaining : JsString)
    (chunks : list JsString) : option (list JsString) :=
  match fuel with
  | O => None
  | Datatypes.S fuel' =>
      if decide (0 < length remaining)%nat then
        if decide (length remaining ≤ maxLength)%nat then Some (chunks ++ [remaining])
        else
          let i := splitIndex remaining maxLength in
          splitMessage_loop fuel' maxLength (trim (drop i remaining))
            (chunks ++ [trim (take i remaining)])
      else Some chunks
  end.

(** [splitMessage(text, maxLength)] for a limit that is a whole number,
    as [TELEGRAM_MESSAGE_LIMIT] is. *)
Definition splitMessage (fuel : nat) (text : JsString) (maxLength : nat)
    : option (list JsString) :=
  if decide (length text ≤ maxLength)%nat then Some [text]
  else splitMessage_loop fuel maxLength text [].

(** ** Photos *)

Record PhotoSize := mkPhotoSize {
  file_id : string;
  width : N;
  height : N;
}.

(** [(p.width || 0) * (p.height || 0)] *)
Definition photo_area (p : PhotoSize) : N := (width p * height p)%N.

(** [photos.reduce(..., photos[0])]; [undefined] for no photo at all. *)
Definition getLargestPhoto (photos : list PhotoSize) : option PhotoSize :=
  match photos with
  | [] => None
  | first :: _ =>
      Some (foldl (λ largest current,
                     if decide (photo_area largest < photo_area current)%N
                     then current else largest)
                  first photos)
  end.

End TelegramAdapter.

(* ===================================================================== *)
(** * core/ChannelManager.ts: enabling and disabling a plugin             *)
(* ===================================================================== *)

(** What [getChannelPlugin] reads back of the credentials
    [upsertChannelPlugin] stores: [encryptCredentials] keeps a token that
    is not empty (encoded, and decoded again by [decryptCredentials]) and
    stores no token otherwise. *)
Definition stored_credentials (credentials : option IPluginCredentials)
    : option IPluginCredentials :=
  match credentials with
  | None => None
  | Some (mkCredentials tok) =>
      Some (mkCredentials (if ActionExecutor.truthy tok then tok else None))
  end.

(** [INSERT INTO assistant_plugins ... ON CONFLICT(id) DO UPDATE SET name,
    enabled, config, status, last_connected, updated_at]: the conflicting
    row keeps its [type] and [created_at]. [now] stands in for a zero
    timestamp ([plugin.createdAt || now]) and is the new [updated_at]. *)
Definition upsertChannelPlugin (plugin : IChannelPluginConfig) (now : Z)
    (d : Database) : Database :=
  if bool_decide (cfg_id plugin ∈ cfg_id <$> assistant_plugins d) then
    set_plugins (fmap (λ c,
      if decide (cfg_id c = cfg_id plugin)
      then mkPluginConfig (cfg_id c) (cfg_type c) (cfg_name plugin)
             (cfg_enabled plugin) (stored_credentials (cfg_credentials plugin))
             (cfg_status plugin) (cfg_lastConnected plugin) (cfg_createdAt c) now
      else c)) d
  else
    set_plugins (λ l, l ++ [
      mkPluginConfig (cfg_id plugin) (cfg_type plugin) (cfg_name plugin)
        (cfg_enabled plugin) (stored_credentials (cfg_credentials plugin))
        (cfg_status plugin) (cfg_lastConnected plugin)
        (if decide (cfg_createdAt plugin = 0) then now else cfg_createdAt plugin)
        now]) d.

(** What the status updates of the plugin manager leave alone in a stored
    configuration. *)
Definition same_registration (c c' : IChannelPluginConfig) : Prop :=
  cfg_id c' = cfg_id c ∧ cfg_type c' = cfg_type c ∧ cfg_name c' = cfg_name c
  ∧ cfg_enabled c' = cfg_enabled c ∧ cfg_credentials c' = cfg_credentials c
  ∧ cfg_createdAt c' = cfg_createdAt c.

Module ChannelManager.

(** [{ success, error? }] *)
Record Outcome := mkOutcome {
  success : bool;
  error : option string;
}.

Definition getPluginTypeFromId (pluginId : string) : PluginType :=
  if String.prefix "telegram" pluginId then telegram
  else if String.prefix "slack" pluginId then slack
  else if String.prefix "discord" pluginId then discord
  else telegram.

(** [toUpperCase] of one ASCII character. *)
Definition toUpperCase (c : ascii) : ascii :=
  let n := nat_of_ascii c in
  if ((97 <=? n) && (n <=? 122))%nat then ascii_of_nat (n - 32) else c.

(** [type.charAt(0).toUpperCase() + type.slice(1) + ' Bot'] *)
Definition getPluginNameFromId (pluginId : string) : string :=
  match PluginType_str (getPluginTypeFromId pluginId) with
  | String c rest => String (toUpperCase c) rest +:+ " Bot"
  | EmptyString => " Bot"
  end.

Section ChannelManager.
Context {S : Type} `{!Connector S}.

(** The fields the plugin operations read. *)
Record t := mk {
  initialized : bool;
  pluginManager : option (PluginManager.t S);
}.

(** [enablePlugin(pluginId, config)] with [token = config.token]. The
    upsert violates no constraint, so the branch for a failed save is not
    taken. *)
Definition enablePlugin (pluginId : string) (tok : option string) (cm : t)
    : M (Outcome * t) :=
  match initialized cm, pluginManager cm with
  | true, Some pm =>
      existingResult <- query (Db.getChannelPlugin pluginId) ;;
      let existing := match existingResult with
                      | QOk data => data
                      | QFail _ => None
                      end in
      createdAt <- match existing with
                   | Some e =>
                       if decide (cfg_createdAt e = 0) then Date_now
                       else ret (cfg_createdAt e)
                   | None => Date_now
                   end ;;
      updatedAt <- Date_now ;;
      let pluginConfig :=
        mkPluginConfig pluginId
          (match existing with
           | Some e => cfg_type e
           | None => getPluginTypeFromId pluginId
           end)
          (match existing with
           | Some e => str_or (cfg_name e) (getPluginNameFromId pluginId)
           | None => getPluginNameFromId pluginId
           end)
          true
          (if ActionExecutor.truthy tok then Some (mkCredentials tok)
           else existing ≫= cfg_credentials)
          created None createdAt updatedAt in
      now <- Date_now ;;
      exec (upsertChannelPlugin pluginConfig now) ;;;
      started <- PluginManager.startPlugin pluginConfig pm ;;
      match started with
      | (Ok _, pm') => ret (mkOutcome true None, mk true (Some pm'))
      | (Throw message, pm') =>
          ret (mkOutcome false (Some message), mk true (Some pm'))
      end
  | _, _ =>
      ret (mkOutcome false (Some "Assistant manager not initialized"), cm)
  end.

(** [disablePlugin(pluginId)] *)
Definition disablePlugin (pluginId : string) (cm : t) : M (Outcome * t) :=
  halted <- match pluginManager cm with
            | Some pm =>
                r <- PluginManager.stopPlugin pluginId pm ;;
                ret (r.1, Some r.2)
            | None => ret (Ok tt, None)
            end ;;
  let cm' := mk (initialized cm) halted.2 in
  match halted.1 with
  | Throw message => ret (mkOutcome false (Some message), cm')
  | Ok _ =>
      existingResult <- query (Db.getChannelPlugin pluginId) ;;
      match existingResult with
      | QOk (Some data) =>
          updatedAt <- Date_now ;;
          let updated :=
            mkPluginConfig (cfg_id data) (cfg_type data) (cfg_name data) false
              (cfg_credentials data) stopped (cfg_lastConnected data)
              (cfg_createdAt data) updatedAt in
          now <- Date_now ;;
          exec (upsertChannelPlugin updated now)
      | _ => ret tt
      end ;;;
      ret (mkOutcome true None, cm')
  end.
End ChannelManager.
Arguments t S : clear implicits.
End ChannelManager.

(* ===================================================================== *)
(** * actions/SystemActions.ts: a new session on request                  *)
(* ===================================================================== *)

Module SystemActions.

(** The services [handleSessionNew] calls outside the gateway, as they
    answer during one call. *)
Record Services := mkServices {
  (** [messageService.clearContext(sessionId)]: the message of the error
      it rejects with, if it does *)
  clearContext : string → option string;
  (** [ConversationService.createGeminiConversation]: the id of the new
      conversation, or the error *)
  createGeminiConversation : IQueryResult string;
}.

(** [s.slice(-n)] *)
Definition slice_last (n : nat) (s : string) : string :=
  String.substring (String.length s - n) n s.

Definition newSessionMessage (session : IChannelSession) : IUnifiedOutgoingMessage :=
  mkOutgoing ("🆕 <b>New Session Created</b>" +:+ nl +:+ nl
              +:+ "Session ID: <code>" +:+ slice_last 8 (ses_id session)
              +:+ "</code>" +:+ nl +:+ nl
              +:+ "You can start a new conversation now!")
             (Some MainMenuKeyboard).

(** [handleSessionNew]; [sessionManager] is what
    [manager.getSessionManager()] returns. [WorkerManage.kill] runs
    inside its own [try] and touches nothing of the gateway, and
    [getTelegramDefaultModel] catches its own errors. *)
Definition handleSessionNew (sessionManager : option SessionManager.t)
    (context : IActionContext) (services : Services)
    : M (IActionResult * option SessionManager.t) :=
  match sessionManager with
  | None => ret (createErrorResponse "Session manager not available", None)
  | Some m =>
      match ctx_channelUser context with
      | None => ret (createErrorResponse "User not authorized", Some m)
      | Some channelUser =>
          match SessionManager.getSession (usr_id channelUser) m with
          | Some existingSession =>
              match clearContext services (ses_id existingSession) with
              | Some message => throw message
              | None => ret tt
              end
          | None => ret tt
          end ;;;
          cleared <- SessionManager.clearSession (usr_id channelUser) m ;;
          let m := cleared.2 in
          match createGeminiConversation services with
          | QFail err =>
              ret (createErrorResponse ("Failed to create session: "
                                        +:+ str_or err "Unknown error"),
                   Some m)
          | QOk conversationId =>
              created <- SessionManager.createSessionWithConversation
                           channelUser conversationId gemini None m ;;
              ret (createSuccessResponse (Some (newSessionMessage created.1)),
                   Some created.2)
          end
      end
  end.

End SystemActions.

(* ===================================================================== *)
(** * Properties                                                          *)
(* ===================================================================== *)

(** ** Lists: [find] and [ORDER BY ... DESC] *)

Section js_find_facts.
Context {A : Type}.
Implicit Types (p : A → bool) (l : list A).

Lemma js_find_Some p l x : js_find p l = Some x → x ∈ l ∧ p x = true.
Proof.
  induction l as [|y l IH]; simpl; [done|].
  destruct (p y) eqn:Hy.
  - intros [= ->]. split; [left | done].
  - intros [??]%IH. split; [by right | done].
Qed.

Lemma js_find_None p l : js_find p l = None ↔ ∀ x, x ∈ l → p x = false.
Proof.
  induction l as [|y l IH]; simpl.
  - split; [intros _ x Hx; by apply elem_of_nil in Hx | done].
  - destruct (p y) eqn:Hy.
    + split; [done|]. intros H. specialize (H y (list_elem_of_here _ _)). congruence.
    + rewrite IH. split.
      * intros H x [->|Hx]%elem_of_cons; auto.
      * intros H x Hx. apply H. by right.
Qed.

Lemma js_find_ext p q l :
  (∀ x, x ∈ l → p x = q x) → js_find p l = js_find q l.
Proof.
  induction l as [|y l IH]; simpl; [done|]. intros H.
  rewrite (H y) by left. rewrite IH; [done|]. intros x Hx. apply H. by right.
Qed.

Lemma js_find_filter (P : A → Prop) `{!∀ x, Decision (P x)} p l :
  js_find p (filter P l) = js_find (λ x, bool_decide (P x) && p x) l.
Proof.
  induction l as [|y l IH]; simpl; [done|].
  rewrite filter_cons. destruct (decide (P y)) as [Hy|Hy].
  - rewrite bool_decide_eq_true_2 by done. simpl. by rewrite IH.
  - rewrite bool_decide_eq_false_2 by done. simpl. by rewrite IH.
Qed.

(** The only element that satisfies [p] is the one [find] returns. *)
Lemma js_find_unique p l r :
  r ∈ l → p r = true → (∀ x, x ∈ l → p x = true → x = r) →
  js_find p l = Some r.
Proof.
  intros Hr Hp Huniq. destruct (js_find p l) as [x|] eqn:E.
  - apply js_find_Some in E as [??]. f_equal. by apply Huniq.
  - rewrite js_find_None in E. rewrite (E r Hr) in Hp. done.
Qed.

(** Strengthening the test keeps the element found, when it passes. *)
Lemma js_find_strengthen p q l x :
  js_find p l = Some x → q x = true → (∀ y, q y = true → p y = true) →
  js_find q l = Some x.
Proof.
  intros Hf Hq Himp. induction l as [|y l IH]; simpl in *; [done|].
  destruct (p y) eqn:Hy.
  - injection Hf as ->. by rewrite Hq.
  - destruct (q y) eqn:Hqy; [|by apply IH].
    apply Himp in Hqy. congruence.
Qed.
End js_find_facts.

Section order_by_desc_facts.
Context {A : Type} (key : A → Z).
Implicit Types (l : list A).
Local Abbreviation desc := (Db.desc key).

Lemma elem_of_insert_desc r l x :
  x ∈ Db.insert_desc key r l ↔ x = r ∨ x ∈ l.
Proof.
  induction l as [|y l IH]; simpl.
  - rewrite list_elem_of_singleton, elem_of_nil. tauto.
  - case_bool_decide.
    + by rewrite !elem_of_cons.
    + rewrite !elem_of_cons, IH. tauto.
Qed.

Lemma elem_of_order_by_desc l x : x ∈ Db.order_by_desc key l ↔ x ∈ l.
Proof.
  unfold Db.order_by_desc. induction l as [|y l IH]; simpl; [done|].
  by rewrite elem_of_insert_desc, elem_of_cons, IH.
Qed.

Lemma desc_insert_desc r l : desc l → desc (Db.insert_desc key r l).
Proof.
  unfold Db.desc. induction 1 as [|y l Hl IH Hy]; simpl.
  - repeat constructor.
  - case_bool_decide as Hle.
    + constructor; [by constructor|].
      constructor; [done|].
      eapply Forall_impl; [exact Hy|]. simpl. lia.
    + constructor; [done|].
      apply Forall_forall. intros x [->|Hx]%elem_of_insert_desc; [lia|].
      by eapply Forall_forall in Hy.
Qed.

Lemma desc_order_by_desc l : desc (Db.order_by_desc key l).
Proof.
  unfold Db.order_by_desc. induction l; simpl.
  - constructor.
  - by apply desc_insert_desc.
Qed.

(** On a sorted list, filtering commutes with the stable insertion. *)
Lemma filter_insert_desc (P : A → Prop) `{!∀ x, Decision (P x)} r l :
  desc l →
  filter P (Db.insert_desc key r l) =
    if decide (P r) then Db.insert_desc key r (filter P l) else filter P l.
Proof.
  unfold Db.desc. induction 1 as [|y l Hl IH Hy]; simpl.
  - rewrite filter_cons, filter_nil. by destruct (decide (P r)).
  - case_bool_decide as Hle.
    + rewrite (filter_cons P r). destruct (decide (P r)) as [Hr|Hr]; [|done].
      rewrite (filter_cons P y). destruct (decide (P y)) as [HPy|HPy].
      * simpl. by rewrite bool_decide_eq_true_2.
      * (* every later row has a key below [key r] as well *)
        assert (Forall (λ x, key x ≤ key r) l) as Hall.
        { eapply Forall_impl; [exact Hy|]. simpl. lia. }
        clear -Hall. induction l as [|z l IHl]; simpl; [done|].
        apply Forall_cons in Hall as [Hz Hall].
        rewrite (filter_cons P z). destruct (decide (P z)).
        -- simpl. by rewrite bool_decide_eq_true_2.
        -- by apply IHl.
    + rewrite (filter_cons P y), IH, (filter_cons P y).
      destruct (decide (P y)), (decide (P r)); simpl; try done.
      by rewrite bool_decide_eq_false_2.
Qed.

Lemma filter_order_by_desc (P : A → Prop) `{!∀ x, Decision (P x)} l :
  Db.order_by_desc key (filter P l) = filter P (Db.order_by_desc key l).
Proof.
  induction l as [|y l IH]; [done|].
  rewrite filter_cons. unfold Db.order_by_desc in *. simpl.
  rewrite filter_insert_desc by apply desc_order_by_desc.
  destruct (decide (P y)); simpl; by rewrite IH.
Qed.

(** In a sorted list the first match has the largest key of all matches. *)
Lemma js_find_desc_max p l m x :
  desc l → js_find p l = Some m → x ∈ l → p x = true → key x ≤ key m.
Proof.
  unfold Db.desc. induction 1 as [|y l Hl IH Hy]; simpl; [done|].
  destruct (p y) eqn:Hpy.
  - intros [= ->] [->|Hx]%elem_of_cons _; [lia|].
    by eapply Forall_forall in Hy.
  - intros Hf [->|Hx]%elem_of_cons Hp; [congruence|by apply IH].
Qed.
End order_by_desc_facts.

(** ** The process monad *)

Lemma later_refl w : later w w.
Proof. by split. Qed.

Lemma later_trans w1 w2 w3 : later w1 w2 → later w2 w3 → later w1 w3.
Proof. intros [??] [??]. split; [congruence | lia]. Qed.

Lemma quiet_refl w : quiet w w.
Proof. repeat split; done. Qed.

Lemma quiet_trans w1 w2 w3 : quiet w1 w2 → quiet w2 w3 → quiet w1 w3.
Proof.
  intros (?&?&?) (?&?&?). repeat split; try congruence;
    eapply later_trans; eauto.
Qed.

Lemma Date_now_run w :
  ∃ w', Date_now w = (Ok (clock w (tick w)), w') ∧ quiet w w'
        ∧ tick w' = S (tick w).
Proof. eexists. split; [done|]. repeat split; simpl; lia. Qed.

Lemma clock_monotone_later w w' : later w w' → clock_monotone w → clock_monotone w'.
Proof. intros [Hc _] Hm i j Hij. rewrite Hc. by apply Hm. Qed.

(** ** PairingService: code generation *)

Lemma generateRandomCode_loop_quiet n s w :
  ∃ c w', PairingService.generateRandomCode_loop n s w = (Ok c, w')
          ∧ quiet w w' ∧ tick w' = tick w.
Proof.
  revert s w. induction n as [|n IH]; intros s w; simpl.
  - eexists _, _. split; [done|]. split; [apply quiet_refl | done].
  - unfold bind, Math_random_index. simpl.
    edestruct IH as (c & w' & -> & Hq & Ht). eexists _, _. split; [done|].
    split; [|exact Ht]. destruct Hq as (?&?&?&?). by repeat split.
Qed.

Lemma generateUniqueCode_loop_quiet k w r w' :
  PairingService.generateUniqueCode_loop k w = (r, w') → quiet w w'.
Proof.
  revert w. induction k as [|k IH]; intros w; simpl.
  - intros [= <- <-]. apply quiet_refl.
  - unfold bind at 1. unfold PairingService.generateRandomCode.
    destruct (generateRandomCode_loop_quiet PAIRING_CONFIG.CODE_LENGTH "" w)
      as (c & w1 & -> & Hq1 & _).
    unfold bind at 1, query at 1. simpl.
    destruct (js_find _ _) as [data|]; [|by intros [= <- <-]].
    destruct (decide (req_status data ≠ pending)); [by intros [= <- <-]|].
    unfold bind at 1. destruct (Date_now_run w1) as (w2 & -> & Hq2 & _).
    destruct (decide _).
    + intros [= <- <-]. by eapply quiet_trans.
    + intros H%IH. eapply quiet_trans; [done|]. by eapply quiet_trans.
Qed.

(** What a successful [createNewRequest] did. *)
Lemma createNewRequest_Ok uid pt dn w code e w1 :
  PairingService.createNewRequest uid pt dn w = (Ok (code, e), w1) →
  ∃ t, let r := mkRequest code uid pt dn t (t + PAIRING_CONFIG.CODE_EXPIRY_MS) pending in
    (e = t + PAIRING_CONFIG.CODE_EXPIRY_MS
     ∧ db w1 = set_pairing_codes (λ l, l ++ [r]) (db w)
     ∧ bridge w1 = bridge w ++ [pairingRequested r]
     ∧ (code ∉ req_code <$> assistant_pairing_codes (db w))
     ∧ later w w1
     ∧ (∃ i, (tick w ≤ i < tick w1)%nat ∧ t = clock w i)).
Proof.
  unfold PairingService.createNewRequest, PairingService.generateUniqueCode.
  unfold bind at 1.
  destruct (PairingService.generateUniqueCode_loop _ w) as [[c|msg] wa] eqn:Hu;
    [|done].
  apply generateUniqueCode_loop_quiet in Hu as (Hdb & Hbr & Hcl & Htk).
  unfold bind at 1. simpl. unfold bind at 1, exec_result, Db.createPairingRequest.
  simpl. rewrite Hdb. case_bool_decide as Hin; simpl; [done|].
  unfold bind, emit, ret. simpl. intros [= <- <- <-].
  exists (clock wa (tick wa)). simpl. rewrite Hbr, Hcl.
  repeat split; simpl; try done; try lia.
  exists (tick wa). split; [lia | done].
Qed.

(** The rows the database hands to [generatePairingCode] at time [t]. *)
Lemma getPendingPairingRequests_eq t d :
  Db.getPendingPairingRequests t d =
    QOk (filter (λ r, req_status r = pending ∧ t < req_expiresAt r)
                (Db.order_by_desc req_requestedAt (assistant_pairing_codes d))).
Proof.
  unfold Db.getPendingPairingRequests. by rewrite filter_order_by_desc.
Qed.

(** The two ways in which [generatePairingCode] returns normally. *)
Lemma generatePairingCode_Ok uid pt dn w code e w1 :
  wf_codes (db w) → clock_monotone w →
  PairingService.generatePairingCode uid pt dn w = (Ok (code, e), w1) →
  (∃ existing,
      existing ∈ assistant_pairing_codes (db w)
      ∧ js_find (PairingService.same_identity uid pt)
          (filter (λ r, req_status r = pending ∧ clock w (tick w) < req_expiresAt r)
             (Db.order_by_desc req_requestedAt (assistant_pairing_codes (db w))))
        = Some existing
      ∧ code = req_code existing ∧ e = req_expiresAt existing
      ∧ quiet w w1 ∧ tick w1 = S (S (tick w)))
  ∨ (∃ wx, quiet w wx
      ∧ PairingService.createNewRequest uid pt dn wx = (Ok (code, e), w1)
      ∧ ∀ x, x ∈ assistant_pairing_codes (db w) →
             PairingService.same_identity uid pt x = true →
             req_expiresAt x ≤ clock w (tick wx)).
Proof.
  intros Hwf Hmono. unfold PairingService.generatePairingCode.
  unfold bind at 1. simpl. unfold bind at 1, query at 1.
  rewrite getPendingPairingRequests_eq. cbn [db tick clock].
  set (t := clock w (tick w)).
  set (sorted := Db.order_by_desc req_requestedAt (assistant_pairing_codes (db w))).
  destruct (js_find _ _) as [existing|] eqn:Hfind.
  - unfold bind at 1. simpl.
    pose proof Hfind as [Hin Hsame]%js_find_Some.
    apply list_elem_of_filter in Hin as [[Hpend Hlive] Hin].
    apply elem_of_order_by_desc in Hin.
    destruct (decide _) as [Hnow|Hnow].
    + intros [= <- <- <-]. left. exists existing.
      repeat split; simpl; try done; lia.
    + intros Hnew. right. eexists. split; [|split; [exact Hnew|]].
      { repeat split; simpl; lia. }
      simpl. intros x Hx Hsx.
      destruct (decide (t < req_expiresAt x)) as [Hxl|Hxl].
      * (* [x] was among the rows read, after [existing] *)
        assert (req_requestedAt x ≤ req_requestedAt existing) as Hle.
        { rewrite js_find_filter in Hfind.
          eapply (js_find_desc_max req_requestedAt); [|exact Hfind| |].
          - apply desc_order_by_desc.
          - by apply elem_of_order_by_desc.
          - pose proof Hsx as (_&_&Hp)%bool_decide_eq_true.
            rewrite bool_decide_eq_true_2 by done. exact Hsx. }
        unfold wf_codes in Hwf. rewrite Forall_forall in Hwf.
        rewrite (Hwf x Hx). rewrite (Hwf existing Hin) in Hnow.
        assert (clock w (S (tick w)) ≤ clock w (S (S (tick w))))
          by (apply Hmono; lia).
        lia.
      * assert (t ≤ clock w (S (S (tick w)))) by (apply Hmono; lia). lia.
  - intros Hnew. right. eexists. split; [|split; [exact Hnew|]].
    { repeat split; simpl; lia. }
    simpl. intros x Hx Hsx. rewrite js_find_None in Hfind.
    destruct (decide (t < req_expiresAt x)) as [Hxl|Hxl].
    + exfalso. assert (PairingService.same_identity uid pt x = false); [|congruence].
      apply Hfind. apply list_elem_of_filter. split.
      * split; [|done]. unfold PairingService.same_identity in Hsx.
        by apply bool_decide_eq_true in Hsx as (_&_&Hp).
      * by apply elem_of_order_by_desc.
    + assert (t ≤ clock w (S (tick w))) by (apply Hmono; lia). lia.
Qed.

(** When the newest live pending request of the identity is [r], and [r] is
    still alive at the second clock reading, [generatePairingCode] returns
    [r] and changes nothing. *)
Lemma generatePairingCode_existing uid pt dn w r :
  js_find (PairingService.same_identity uid pt)
    (filter (λ r, req_status r = pending ∧ clock w (tick w) < req_expiresAt r)
       (Db.order_by_desc req_requestedAt (assistant_pairing_codes (db w))))
    = Some r →
  clock w (S (tick w)) < req_expiresAt r →
  ∃ w2, PairingService.generatePairingCode uid pt dn w
          = (Ok (req_code r, req_expiresAt r), w2)
        ∧ db w2 = db w ∧ bridge w2 = bridge w.
Proof.
  intros Hfind Hlive. unfold PairingService.generatePairingCode.
  unfold bind at 1. simpl. unfold bind at 1, query at 1.
  rewrite getPendingPairingRequests_eq. cbn [db tick clock].
  rewrite Hfind. unfold bind at 1. simpl.
  rewrite decide_True by done. by eexists.
Qed.

(** C4. Calling [generatePairingCode] twice in a row for one identity, the
    request returned by the first call not having expired when the second
    call checks it, returns the same code and the same [expiresAt], and
    the second call leaves the stored requests and the bridge untouched
    (no second pending request is created, nothing is emitted). *)
Theorem generatePairingCode_idempotent uid pt dn dn' w code e w1 :
  wf_codes (db w) → clock_monotone w →
  PairingService.generatePairingCode uid pt dn w = (Ok (code, e), w1) →
  clock w1 (S (tick w1)) < e →
  ∃ w2, PairingService.generatePairingCode uid pt dn' w1 = (Ok (code, e), w2)
        ∧ db w2 = db w1 ∧ bridge w2 = bridge w1.
Proof.
  intros Hwf Hmono Hfirst Halive.
  destruct (generatePairingCode_Ok _ _ _ _ _ _ _ Hwf Hmono Hfirst)
    as [(existing & Hin & Hfind & -> & -> & (Hdb & Hbr & Hcl & Htk) & Ht)
       |(wx & (Hdbx & Hbrx & Hclx & Htkx) & Hnew & Hold)].
  - (* the first call returned a stored request *)
    apply generatePairingCode_existing; [|done].
    rewrite Hdb, Hcl. rewrite Hcl in Halive.
    rewrite js_find_filter in Hfind |- *.
    eapply js_find_strengthen; [exact Hfind| |].
    + pose proof Hfind as [_ [Hp Hs]%andb_true_iff]%js_find_Some.
      apply bool_decide_eq_true in Hp as [Hp _].
      rewrite bool_decide_eq_true_2; [done|]. split; [done|].
      assert (clock w (tick w1) ≤ clock w (S (tick w1))) by (apply Hmono; lia).
      lia.
    + intros y [Hp Hs]%andb_true_iff. apply bool_decide_eq_true in Hp as [Hp Hl].
      rewrite bool_decide_eq_true_2; [done|]. split; [done|].
      assert (clock w (tick w) ≤ clock w (tick w1)) by (apply Hmono; lia).
      lia.
  - (* the first call stored a new request [r] *)
    apply createNewRequest_Ok in Hnew
      as (t & -> & Hdb & Hbr & Hfresh & [Hcl Htk] & i & Hi & ->).
    rewrite Hclx in *.
    set (r := mkRequest code uid pt dn (clock w i)
                (clock w i + PAIRING_CONFIG.CODE_EXPIRY_MS) pending) in *.
    change code with (req_code r).
    change (clock w i + PAIRING_CONFIG.CODE_EXPIRY_MS) with (req_expiresAt r) in Halive |- *.
    apply generatePairingCode_existing; [|done].
    rewrite Hcl in Halive |- *.
    assert (clock w (tick w1) ≤ clock w (S (tick w1))) by (apply Hmono; lia).
    apply js_find_unique.
    + apply list_elem_of_filter. split; [split; [done|lia]|].
      apply elem_of_order_by_desc. rewrite Hdb. simpl.
      apply elem_of_app. right. by left.
    + unfold PairingService.same_identity. by apply bool_decide_eq_true_2.
    + intros x [[Hp Hl] Hx]%list_elem_of_filter Hs.
      apply elem_of_order_by_desc in Hx. rewrite Hdb in Hx. simpl in Hx.
      apply elem_of_app in Hx as [Hx|Hx%list_elem_of_singleton]; [|done].
      exfalso. rewrite Hdbx in Hx. specialize (Hold x Hx Hs).
      assert (clock w (tick wx) ≤ clock w (tick w1)) by (apply Hmono; lia).
      lia.
Qed.

Lemma generatePairingCode_idempotent_witness :
  let first := PairingService.generatePairingCode "42" telegram None
                 PairingExamples.w0 in
  first.1 = Ok ("012345", 601001)
  ∧ ∃ w2, PairingService.generatePairingCode "42" telegram (Some "Ann") first.2
            = (Ok ("012345", 601001), w2)
          ∧ db w2 = db first.2 ∧ bridge w2 = bridge first.2.
Proof.
  split; [vm_compute; reflexivity|].
  apply (generatePairingCode_idempotent "42" telegram None (Some "Ann")
           PairingExamples.w0).
  - constructor.
  - intros i j Hij. simpl. lia.
  - vm_compute. reflexivity.
  - vm_compute. reflexivity.
Defined.

(** ** PairingService: reading and deciding *)

Lemma getPairingRequest_update code status d r :
  PairingService.getPairingRequest code d = Some r →
  PairingService.getPairingRequest code
    (Db.updatePairingRequestStatus code status d) = Some (Db.with_status status r).
Proof.
  unfold PairingService.getPairingRequest, Db.getPairingRequestByCode,
    Db.updatePairingRequestStatus. simpl.
  induction (assistant_pairing_codes d) as [|x l IH]; simpl; [done|].
  destruct (decide (req_code x = code)) as [Hx|Hx].
  - rewrite !bool_decide_eq_true_2 by done. by intros [= ->].
  - rewrite !bool_decide_eq_false_2 by done. exact IH.
Qed.

Lemma getPairingRequest_elem code d r :
  PairingService.getPairingRequest code d = Some r →
  r ∈ assistant_pairing_codes d ∧ req_code r = code.
Proof.
  unfold PairingService.getPairingRequest, Db.getPairingRequestByCode.
  intros [? Hc]%js_find_Some. split; [done|]. by apply bool_decide_eq_true in Hc.
Qed.

Lemma find_live_elem uid pt data w x w' :
  PairingService.find_live uid pt data w = (Ok (Some x), w') → x ∈ data.
Proof.
  revert w. induction data as [|r data IH]; intros w; simpl; [done|].
  destruct (PairingService.same_identity uid pt r).
  - unfold bind, Date_now. simpl. destruct (decide _).
    + intros [= <- _]. left.
    + intros H%IH. by right.
  - intros H%IH. by right.
Qed.

Lemma filter_live_elem data w l w' x :
  PairingService.filter_live data w = (Ok l, w') → x ∈ l → x ∈ data.
Proof.
  revert w l w'. induction data as [|r data IH]; intros w l w'; simpl.
  - intros [= <- _] Hx. done.
  - destruct (decide (req_status r = pending)).
    + unfold bind at 1, Date_now at 1. simpl. unfold bind at 1.
      destruct (PairingService.filter_live data _) as [[rest|msg] w1] eqn:E;
        [|done].
      unfold ret. intros [= <- _] Hx. destruct (decide _).
      * apply elem_of_cons in Hx as [->|Hx]; [left|right]. by eapply IH.
      * right. by eapply IH.
    + intros H Hx. right. by eapply IH.
Qed.

(** Every row the database returns to the two read paths is alive at the
    time of the query. *)
Lemma getPendingPairingRequests_alive t d data x :
  Db.getPendingPairingRequests t d = QOk data → x ∈ data →
  req_status x = pending ∧ t < req_expiresAt x.
Proof.
  intros [= <-] Hx. apply elem_of_order_by_desc in Hx.
  by apply list_elem_of_filter in Hx as [? _].
Qed.

(** C5. A request whose [expiresAt] lies before the clock reading of the
    call is treated as expired by the read paths, swept or not:
    [approvePairing] fails and stores status [expired] for it, and neither
    [getPendingRequestForUser] nor [getPendingRequests] returns it, whatever
    status is stored. *)
Theorem expired_by_comparison code r uid pt w :
  PairingService.getPairingRequest code (db w) = Some r →
  req_expiresAt r < clock w (tick w) →
  (∃ w', PairingService.approvePairing code w
           = (Ok (mkApproveResult false None (Some "Pairing code has expired")), w')
         ∧ stored_status code w' = Some expired)
  ∧ (∀ res w', PairingService.getPendingRequestForUser uid pt w = (res, w') →
               res ≠ Ok (Some r))
  ∧ (∀ l w', PairingService.getPendingRequests w = (Ok l, w') → r ∉ l).
Proof.
  intros Hget Hpast. split; [|split].
  - unfold PairingService.approvePairing. unfold bind at 1, query at 1.
    rewrite Hget. unfold bind at 1. simpl. rewrite decide_True by done.
    unfold bind, exec, ret. simpl. eexists. split; [done|].
    unfold stored_status. simpl. by erewrite getPairingRequest_update.
  - intros res w'. unfold PairingService.getPendingRequestForUser.
    unfold bind at 1. simpl. unfold bind at 1, query at 1.
    destruct (Db.getPendingPairingRequests _ _) as [data|err] eqn:Hq;
      [|by intros [= <- _]].
    intros Hf ->. apply find_live_elem in Hf.
    eapply getPendingPairingRequests_alive in Hq as [_ Hl]; [|done].
    simpl in Hl. lia.
  - intros l w'. unfold PairingService.getPendingRequests.
    unfold bind at 1. simpl. unfold bind at 1, query at 1.
    destruct (Db.getPendingPairingRequests _ _) as [data|err] eqn:Hq.
    + intros Hf Hr. eapply filter_live_elem in Hf; [|done].
      eapply getPendingPairingRequests_alive in Hq as [_ Hl]; [|done].
      simpl in Hl. lia.
    + intros [= <- _]. apply not_elem_of_nil.
Qed.

Lemma expired_by_comparison_witness :
  (∃ w', PairingService.approvePairing "123456" PairingExamples.w_stale
           = (Ok (mkApproveResult false None (Some "Pairing code has expired")), w')
         ∧ stored_status "123456" w' = Some expired)
  ∧ (∀ res w', PairingService.getPendingRequestForUser "42" telegram
                 PairingExamples.w_stale = (res, w') →
               res ≠ Ok (Some PairingExamples.stale))
  ∧ (∀ l w', PairingService.getPendingRequests PairingExamples.w_stale
               = (Ok l, w') → PairingExamples.stale ∉ l).
Proof.
  apply (expired_by_comparison "123456" PairingExamples.stale "42" telegram
           PairingExamples.w_stale).
  - reflexivity.
  - simpl. lia.
Defined.

(** C10. When the request is valid, pending and not expired, its identity
    has no ChannelUser, and the statement creating the ChannelUser fails
    with error [e], [approvePairing] returns [{success: false, error: e}]
    and leaves the database and the bridge as they were: in particular the
    request is still [pending]. *)
Theorem approvePairing_create_failure code r w e :
  PairingService.getPairingRequest code (db w) = Some r →
  ¬ req_expiresAt r < clock w (tick w) →
  req_status r = pending →
  PairingService.isUserAuthorized (req_platformUserId r) (req_platformType r)
    (db w) = false →
  (Db.createChannelUser
     (mkUser ("assistant_user_" +:+ pretty (clock w (S (tick w))) +:+ "_"
              +:+ String.substring 0 6 (randomBytes w (rb w)))
        (req_platformUserId r) (req_platformType r) (req_displayName r)
        (clock w (S (S (tick w)))) None None)
     (db w)).1 = QFail e →
  ∃ w', PairingService.approvePairing code w
          = (Ok (mkApproveResult false None (Some e)), w')
        ∧ db w' = db w ∧ bridge w' = bridge w
        ∧ stored_status code w' = Some pending.
Proof.
  intros Hget Hfresh Hpend Hnouser Hfail.
  unfold PairingService.approvePairing. unfold bind at 1, query at 1.
  rewrite Hget. unfold bind at 1. simpl. rewrite decide_False by done.
  rewrite decide_False by (intros H; by apply H).
  unfold bind at 1, query at 1. simpl.
  unfold PairingService.isUserAuthorized, Db.getChannelUserByPlatform in Hnouser.
  destruct (js_find _ (assistant_users (db w))) as [u|]; [done|].
  unfold bind at 1, Date_now at 1; cbn [db clock tick rb randomBytes];
    unfold bind at 1, crypto_randomBytes_hex at 1; cbn [db clock tick rb randomBytes];
    unfold bind at 1, Date_now at 1; cbn [db clock tick rb randomBytes];
    unfold bind at 1, exec_result at 1; cbn [db clock tick rb randomBytes];
    destruct (Db.createChannelUser _ _) as [[u'|e'] d'] eqn:Hc;
    cbn [fst] in Hfail; [done|]; injection Hfail as ->;
    assert (d' = db w) as ->
      by (unfold Db.createChannelUser in Hc; repeat case_bool_decide; congruence);
    (eexists; split; [reflexivity|]); repeat split;
    try done; unfold stored_status; cbn [db with_db];
    rewrite Hget; simpl; by rewrite Hpend.
Qed.

Lemma approvePairing_create_failure_witness :
  ∃ w', PairingService.approvePairing "123456" PairingExamples.w_collision
          = (Ok (mkApproveResult false None
                   (Some "UNIQUE constraint failed: assistant_users.id")), w')
        ∧ db w' = db PairingExamples.w_collision
        ∧ bridge w' = bridge PairingExamples.w_collision
        ∧ stored_status "123456" w' = Some pending.
Proof.
  apply (approvePairing_create_failure "123456"
           (PairingExamples.request pending) PairingExamples.w_collision).
  - reflexivity.
  - simpl. lia.
  - reflexivity.
  - reflexivity.
  - vm_compute. reflexivity.
Defined.

(** C2 (what the code does). [rejectPairing] has no guard on the stored
    status: called on an approved request it succeeds and stores
    [rejected]. And [approvePairing] compares [expiresAt] before it looks
    at the status: called on an approved request after its [expiresAt] it
    stores [expired] and its error does not name the status [approved]. *)
Theorem terminal_status_overwritten :
  (stored_status "123456" PairingExamples.w_approved = Some approved
   ∧ ∃ w', PairingService.rejectPairing "123456" PairingExamples.w_approved
             = (Ok (mkRejectResult true None), w')
           ∧ stored_status "123456" w' = Some rejected)
  ∧ (stored_status "123456" PairingExamples.w_approved_late = Some approved
     ∧ ∃ w', PairingService.approvePairing "123456" PairingExamples.w_approved_late
               = (Ok (mkApproveResult false None (Some "Pairing code has expired")), w')
             ∧ stored_status "123456" w' = Some expired).
Proof.
  split; (split; [reflexivity|]); eexists; (split; [reflexivity|]); reflexivity.
Qed.

(** The part of C2 the code keeps: on a request that is no longer pending
    and has not run out, [approvePairing] changes nothing and its error
    names the stored status. *)
Lemma approvePairing_already_processed code r w :
  PairingService.getPairingRequest code (db w) = Some r →
  ¬ req_expiresAt r < clock w (tick w) →
  req_status r ≠ pending →
  ∃ w', PairingService.approvePairing code w
          = (Ok (mkApproveResult false None
                   (Some ("Pairing request already "
                          +:+ PairingStatus_str (req_status r)))), w')
        ∧ db w' = db w ∧ bridge w' = bridge w.
Proof.
  intros Hget Hfresh Hst.
  unfold PairingService.approvePairing. unfold bind at 1, query at 1.
  rewrite Hget. unfold bind at 1. simpl. rewrite decide_False by done.
  rewrite decide_True by done. by eexists.
Qed.

(** ** [JsMap]: a [Map] holds one entry per key *)

Section JsMap_facts.
Context {V : Type}.
Implicit Types (m : JsMap.t V) (k : string) (v : V).

Lemma JsMap_get_set_eq k v m : JsMap.get k (JsMap.set k v m) = Some v.
Proof.
  induction m as [|[k' v'] m IH]; csimpl.
  - by rewrite decide_True.
  - destruct (decide (k' = k)) as [->|Hne]; csimpl.
    + by rewrite decide_True.
    + by rewrite decide_False.
Qed.

Lemma JsMap_get_set_ne k k' v m :
  k ≠ k' → JsMap.get k' (JsMap.set k v m) = JsMap.get k' m.
Proof.
  intros Hne. induction m as [|[k0 v0] m IH]; csimpl.
  - by rewrite decide_False.
  - destruct (decide (k0 = k)) as [->|Hk0]; csimpl.
    + by rewrite !decide_False.
    + destruct (decide (k0 = k')); [done | exact IH].
Qed.

Lemma JsMap_get_elem k v m : JsMap.get k m = Some v → (k, v) ∈ m.
Proof.
  induction m as [|[k' v'] m IH]; csimpl; [done|].
  destruct (decide (k' = k)) as [->|Hne].
  - intros [= ->]. left.
  - intros H. right. by apply IH.
Qed.

Lemma JsMap_get_None k m : JsMap.get k m = None ↔ k ∉ JsMap.keys m.
Proof.
  unfold JsMap.keys. induction m as [|[k' v'] m IH]; csimpl.
  - split; [intros _; apply not_elem_of_nil | done].
  - rewrite not_elem_of_cons. destruct (decide (k' = k)) as [->|Hne].
    + split; [done | by intros [? _]].
    + rewrite IH. split; [by intros ? | by intros [_ ?]].
Qed.

Lemma JsMap_elem_get k v m : NoDup (JsMap.keys m) → (k, v) ∈ m → JsMap.get k m = Some v.
Proof.
  unfold JsMap.keys. induction m as [|[k' v'] m IH]; csimpl.
  - intros _ H. by apply elem_of_nil in H.
  - intros [Hk' Hnd]%NoDup_cons [[= -> ->]|Hin]%elem_of_cons.
    + by rewrite decide_True.
    + rewrite decide_False; [by apply IH|]. intros ->. apply Hk'.
      apply list_elem_of_fmap. by exists (k, v).
Qed.

Lemma JsMap_keys_set k v m :
  JsMap.keys (JsMap.set k v m) =
    if bool_decide (k ∈ JsMap.keys m) then JsMap.keys m else JsMap.keys m ++ [k].
Proof.
  unfold JsMap.keys. induction m as [|[k' v'] m IH]; csimpl; [done|].
  destruct (decide (k' = k)) as [->|Hne]; csimpl.
  - rewrite bool_decide_eq_true_2; [done | left].
  - rewrite IH. case_bool_decide as Hin.
    + rewrite bool_decide_eq_true_2; [done | by right].
    + rewrite bool_decide_eq_false_2; [done|].
      intros [?|?]%elem_of_cons; congruence.
Qed.

Lemma JsMap_NoDup_set k v m : NoDup (JsMap.keys m) → NoDup (JsMap.keys (JsMap.set k v m)).
Proof.
  intros Hnd. rewrite JsMap_keys_set. case_bool_decide; [done|].
  apply NoDup_app. split; [done|]. split; [|apply NoDup_singleton].
  intros x Hx ->%list_elem_of_singleton. done.
Qed.

Lemma JsMap_elem_set k v m e : e ∈ JsMap.set k v m → e = (k, v) ∨ e ∈ m.
Proof.
  induction m as [|[k0 v0] m IH]; csimpl.
  - intros ->%list_elem_of_singleton. by left.
  - destruct (decide (k0 = k)) as [->|Hne].
    + intros [->|Hin]%elem_of_cons; [by left|]. right. by right.
    + intros [->|Hin]%elem_of_cons; [right; left|].
      destruct (IH Hin) as [->|?]; [by left|]. right. by right.
Qed.

Lemma JsMap_delete_sub k m e : e ∈ JsMap.delete k m → e ∈ m.
Proof.
  induction m as [|[k0 v0] m IH]; csimpl; [done|].
  destruct (decide (k0 = k)).
  - by right.
  - intros [->|?]%elem_of_cons; [left | right; by apply IH].
Qed.

Lemma JsMap_keys_delete k m :
  NoDup (JsMap.keys m) →
  NoDup (JsMap.keys (JsMap.delete k m)) ∧ k ∉ JsMap.keys (JsMap.delete k m).
Proof.
  unfold JsMap.keys. induction m as [|[k0 v0] m IH]; csimpl.
  - intros _. split; [constructor | apply not_elem_of_nil].
  - intros [Hk0 Hnd]%NoDup_cons. destruct (decide (k0 = k)) as [->|Hne]; csimpl.
    + done.
    + destruct (IH Hnd) as [IH1 IH2]. split.
      * apply NoDup_cons. split; [|done]. intros Hin. apply Hk0.
        apply list_elem_of_fmap in Hin as ([k1 v1] & -> & Hin).
        apply JsMap_delete_sub in Hin. apply list_elem_of_fmap. by exists (k1, v1).
      * intros [?|?]%elem_of_cons; [congruence | done].
Qed.

Lemma JsMap_get_delete_ne k k' m :
  k ≠ k' → JsMap.get k' (JsMap.delete k m) = JsMap.get k' m.
Proof.
  intros Hne. induction m as [|[k0 v0] m IH]; csimpl; [done|].
  destruct (decide (k0 = k)) as [->|Hk0]; csimpl.
  - by rewrite decide_False.
  - destruct (decide (k0 = k')); [done | exact IH].
Qed.
End JsMap_facts.

(** ** SessionManager: one session per user *)

Section NoDup_key.
Context {A K : Type} (f : A → K).

Lemma NoDup_fmap_eq (l : list A) x y :
  NoDup (f <$> l) → x ∈ l → y ∈ l → f x = f y → x = y.
Proof.
  induction l as [|z l IH]; csimpl.
  - intros _ H. by apply elem_of_nil in H.
  - intros [Hz Hnd]%NoDup_cons [->|Hx]%elem_of_cons [->|Hy]%elem_of_cons Hxy;
      [done| | |by apply IH].
    + exfalso. apply Hz. rewrite Hxy. by apply list_elem_of_fmap_2.
    + exfalso. apply Hz. rewrite <- Hxy. by apply list_elem_of_fmap_2.
Qed.

Lemma NoDup_fmap_filter_length `{!EqDecision K} (l : list A) k :
  NoDup (f <$> l) → (length (filter (λ x, f x = k) l) ≤ 1)%nat.
Proof.
  induction l as [|z l IH]; csimpl; [lia|].
  intros [Hz Hnd]%NoDup_cons. rewrite filter_cons.
  destruct (decide (f z = k)) as [<-|Hne]; [|by apply IH].
  assert (filter (λ x, f x = f z) l = []) as ->; [|simpl; lia].
  apply elem_of_nil_inv. intros x [Hx Hin]%list_elem_of_filter.
  apply Hz. rewrite <- Hx. by apply list_elem_of_fmap_2.
Qed.
End NoDup_key.

Lemma order_by_desc_Permutation {A} (key : A → Z) (l : list A) :
  Db.order_by_desc key l ≡ₚ l.
Proof.
  unfold Db.order_by_desc. induction l as [|x l IH]; simpl; [done|].
  rewrite <- IH at 2. generalize (foldr (Db.insert_desc key) [] l). clear.
  intros l. induction l as [|y l IH]; simpl; [done|].
  case_bool_decide; [done|]. rewrite IH. apply Permutation_swap.
Qed.

Section SessionManager_facts.
Import SessionManager.
Implicit Types (d : Database) (m : SessionManager.t) (s r : IChannelSession).

(** From the invariant to the statement about users. *)
Lemma Inv_one_row_per_user d m :
  Inv d m → NoDup (ses_userId <$> assistant_sessions d).
Proof.
  intros [_ _ Hids Hrows]. apply NoDup_fmap_2_strong.
  - intros x y Hx Hy Hxy. eapply (NoDup_fmap_eq ses_id); [done..|].
    destruct (Hrows x Hx) as (sx & Hgx & <-).
    destruct (Hrows y Hy) as (sy & Hgy & <-).
    rewrite Hxy in Hgx. congruence.
  - by eapply NoDup_fmap_1.
Qed.

Lemma Inv_one_entry_per_user d m :
  Inv d m → NoDup (ses_userId <$> JsMap.values m).
Proof.
  intros [Hkeys Hfiled _ _]. unfold JsMap.values, JsMap.keys in *.
  rewrite <- list_fmap_compose.
  erewrite list_fmap_ext; [exact Hkeys|]. intros i [k s] Hi. simpl.
  apply Hfiled. by eapply list_elem_of_lookup_2.
Qed.

(** *** The table *)

Lemma sessions_delete sessionId d :
  assistant_sessions (Db.deleteChannelSession sessionId d)
  = filter (λ r, ses_id r ≠ sessionId) (assistant_sessions d).
Proof. done. Qed.

(** An upsert keeps the pair (id, user id) of every row it does not add. *)
Lemma sessions_upsert s t d :
  let skel := λ r, (ses_id r, ses_userId r) in
  skel <$> assistant_sessions (Db.upsertChannelSession s t d)
  = if bool_decide (ses_id s ∈ ses_id <$> assistant_sessions d)
    then skel <$> assistant_sessions d
    else (skel <$> assistant_sessions d) ++ [skel s].
Proof.
  intros skel. unfold Db.upsertChannelSession.
  case_bool_decide; simpl.
  - rewrite <- list_fmap_compose. apply list_fmap_ext. intros i r _. simpl.
    by destruct (decide _).
  - by rewrite fmap_app.
Qed.

(** *** Steps that keep the invariant *)

Lemma Inv_upsert d m s s0 t :
  Inv d m → JsMap.get (ses_userId s) m = Some s0 → ses_id s0 = ses_id s →
  Inv (Db.upsertChannelSession s t d) m.
Proof.
  intros [Hkeys Hfiled Hids Hrows] Hget Hid.
  pose proof (sessions_upsert s t d) as Hskel. simpl in Hskel.
  assert (∀ r, r ∈ assistant_sessions (Db.upsertChannelSession s t d) →
            (∃ r0, r0 ∈ assistant_sessions d ∧ ses_id r = ses_id r0
                   ∧ ses_userId r = ses_userId r0)
            ∨ (ses_id r = ses_id s ∧ ses_userId r = ses_userId s)) as Hfrom.
  { intros r Hr.
    apply (list_elem_of_fmap_2 (λ r, (ses_id r, ses_userId r))) in Hr.
    rewrite Hskel in Hr. case_bool_decide.
    - apply list_elem_of_fmap in Hr as (r0 & [= ??] & ?). left. by exists r0.
    - apply elem_of_app in Hr as [Hr|Hr%list_elem_of_singleton].
      + apply list_elem_of_fmap in Hr as (r0 & [= ??] & ?). left. by exists r0.
      + injection Hr as ??. by right. }
  split; [done|done| |].
  - apply (f_equal (fmap fst)) in Hskel.
    rewrite <- list_fmap_compose in Hskel. simpl in Hskel.
    change (fst ∘ _) with ses_id in Hskel. rewrite Hskel.
    case_bool_decide as Hin.
    + by rewrite <- list_fmap_compose.
    + rewrite fmap_app, <- list_fmap_compose. simpl.
      apply NoDup_app. split; [done|]. split; [|apply NoDup_singleton].
      intros x Hx ->%list_elem_of_singleton. done.
  - intros r [(r0 & Hr0 & Hi & Hu)|[Hi Hu]]%Hfrom.
    + rewrite Hi, Hu. by apply Hrows.
    + rewrite Hi, Hu. by exists s0.
Qed.

Lemma Inv_delete_row d m k s :
  Inv d m → JsMap.get k m = Some s →
  Inv (Db.deleteChannelSession (ses_id s) d) m
  ∧ ∀ r, r ∈ assistant_sessions (Db.deleteChannelSession (ses_id s) d) →
         ses_userId r ≠ k.
Proof.
  intros [Hkeys Hfiled Hids Hrows] Hget. split; [split; [done|done|..]|].
  - rewrite sessions_delete. eapply NoDup_fmap_2_strong.
    + intros x y [_ Hx]%list_elem_of_filter [_ Hy]%list_elem_of_filter.
      by apply (NoDup_fmap_eq ses_id (assistant_sessions d)).
    + apply NoDup_filter. by eapply NoDup_fmap_1.
  - intros r. rewrite sessions_delete. intros [_ Hr]%list_elem_of_filter.
    by apply Hrows.
  - intros r. rewrite sessions_delete. intros [Hne Hr]%list_elem_of_filter <-.
    destruct (Hrows r Hr) as (s' & Hs' & Hid). congruence.
Qed.

Lemma Inv_no_row d m k :
  Inv d m → JsMap.get k m = None →
  ∀ r, r ∈ assistant_sessions d → ses_userId r ≠ k.
Proof.
  intros [_ _ _ Hrows] Hget r Hr <-. destruct (Hrows r Hr) as (s & Hs & _).
  congruence.
Qed.

Lemma Inv_set d m k s :
  Inv d m → ses_userId s = k →
  (∀ r, r ∈ assistant_sessions d → ses_userId r = k → ses_id r = ses_id s) →
  Inv d (JsMap.set k s m).
Proof.
  intros [Hkeys Hfiled Hids Hrows] Hk Hmine. split; [|..|done|].
  - by apply JsMap_NoDup_set.
  - intros k' s' [[= -> ->]|Hin]%JsMap_elem_set; [done | by apply Hfiled].
  - intros r Hr. destruct (decide (ses_userId r = k)) as [Hrk|Hrk].
    + exists s. rewrite Hrk, JsMap_get_set_eq. split; [done|].
      symmetry. by apply Hmine.
    + rewrite JsMap_get_set_ne by done. by apply Hrows.
Qed.

Lemma Inv_cache_delete d m k :
  Inv d m → (∀ r, r ∈ assistant_sessions d → ses_userId r ≠ k) →
  Inv d (JsMap.delete k m).
Proof.
  intros [Hkeys Hfiled Hids Hrows] Hnone. split; [|..|done|].
  - by apply JsMap_keys_delete.
  - intros k' s' Hin%JsMap_delete_sub. by apply Hfiled.
  - intros r Hr. rewrite JsMap_get_delete_ne; [by apply Hrows|].
    intros Hk. by eapply Hnone.
Qed.

Lemma get_update_first p f m k :
  match JsMap.get k m with
  | None => JsMap.get k (update_first p f m) = None
  | Some s => JsMap.get k (update_first p f m) = Some s
              ∨ JsMap.get k (update_first p f m) = Some (f s)
  end.
Proof.
  induction m as [|[k0 s0] m IH]; simpl; [done|].
  destruct (p s0); simpl; destruct (decide (k0 = k)); auto.
  destruct (JsMap.get k m); auto.
Qed.

Lemma elem_update_first p f m e :
  e ∈ update_first p f m → ∃ s, (e.1, s) ∈ m ∧ (e.2 = s ∨ e.2 = f s).
Proof.
  induction m as [|[k0 s0] m IH]; simpl.
  - intros H. by apply elem_of_nil in H.
  - destruct (p s0).
    + intros [->|Hin]%elem_of_cons.
      * exists s0. split; [left | by right].
      * destruct e as [k s]. exists s. split; [by right | by left].
    + intros [->|Hin]%elem_of_cons.
      * exists s0. split; [left | by left].
      * destruct (IH Hin) as (s & ? & ?). exists s. split; [by right | done].
Qed.

Lemma keys_update_first p f m : JsMap.keys (update_first p f m) = JsMap.keys m.
Proof.
  unfold JsMap.keys. induction m as [|[k0 s0] m IH]; csimpl; [done|].
  destruct (p s0); csimpl; [done | by rewrite IH].
Qed.

Lemma Inv_update_first d m p f :
  Inv d m → (∀ s, ses_id (f s) = ses_id s ∧ ses_userId (f s) = ses_userId s) →
  Inv d (update_first p f m).
Proof.
  intros [Hkeys Hfiled Hids Hrows] Hf. split; [|..|done|].
  - by rewrite keys_update_first.
  - intros k s' (s & Hin & Hs)%elem_update_first. simpl in *.
    destruct Hs as [->| ->]; [by apply Hfiled|].
    destruct (Hf s) as [_ ->]. by apply Hfiled.
  - intros r Hr. destruct (Hrows r Hr) as (s & Hs & Hid).
    pose proof (get_update_first p f m (ses_userId r)) as Hg.
    rewrite Hs in Hg. destruct Hg as [Hg|Hg]; rewrite Hg; eexists; split; try done.
    by destruct (Hf s) as [-> _].
Qed.
End SessionManager_facts.

Section SessionManager_operations.
Import SessionManager.
Implicit Types (w : World) (m : SessionManager.t).

Lemma createSessionWithConversation_Inv user conversationId agentType workspace m w :
  Inv (db w) m →
  ∃ session m' w',
    createSessionWithConversation user conversationId agentType workspace m w
      = (Ok (session, m'), w')
    ∧ Inv (db w') m' ∧ JsMap.get (usr_id user) m' = Some session
    ∧ ses_userId session = usr_id user.
Proof.
  intros HInv. unfold createSessionWithConversation.
  unfold bind, exec, ret, Date_now, uuid, query.
  destruct (JsMap.get (usr_id user) m) as [ex|] eqn:Hex; simpl.
  - eexists _, _, _. split; [reflexivity|].
    split; [|split; [apply JsMap_get_set_eq | done]]. simpl.
    destruct (Inv_delete_row _ _ _ _ HInv Hex) as [HInv1 Hnone].
    eapply Inv_upsert; [|apply JsMap_get_set_eq|done].
    apply Inv_set; [done|done|]. intros r Hr Hu. by apply Hnone in Hr.
  - eexists _, _, _. split; [reflexivity|].
    split; [|split; [apply JsMap_get_set_eq | done]]. simpl.
    pose proof (Inv_no_row _ _ _ HInv Hex) as Hnone.
    eapply Inv_upsert; [|apply JsMap_get_set_eq|done].
    apply Inv_set; [done|done|]. intros r Hr Hu. by apply Hnone in Hr.
Qed.

Lemma uuid_run w : ∃ w', uuid w = (Ok (uuids w (uu w)), w') ∧ db w' = db w.
Proof. by eexists. Qed.

Lemma createSession_Inv user agentType workspace m w :
  Inv (db w) m →
  ∃ session m' w',
    createSession user agentType workspace m w = (Ok (session, m'), w')
    ∧ Inv (db w') m'.
Proof.
  intros HInv. unfold createSession, bind at 1.
  destruct (uuid_run w) as (w1 & -> & Hdb). rewrite <- Hdb in HInv.
  destruct (createSessionWithConversation_Inv user (uuids w (uu w)) agentType
              workspace m w1 HInv) as (s & m' & w' & -> & ? & _).
  by eexists _, _, _.
Qed.

Lemma touch_skeleton c t s :
  ses_id (touch c t s) = ses_id s ∧ ses_userId (touch c t s) = ses_userId s.
Proof. done. Qed.

Lemma updateSessionConversation_Inv sessionId conversationId m w :
  Inv (db w) m →
  ∃ b m' w', updateSessionConversation sessionId conversationId m w = (Ok (b, m'), w')
             ∧ Inv (db w') m'.
Proof.
  intros HInv. unfold updateSessionConversation.
  destruct (js_find _ (JsMap.values m)) as [session|] eqn:Hfind.
  - eexists _, _, _. split; [reflexivity|]. simpl.
    apply js_find_Some in Hfind as [Hin _].
    apply list_elem_of_fmap in Hin as ([k s] & -> & Hin). simpl.
    pose proof (inv_filed _ _ HInv k s Hin) as Hk.
    pose proof (JsMap_elem_get k s m (inv_keys _ _ HInv) Hin) as Hget.
    set (upd := touch (Some conversationId) (clock w (tick w))).
    set (p := λ s0, bool_decide (ses_id s0 = sessionId)).
    pose proof (get_update_first p upd m k) as Hg. rewrite Hget in Hg.
    assert (∃ s0, JsMap.get (ses_userId (upd s)) (update_first p upd m) = Some s0
                  ∧ ses_id s0 = ses_id (upd s)) as (s0 & Hs0 & Hid).
    { simpl. rewrite Hk. destruct Hg as [Hg|Hg]; rewrite Hg; by eexists. }
    eapply Inv_upsert; [|exact Hs0|exact Hid].
    apply Inv_update_first; [done|]. intros ?. apply touch_skeleton.
  - by eexists _, _, _.
Qed.

Lemma updateSessionActivity_Inv userId m w :
  Inv (db w) m →
  ∃ m' w', updateSessionActivity userId m w = (Ok m', w') ∧ Inv (db w') m'.
Proof.
  intros HInv. unfold updateSessionActivity.
  destruct (JsMap.get userId m) as [session|] eqn:Hget.
  - eexists _, _. split; [reflexivity|]. simpl.
    pose proof (inv_filed _ _ HInv _ _ (JsMap_get_elem _ _ _ Hget)) as Hk.
    eapply Inv_upsert.
    + apply Inv_set; [done|done|]. intros r Hr Hu.
      destruct (inv_rows _ _ HInv r Hr) as (s & Hs & Hid).
      rewrite Hu, Hget in Hs. by injection Hs as <-.
    + simpl. rewrite Hk. apply JsMap_get_set_eq.
    + done.
  - by eexists _, _.
Qed.

Lemma clear_Inv d m k s :
  Inv d m → JsMap.get k m = Some s →
  Inv (Db.deleteChannelSession (ses_id s) d) (JsMap.delete k m).
Proof.
  intros HInv Hget. destruct (Inv_delete_row d m k s HInv Hget) as [H1 H2].
  by apply Inv_cache_delete.
Qed.

Lemma clearSession_Inv userId m w :
  Inv (db w) m →
  ∃ b m' w', clearSession userId m w = (Ok (b, m'), w') ∧ Inv (db w') m'.
Proof.
  intros HInv. unfold clearSession.
  destruct (JsMap.get userId m) as [session|] eqn:Hget.
  - eexists _, _, _. split; [reflexivity|]. simpl. by apply clear_Inv.
  - by eexists _, _, _.
Qed.

Lemma clearSessionByConversationId_Inv conversationId m w :
  Inv (db w) m →
  ∃ r m' w', clearSessionByConversationId conversationId m w = (Ok (r, m'), w')
             ∧ Inv (db w') m'.
Proof.
  intros HInv. unfold clearSessionByConversationId.
  destruct (js_find _ m) as [[k s]|] eqn:Hfind.
  - eexists _, _, _. split; [reflexivity|]. simpl.
    apply js_find_Some in Hfind as [Hin _]. apply clear_Inv; [done|].
    by apply JsMap_elem_get; [apply (inv_keys _ _ HInv)|].
- by eexists _, _, _.
Qed.

Lemma cleanup_loop_Inv now maxAgeMs entries cleaned m w :
  Inv (db w) m → NoDup entries.*1 →
  (∀ k s, (k, s) ∈ entries → JsMap.get k m = Some s) →
  ∃ n m' w', cleanup_loop now maxAgeMs entries cleaned m w = (Ok (n, m'), w')
             ∧ Inv (db w') m'.
Proof.
  revert cleaned m w. induction entries as [|[k s] entries IH];
    intros cleaned m w HInv Hnd Hget; simpl.
  - by eexists _, _, _.
  - apply NoDup_cons in Hnd as [Hk Hnd]. destruct (decide _).
    + unfold bind, exec. simpl. apply IH; simpl.
      * apply clear_Inv; [done|]. apply Hget. left.
      * done.
      * intros k' s' Hin. rewrite JsMap_get_delete_ne.
        -- apply Hget. by right.
        -- intros ->. apply Hk. apply list_elem_of_fmap. by exists (k', s').
    + apply IH; [done..|]. intros k' s' Hin. apply Hget. by right.
Qed.

Lemma cleanupStaleSessions_Inv maxAgeMs m w :
  Inv (db w) m →
  ∃ n m' w', cleanupStaleSessions maxAgeMs m w = (Ok (n, m'), w')
             ∧ Inv (db w') m'.
Proof.
  intros HInv. unfold cleanupStaleSessions, bind, Date_now. simpl.
  apply cleanup_loop_Inv; [done|apply (inv_keys _ _ HInv)|].
  intros k s. apply JsMap_elem_get, (inv_keys _ _ HInv).
Qed.

Lemma sessions_step_Inv st op :
  Inv (db st.1) st.2 → Inv (db (step st op).1) (step st op).2.
Proof.
  destruct st as [w m]. simpl. intros HInv. destruct op.
  - destruct (createSession_Inv user agentType workspace m w HInv)
      as (?&?&?& -> &?). done.
  - destruct (createSessionWithConversation_Inv user conversationId agentType
                workspace m w HInv) as (?&?&?& -> &?&_). done.
  - destruct (updateSessionConversation_Inv sessionId conversationId m w HInv)
      as (?&?&?& -> &?). done.
  - destruct (updateSessionActivity_Inv userId m w HInv) as (?&?& H &?).
    unfold bind. rewrite H. done.
  - destruct (clearSession_Inv userId m w HInv) as (?&?&?& -> &?). done.
  - destruct (clearSessionByConversationId_Inv conversationId m w HInv)
      as (?&?&?& -> &?). done.
  - destruct (cleanupStaleSessions_Inv maxAgeMs m w HInv) as (?&?&?& -> &?). done.
Qed.

Lemma sessions_run_Inv ops st :
  Inv (db st.1) st.2 → Inv (db (run ops st).1) (run ops st).2.
Proof.
  revert st. induction ops as [|op ops IH]; intros st HInv; simpl; [done|].
  apply IH. by apply sessions_step_Inv.
Qed.

(** The constructor establishes the invariant on a store that has one
    row per user. *)
Lemma load_Inv_aux (rows : list IChannelSession) :
  NoDup (ses_userId <$> rows) →
  let m := foldl (λ m s, JsMap.set (ses_userId s) s m) JsMap.empty rows in
  NoDup (JsMap.keys m)
  ∧ (∀ k s, (k, s) ∈ m → ses_userId s = k ∧ s ∈ rows)
  ∧ (∀ r, r ∈ rows → JsMap.get (ses_userId r) m = Some r).
Proof.
  induction rows as [|x rows IH] using rev_ind; intros Hnd; simpl.
  - split; [constructor|]. split; intros ?; [intros ? H|intros H];
      by apply elem_of_nil in H.
  - rewrite fmap_app in Hnd. apply NoDup_app in Hnd as (Hnd & Hx & _).
    rewrite foldl_app. simpl. destruct (IH Hnd) as (IH1 & IH2 & IH3).
    split; [by apply JsMap_NoDup_set|]. split.
    + intros k s [[= -> ->]|Hin]%JsMap_elem_set.
      * split; [done|]. apply elem_of_app. right. left.
      * destruct (IH2 _ _ Hin). split; [done|]. apply elem_of_app. by left.
    + intros r [Hr| ->%list_elem_of_singleton]%elem_of_app.
      * rewrite JsMap_get_set_ne; [by apply IH3|].
        intros Heq. eapply Hx; [by apply list_elem_of_fmap_2|].
        rewrite <- Heq. csimpl. left.
      * apply JsMap_get_set_eq.
Qed.

Lemma init_Inv w :
  NoDup (ses_id <$> assistant_sessions (db w)) →
  NoDup (ses_userId <$> assistant_sessions (db w)) →
  Inv (db (init w).1) (init w).2.
Proof.
  intros Hids Husers. simpl. unfold loadActiveSessions, Db.getChannelSessions.
  pose proof (order_by_desc_Permutation ses_lastActivity
                (assistant_sessions (db w))) as Hperm.
  destruct (load_Inv_aux (Db.order_by_desc ses_lastActivity (assistant_sessions (db w))))
    as (H1 & H2 & H3).
  { by rewrite Hperm. }
  split; [done| |done|].
  - intros k s Hin. by apply H2.
  - intros r Hr. exists r. split; [|done]. apply H3. by rewrite Hperm.
Qed.
End SessionManager_operations.


(** ** BasePlugin: the lifecycle guards *)

(** C9. [start()] throws, running no platform hook and changing nothing,
    whenever the status is neither [ready] nor [stopped]; [stop()] returns
    normally, running no platform hook and changing nothing, whenever the
    status is neither [running] nor [error]. (The plugin returned is the
    plugin given, record of hooks and connector state included.) *)
Theorem lifecycle_guards {S : Type} `{!Connector S} (p : BasePlugin.t S) :
  (BasePlugin.status p ≠ ready → BasePlugin.status p ≠ stopped →
   BasePlugin.start p
   = (Throw ("Cannot start plugin in status: "
             +:+ PluginStatus_str (BasePlugin.status p)), p))
  ∧ (BasePlugin.status p ≠ running → BasePlugin.status p ≠ error →
     BasePlugin.stop p = (Ok tt, p)).
Proof.
  unfold BasePlugin.status, BasePlugin.start, BasePlugin.stop. split.
  - intros H1 H2. by rewrite decide_True.
  - intros H1 H2. by rewrite decide_True.
Qed.

Lemma lifecycle_guards_witness :
  BasePlugin.start (BasePlugin.new Demo.good_bot)
  = (Throw "Cannot start plugin in status: created", BasePlugin.new Demo.good_bot)
  ∧ BasePlugin.stop Demo.ready_plugin = (Ok tt, Demo.ready_plugin).
Proof.
  split.
  - apply (lifecycle_guards (BasePlugin.new Demo.good_bot)); vm_compute; discriminate.
  - apply (lifecycle_guards Demo.ready_plugin); vm_compute; discriminate.
Defined.

(** The guards are exact: from [ready] or [stopped], [start] runs the
    platform hook; from [running] or [error], [stop] does. *)
Lemma start_runs_hook {S : Type} `{!Connector S} (p : BasePlugin.t S) :
  BasePlugin.status p = ready ∨ BasePlugin.status p = stopped →
  BasePlugin.hooks (BasePlugin.start p).2 = BasePlugin.hooks p ++ [HookStart].
Proof.
  unfold BasePlugin.status, BasePlugin.start. intros Hst.
  rewrite decide_False by (intros [??]; destruct Hst; done).
  unfold BasePlugin.run_hook. simpl. by destruct (onStart _) as [s' [msg|]].
Qed.

Lemma start_Ok_running {S : Type} `{!Connector S} (p p' : BasePlugin.t S) :
  BasePlugin.start p = (Ok tt, p') → BasePlugin.status p' = running.
Proof.
  unfold BasePlugin.start, BasePlugin.run_hook. destruct (decide _); [done|].
  simpl. destruct (onStart _) as [s' [msg|]]; [done|]. by intros [= <-].
Qed.

(** ** PluginManager *)

Section PluginManager_facts.
Context {S : Type} `{!Connector S}.
Import PluginManager.
Implicit Types (pm : PluginManager.t S) (w : World) (config : IChannelPluginConfig).

Lemma has_get {V} k (m : JsMap.t V) :
  JsMap.has k m = false ↔ JsMap.get k m = None.
Proof. unfold JsMap.has. destruct (JsMap.get k m); split; done. Qed.

Lemma has_keys {V} k (m : JsMap.t V) :
  JsMap.has k m = true ↔ k ∈ JsMap.keys m.
Proof.
  destruct (JsMap.has k m) eqn:E.
  - split; [intros _|done]. destruct (decide (k ∈ JsMap.keys m)); [done|].
    apply JsMap_get_None in n. apply has_get in n. congruence.
  - split; [done|]. intros Hin. apply has_get, JsMap_get_None in E. done.
Qed.

Lemma start_failed_run id config errorMsg thrown pm w :
  start_failed id config errorMsg thrown pm w
  = (Ok (Throw thrown, with_errors (insert id errorMsg) pm),
     mkWorld (Db.updateChannelPluginStatus id error None (clock w (tick w)) (db w))
       (clock w) (Datatypes.S (tick w)) (random w) (rnd w) (randomBytes w) (rb w)
       (uuids w) (uu w)
       (bridge w ++ [pluginStatusChanged id
          (mkPluginStatus (cfg_id config) (cfg_type config) (cfg_name config)
             (cfg_enabled config) false error (cfg_lastConnected config)
             (Some errorMsg) 0%nat None (hasToken config))])).
Proof. done. Qed.

Lemma plugins_updated_status id status lastConnected now (d : Database) c :
  c ∈ assistant_plugins d → cfg_id c = id →
  ∃ c', c' ∈ assistant_plugins (Db.updateChannelPluginStatus id status lastConnected now d)
        ∧ cfg_id c' = id ∧ cfg_status c' = status.
Proof.
  intros Hc Hid. eexists. split.
  - unfold Db.updateChannelPluginStatus. simpl.
    apply list_elem_of_fmap_2. exact Hc.
  - by rewrite decide_True.
Qed.

Lemma getChannelPlugin_updated id status lastConnected now (d : Database) c :
  c ∈ assistant_plugins d → cfg_id c = id →
  ∃ c', Db.getChannelPlugin id
          (Db.updateChannelPluginStatus id status lastConnected now d) = QOk (Some c')
        ∧ cfg_status c' = status.
Proof.
  unfold Db.getChannelPlugin, Db.updateChannelPluginStatus. simpl.
  induction (assistant_plugins d) as [|x l IH]; csimpl.
  - intros H. by apply elem_of_nil in H.
  - intros Hin Hid. destruct (decide (cfg_id x = id)) as [Hx|Hx].
    + simpl. rewrite bool_decide_eq_true_2 by done. by eexists.
    + rewrite bool_decide_eq_false_2 by done.
      apply elem_of_cons in Hin as [->|Hin]; [done|]. by apply IH.
Qed.

(** The outcome of [startPlugin] when the instance fails to come up. *)
Lemma startPlugin_fails_as config pm w fresh prefix message :
  JsMap.has (cfg_id config) (plugins pm) = false →
  pluginRegistry pm (cfg_type config) = Some fresh →
  ((BasePlugin.initialize config (BasePlugin.new fresh)).1 = Throw message
   ∧ prefix = "Plugin initialization failed: ")
  ∨ (∃ p, BasePlugin.initialize config (BasePlugin.new fresh) = (Ok tt, p)
          ∧ (BasePlugin.start (attach_handlers pm p)).1 = Throw message
          ∧ prefix = "Plugin start failed: ") →
  startPlugin config pm w
  = start_failed (cfg_id config) config (prefix +:+ message) message
      (with_errors (delete (cfg_id config)) pm) w.
Proof.
  intros Hhas Hreg Hthrows. unfold startPlugin. simpl. rewrite Hhas, Hreg.
  destruct Hthrows as [[Hi ->]|(p & Hi & Hs & ->)].
  - destruct (BasePlugin.initialize _ _) as [[[]|msg] p]; simpl in Hi; [done|].
    by injection Hi as ->.
  - rewrite Hi.
    destruct (BasePlugin.start _) as [[[]|msg] p']; simpl in Hs; [done|].
    by injection Hs as ->.
Qed.
End PluginManager_facts.

(** C7. If the plugin's [initialize()] or [start()] throws during
    [startPlugin], the manager caches the error text for the plugin id (the
    thrown message after the prefix of the step that failed), stores status
    [error] for the plugin, emits a status-changed event carrying that
    status and text, and rethrows the error; afterwards the plugin is not
    in the running-instance map, and the status query reports status
    [error] with the cached text for it. *)
Theorem startPlugin_failure {S : Type} `{!Connector S}
    (config : IChannelPluginConfig) (pm : PluginManager.t S) (w : World)
    (fresh : S) (prefix message : string) :
  JsMap.has (cfg_id config) (PluginManager.plugins pm) = false →
  PluginManager.pluginRegistry pm (cfg_type config) = Some fresh →
  ((BasePlugin.initialize config (BasePlugin.new fresh)).1 = Throw message
   ∧ prefix = "Plugin initialization failed: ")
  ∨ (∃ p, BasePlugin.initialize config (BasePlugin.new fresh) = (Ok tt, p)
          ∧ (BasePlugin.start (PluginManager.attach_handlers pm p)).1 = Throw message
          ∧ prefix = "Plugin start failed: ") →
  ∃ pm' w',
    PluginManager.startPlugin config pm w = (Ok (Throw message, pm'), w')
    ∧ PluginManager.getPluginError (cfg_id config) pm' = Some (prefix +:+ message)
    ∧ PluginManager.getPlugin (cfg_id config) pm' = None
    ∧ (∃ st, bridge w' = bridge w ++ [pluginStatusChanged (cfg_id config) st]
             ∧ ps_status st = error ∧ ps_error st = Some (prefix +:+ message))
    ∧ (∀ c, c ∈ assistant_plugins (db w) → cfg_id c = cfg_id config →
         (∃ c', Db.getChannelPlugin (cfg_id config) (db w') = QOk (Some c')
                ∧ cfg_status c' = error)
         ∧ ∃ l w'', PluginManager.getPluginStatuses pm' w' = (Ok l, w'')
             ∧ ∃ st, st ∈ l ∧ ps_id st = cfg_id config ∧ ps_status st = error
                     ∧ ps_error st = Some (prefix +:+ message)).
Proof.
  intros Hhas Hreg Hthrows.
  rewrite (startPlugin_fails_as _ _ _ _ _ _ Hhas Hreg Hthrows).
  rewrite start_failed_run. eexists _, _. split; [reflexivity|].
  assert (PluginManager.getPlugin (cfg_id config)
            (PluginManager.with_errors (insert (cfg_id config) (prefix +:+ message))
               (PluginManager.with_errors (delete (cfg_id config)) pm)) = None) as Habsent.
  { unfold PluginManager.getPlugin. simpl. by apply has_get. }
  split; [|split; [exact Habsent|split]].
  - unfold PluginManager.getPluginError. simpl. apply lookup_insert_eq.
  - by eexists.
  - intros c Hc Hid. simpl. split.
    + by eapply getChannelPlugin_updated.
    + unfold PluginManager.getPluginStatuses, bind, query, ret. simpl.
      eexists _, _. split; [reflexivity|].
      destruct (plugins_updated_status (cfg_id config) error None
                  (clock w (tick w)) (db w) c Hc Hid) as (c' & Hc' & Hid' & Hst').
      exists (PluginManager.buildPluginStatus c'
                (PluginManager.with_errors (insert (cfg_id config) (prefix +:+ message))
                   (PluginManager.with_errors (delete (cfg_id config)) pm))).
      split.
      * apply list_elem_of_fmap. exists c'. split; [done|].
        apply elem_of_order_by_desc. exact Hc'.
      * unfold PluginManager.getPlugin in Habsent.
        unfold PluginManager.buildPluginStatus. rewrite Hid', Habsent. simpl.
        split; [done|]. split; [done|]. apply lookup_insert_eq.
Qed.

Lemma startPlugin_failure_witness :
  ∃ pm' w',
    PluginManager.startPlugin Demo.telegram_config
      (PluginManager.new (Demo.registry Demo.bad_token_bot)) Demo.world
    = (Ok (Throw "401: Unauthorized", pm'), w')
    ∧ PluginManager.getPluginError "telegram_default" pm'
      = Some "Plugin start failed: 401: Unauthorized"
    ∧ PluginManager.getPlugin "telegram_default" pm' = None
    ∧ (∃ st, bridge w' = bridge Demo.world ++ [pluginStatusChanged "telegram_default" st]
             ∧ ps_status st = error
             ∧ ps_error st = Some "Plugin start failed: 401: Unauthorized")
    ∧ (∀ c, c ∈ assistant_plugins (db Demo.world) → cfg_id c = "telegram_default" →
         (∃ c', Db.getChannelPlugin "telegram_default" (db w') = QOk (Some c')
                ∧ cfg_status c' = error)
         ∧ ∃ l w'', PluginManager.getPluginStatuses pm' w' = (Ok l, w'')
             ∧ ∃ st, st ∈ l ∧ ps_id st = "telegram_default" ∧ ps_status st = error
                     ∧ ps_error st = Some "Plugin start failed: 401: Unauthorized").
Proof.
  apply (startPlugin_failure Demo.telegram_config
           (PluginManager.new (Demo.registry Demo.bad_token_bot)) Demo.world
           Demo.bad_token_bot "Plugin start failed: " "401: Unauthorized").
  - reflexivity.
  - reflexivity.
  - right. eexists. split; [reflexivity|]. split; reflexivity.
Defined.

Section PluginManager_invariant.
Context {S : Type} `{!Connector S}.
Import PluginManager.
Implicit Types (pm : PluginManager.t S) (w : World) (config : IChannelPluginConfig).

Lemma Inv_new registry : Inv (S:=S) (new registry).
Proof.
  split; [constructor|]. intros id Hid. by apply elem_of_nil in Hid.
Qed.

Lemma Inv_clear_error id pm : Inv pm → Inv (with_errors (delete id) pm).
Proof.
  intros [Hnd Herr]. split; [done|]. intros id' Hid'. simpl.
  destruct (decide (id = id')) as [->|Hne].
  - apply lookup_delete_eq.
  - rewrite lookup_delete_ne by done. by apply Herr.
Qed.

Lemma Inv_cache_error id msg pm :
  JsMap.has id (plugins pm) = false → Inv pm → Inv (with_errors (insert id msg) pm).
Proof.
  intros Hhas [Hnd Herr]. split; [done|]. intros id' Hid'. simpl.
  rewrite lookup_insert_ne; [by apply Herr|]. intros ->.
  apply has_keys in Hid'. simpl in Hid'. congruence.
Qed.

Lemma Inv_register id plugin pm :
  Inv pm → pluginErrors pm !! id = None → Inv (with_plugins (JsMap.set id plugin) pm).
Proof.
  intros [Hnd Herr] Hid. split; simpl.
  - by apply JsMap_NoDup_set.
  - intros id'. rewrite JsMap_keys_set. case_bool_decide.
    + apply Herr.
    + intros [?| ->%list_elem_of_singleton]%elem_of_app; [by apply Herr | done].
Qed.

Lemma Inv_unregister id pm : Inv pm → Inv (with_plugins (JsMap.delete id) pm).
Proof.
  intros [Hnd Herr]. split; simpl.
  - by apply JsMap_keys_delete.
  - intros id' Hid'. apply Herr.
    apply list_elem_of_fmap in Hid' as ([k v] & -> & Hin).
    apply JsMap_delete_sub in Hin. apply list_elem_of_fmap. by exists (k, v).
Qed.

(** [startPlugin] always returns to its caller, with a manager that
    satisfies the invariant. *)
Lemma startPlugin_Inv config pm w :
  Inv pm → ∃ r pm' w', startPlugin config pm w = (Ok (r, pm'), w') ∧ Inv pm'.
Proof.
  intros HInv. apply (Inv_clear_error (cfg_id config)) in HInv.
  unfold startPlugin.
  set (pm0 := with_errors (delete (cfg_id config)) pm) in *.
  change (plugins (with_errors _ pm)) with (plugins pm0).
  destruct (JsMap.has (cfg_id config) (plugins pm0)) eqn:Hhas;
    [by eexists _, _, _|].
  change (pluginRegistry (with_errors _ pm)) with (pluginRegistry pm0).
  destruct (pluginRegistry pm0 (cfg_type config)) as [fresh|].
  2:{ eexists _, _, _. split; [reflexivity|]. by apply Inv_cache_error. }
  destruct (BasePlugin.initialize _ _) as [[[]|msg] p].
  2:{ rewrite start_failed_run. eexists _, _, _. split; [reflexivity|].
      by apply Inv_cache_error. }
  destruct (BasePlugin.start _) as [[[]|msg] p'].
  2:{ rewrite start_failed_run. eexists _, _, _. split; [reflexivity|].
      by apply Inv_cache_error. }
  unfold emitStatusChange. unfold bind, Date_now, exec, query, ret, emit. simpl.
  destruct (js_find _ _); eexists _, _, _; (split; [reflexivity|]);
    apply Inv_register; try done; subst pm0; simpl; apply lookup_delete_eq.
Qed.

Lemma stopPlugin_Inv pluginId pm w :
  Inv pm → ∃ r pm' w', stopPlugin pluginId pm w = (Ok (r, pm'), w') ∧ Inv pm'.
Proof.
  intros HInv. unfold stopPlugin.
  destruct (JsMap.get pluginId (plugins pm)) as [plugin|] eqn:Hget;
    [|by eexists _, _, _].
  destruct (BasePlugin.stop plugin) as [[[]|msg] p'].
  - unfold emitStatusChange. unfold bind, Date_now, exec, query, ret, emit. simpl.
    destruct (js_find _ _); eexists _, _, _; (split; [reflexivity|]);
      by apply Inv_unregister.
  - eexists _, _, _. split; [reflexivity|]. destruct HInv as [Hnd Herr].
    assert (pluginId ∈ JsMap.keys (plugins pm)) as Hin.
    { apply JsMap_get_elem in Hget. apply list_elem_of_fmap. by exists (pluginId, plugin). }
    split; simpl.
    + by apply JsMap_NoDup_set.
    + intros id. rewrite JsMap_keys_set, bool_decide_eq_true_2 by done. apply Herr.
Qed.

Lemma plugins_step_Inv (st : State) op : Inv st.2 → Inv (step st op).2.
Proof.
  destruct st as [w pm]. simpl. intros HInv. destruct op.
  - destruct (startPlugin_Inv config pm w HInv) as (?&?&?& -> &?). done.
  - destruct (stopPlugin_Inv pluginId pm w HInv) as (?&?&?& -> &?). done.
Qed.

Lemma plugins_run_Inv ops (st : State) : Inv st.2 → Inv (run ops st).2.
Proof.
  revert st. induction ops as [|op ops IH]; intros st HInv; simpl; [done|].
  apply IH. by apply plugins_step_Inv.
Qed.

Lemma filter_key_get {V} (m : JsMap.t V) k v :
  NoDup (JsMap.keys m) → JsMap.get k m = Some v →
  filter (λ e, e.1 = k) m = [(k, v)].
Proof.
  unfold JsMap.keys. induction m as [|[k0 v0] m IH]; [done|].
  rewrite fmap_cons, NoDup_cons. intros [Hk Hnd]. cbn [JsMap.get].
  rewrite filter_cons. cbn [fst].
  destruct (decide (k0 = k)) as [->|Hne].
  - intros [= ->]. f_equal. apply elem_of_nil_inv.
    intros [k' v'] [Hk' Hin]%list_elem_of_filter. simpl in Hk'. subst k'.
    apply Hk. apply list_elem_of_fmap. by exists (k, v').
  - by apply IH.
Qed.

Lemma runtimes_get id pm plugin :
  NoDup (JsMap.keys (plugins pm)) → JsMap.get id (plugins pm) = Some plugin →
  runtimes id pm = [plugin].
Proof.
  intros Hnd Hget. unfold runtimes. by rewrite (filter_key_get _ _ plugin).
Qed.

Lemma runtimes_length id pm :
  NoDup (JsMap.keys (plugins pm)) → (length (runtimes id pm) ≤ 1)%nat.
Proof.
  intros Hnd. unfold runtimes. rewrite length_fmap.
  by apply NoDup_fmap_filter_length.
Qed.

(** With the id already in the map, [startPlugin] does nothing at all. *)
Lemma startPlugin_already_running config pm w :
  Inv pm → JsMap.has (cfg_id config) (plugins pm) = true →
  startPlugin config pm w = (Ok (Ok tt, pm), w).
Proof.
  intros [Hnd Herr] Hhas. unfold startPlugin. simpl. rewrite Hhas.
  assert (with_errors (delete (cfg_id config)) pm = pm) as ->; [|done].
  destruct pm as [reg pl mh ch errs]. unfold with_errors. simpl in *. f_equal.
  apply delete_id, Herr. by apply has_keys.
Qed.

(** When the plugin's [stop()] returns, [stopPlugin] takes it out of the
    map. *)
Lemma stopPlugin_removes pluginId pm w plugin :
  Inv pm → getPlugin pluginId pm = Some plugin →
  (BasePlugin.stop plugin).1 = Ok tt →
  ∃ pm' w', stopPlugin pluginId pm w = (Ok (Ok tt, pm'), w')
            ∧ getPlugin pluginId pm' = None.
Proof.
  intros [Hnd Herr] Hget Hstop. unfold getPlugin in *. unfold stopPlugin.
  rewrite Hget. destruct (BasePlugin.stop plugin) as [[[]|msg] p']; [|done].
  unfold emitStatusChange. unfold bind, Date_now, exec, query, ret, emit. simpl.
  destruct (js_find _ _); eexists _, _; (split; [reflexivity|]); simpl;
    by apply JsMap_get_None, JsMap_keys_delete.
Qed.

(** When the plugin's [stop()] throws, [stopPlugin] throws the same error
    and the instance stays in the map; nothing is stored or emitted. *)
Lemma stopPlugin_rethrows pluginId pm w plugin err :
  getPlugin pluginId pm = Some plugin →
  (BasePlugin.stop plugin).1 = Throw err →
  ∃ pm', stopPlugin pluginId pm w = (Ok (Throw err, pm'), w)
         ∧ getPlugin pluginId pm' = Some (BasePlugin.stop plugin).2.
Proof.
  intros Hget Hstop. unfold getPlugin in *. unfold stopPlugin.
  rewrite Hget. destruct (BasePlugin.stop plugin) as [[[]|msg] p']; [done|].
  simpl in Hstop. injection Hstop as ->.
  eexists. split; [reflexivity|]. simpl. by rewrite JsMap_get_set_eq.
Qed.

(** After a [stopPlugin] that returned normally the id is not in the
    map. *)
Lemma stopPlugin_Ok_absent pluginId pm w pm1 w1 :
  Inv pm → stopPlugin pluginId pm w = (Ok (Ok tt, pm1), w1) →
  JsMap.has pluginId (plugins pm1) = false.
Proof.
  intros [Hnd Herr]. unfold stopPlugin.
  destruct (JsMap.get pluginId (plugins pm)) as [plugin|] eqn:Hget.
  - destruct (BasePlugin.stop plugin) as [[[]|msg] p']; [|done].
    unfold emitStatusChange. unfold bind, Date_now, exec, query, ret, emit. simpl.
    destruct (js_find _ _); intros [= <- _]; simpl;
      by apply has_get, JsMap_get_None, JsMap_keys_delete.
  - intros [= <- _]. by apply has_get.
Qed.

(** A [startPlugin] that returned normally on an absent id put a running
    instance in the map. *)
Lemma startPlugin_Ok_running config pm w pm2 w2 :
  JsMap.has (cfg_id config) (plugins pm) = false →
  startPlugin config pm w = (Ok (Ok tt, pm2), w2) →
  ∃ plugin, JsMap.get (cfg_id config) (plugins pm2) = Some plugin
            ∧ BasePlugin.status plugin = running.
Proof.
  intros Hhas. unfold startPlugin. simpl. rewrite Hhas.
  destruct (pluginRegistry pm (cfg_type config)) as [fresh|]; [|done].
  destruct (BasePlugin.initialize _ _) as [[[]|msg] p]; [|by rewrite start_failed_run].
  destruct (BasePlugin.start _) as [[[]|msg] p'] eqn:Hstart;
    [|by rewrite start_failed_run].
  apply start_Ok_running in Hstart.
  unfold emitStatusChange. unfold bind, Date_now, exec, query, ret, emit. simpl.
  destruct (js_find _ _); intros [= <- _]; simpl; exists p';
    by rewrite JsMap_get_set_eq.
Qed.
End PluginManager_invariant.




(** ** ActionExecutor: the throttled editor *)

Section Chat_facts.
Context {S : Type} `{!Connector S}.
Import ActionExecutor.
Implicit Types (st : Exec S) (c : Chat) (ctx : IActionContext).

Lemma throttled_edits_app (l1 l2 : list Effect) :
  throttled_edits (l1 ++ l2) = throttled_edits l1 ++ throttled_edits l2.
Proof.
  induction l1 as [|e l1 IH]; simpl; [done|].
  destruct e as [| | |[]| | | | | | |]; simpl; by rewrite ?IH.
Qed.

Lemma spaced_snoc times t :
  spaced times → Forall (λ a, a + UPDATE_THROTTLE_MS ≤ t) times →
  spaced (times ++ [t]).
Proof.
  unfold spaced. induction 1 as [|a l Hl IH Ha]; simpl; intros Hall.
  - repeat constructor.
  - apply Forall_cons in Hall as [Hat Hall]. constructor; [by apply IH|].
    apply Forall_app. split; [done|]. by constructor.
Qed.

Lemma log_ok_refl c st : log_ok (log st) c st.
Proof.
  exists []. rewrite app_nil_r. repeat split; constructor.
Qed.

(** An effect that is no edit of the throttled editor nor the final
    edit may be added freely. *)
Lemma log_ok_other base c c' st st' e :
  log_ok base c st → log st' = log st ++ [e] →
  throttled_edits [e] = [] → is_final e = false →
  lastUpdateTime c' = lastUpdateTime c → log_ok base c' st'.
Proof.
  intros (new & Hlog & Hsp & Hle & Hnf) Hlog' He Hf Hlut.
  exists (new ++ [e]). rewrite Hlog', Hlog, app_assoc.
  rewrite throttled_edits_app, He, app_nil_r, Hlut.
  repeat split; try done. apply Forall_app. split; [done|]. by constructor.
Qed.

Lemma doEditMessage_spec ctx tid msg base c st :
  clock_monotone (world st) → log_ok base c st →
  lastUpdateTime c + UPDATE_THROTTLE_MS ≤ clock (world st) (tick (world st)) →
  ∃ c' st', doEditMessage ctx tid msg c st = (Ok c', st')
    ∧ log_ok base c' st' ∧ later (world st) (world st')
    ∧ lastUpdateTime c' = clock (world st) (tick (world st))
    ∧ pendingUpdateTimer c' = pendingUpdateTimer c
    ∧ pendingMessage c' = pendingMessage c
    ∧ lastMessageContent c' = lastMessageContent c.
Proof.
  intros Hmono (new & Hlog & Hsp & Hle & Hnf) Hwin.
  unfold doEditMessage. unfold bind at 1, in_world at 1, Date_now at 1.
  cbn [world sessions plugin log clock tick].
  set (now := clock (world st) (tick (world st))) in *.
  unfold bind, ignore_errors, try_catch, ctx_editMessage, ret.
  cbn [world sessions plugin log clock tick].
  assert (∀ target result,
            spaced (throttled_edits (new ++ [EffEdit (Throttled now) target msg result]))
            ∧ Forall (λ t, t ≤ now)
                (throttled_edits (new ++ [EffEdit (Throttled now) target msg result]))
            ∧ Forall (λ e, is_final e = false)
                (new ++ [EffEdit (Throttled now) target msg result])) as Hnew.
  { intros target result. rewrite throttled_edits_app. simpl. split; [|split].
    - apply spaced_snoc; [done|]. eapply Forall_impl; [exact Hle|]. simpl. lia.
    - apply Forall_app. split.
      + eapply Forall_impl; [exact Hle|]. simpl. unfold UPDATE_THROTTLE_MS in Hwin. lia.
      + by repeat constructor.
    - apply Forall_app. split; [done|]. by constructor. }
  destruct (BasePlugin.edit _ _ _ _) as [[[]|err] p'];
    eexists _, _; (split; [reflexivity|]);
    cbn [world log lastUpdateTime pendingUpdateTimer pendingMessage
           lastMessageContent clock tick].
  all: split; [|repeat split; simpl; try done; lia].
  all: eexists (new ++ [_]); rewrite Hlog, app_assoc; split; [reflexivity|];
    apply Hnew.
Qed.

Lemma onEvent_spec ctx tid message isInsert base c st :
  clock_monotone (world st) → log_ok base c st → timer_ok c →
  ∃ c' st', onEvent ctx tid message isInsert c st = (Ok c', st')
    ∧ log_ok base c' st' ∧ timer_ok c' ∧ later (world st) (world st')
    ∧ lastMessageContent c' = Some (convertTMessageToOutgoing message false).
Proof.
  intros Hmono Hlog Htimer.
  unfold onEvent. unfold bind at 1, in_world at 1, Date_now at 1.
  cbn [world sessions plugin log clock tick].
  set (now := clock (world st) (tick (world st))).
  set (st1 := mkExec _ _ _ _).
  assert (later (world st) (world st1)) as Hl1 by (split; simpl; [done|lia]).
  assert (clock_monotone (world st1)) as Hmono1 by done.
  destruct isInsert.
  - (* a new message *)
    unfold try_catch, bind, ctx_sendMessage, ret.
    destruct (BasePlugin.send _ _ _) as [[newMsgId|err] p'];
      eexists _, _; (split; [reflexivity|]); cbn [world lastMessageContent];
      (split; [|split; [exact Htimer|split; [exact Hl1|done]]]).
    all: eapply (log_ok_other base c); [exact Hlog|reflexivity|done..].
  - (* an update of the current message *)
    cbn [lastUpdateTime pendingUpdateTimer pendingMessage sentMessageIds
           lastMessageContent].
    destruct (decide (UPDATE_THROTTLE_MS ≤ now - lastUpdateTime c)) as [Hfar|Hnear].
    + edestruct (doEditMessage_spec ctx tid (convertTMessageToOutgoing message false)
                   base
                   (mkChat (lastUpdateTime c) None
                      (Some (convertTMessageToOutgoing message false))
                      (sentMessageIds c)
                      (Some (convertTMessageToOutgoing message false))) st1)
        as (c' & st' & Heq & Hlog' & Hl' & Hlut & Htm & _ & Hlast).
      * done.
      * destruct Hlog as (new & ? & ? & ? & ?). by exists new.
      * simpl. assert (now ≤ clock (world st) (Datatypes.S (tick (world st))))
          by (apply Hmono; lia). lia.
      * eexists _, _. split; [exact Heq|].
        split; [done|]. split; [|split; [by eapply later_trans|done]].
        intros due. rewrite Htm. done.
    + eexists _, _. split; [reflexivity|]. cbn [world lastMessageContent].
      split; [|split; [|split; [exact Hl1|done]]].
      * destruct Hlog as (new & ? & ? & ? & ?). by exists new.
      * intros due. simpl. intros [= <-]. lia.
Qed.

Lemma onTimer_spec ctx tid base c st :
  clock_monotone (world st) → log_ok base c st → timer_ok c →
  ∃ c' st', onTimer ctx tid c st = (Ok c', st')
    ∧ log_ok base c' st' ∧ timer_ok c' ∧ later (world st) (world st')
    ∧ lastMessageContent c' = lastMessageContent c.
Proof.
  intros Hmono Hlog Htimer. unfold onTimer.
  destruct (pendingUpdateTimer c) as [due|] eqn:Hdue.
  2:{ eexists _, _. split; [reflexivity|]. by repeat split. }
  destruct (decide _) as [Hnow|Hnot].
  2:{ eexists _, _. split; [reflexivity|]. by repeat split. }
  destruct (pendingMessage c) as [msg|].
  - edestruct (doEditMessage_spec ctx tid msg base c st)
      as (c' & st' & Heq & Hlog' & Hl' & Hlut & Htm & _ & Hlast); [done..| |].
    { specialize (Htimer due Hdue). lia. }
    unfold bind at 1. unfold bind at 1. rewrite Heq. unfold ret, bind.
    eexists _, _. split; [reflexivity|].
    cbn [lastUpdateTime pendingUpdateTimer lastMessageContent].
    split; [|split; [done|split; [done|done]]].
    destruct Hlog' as (new & ? & ? & ? & ?). by exists new.
  - unfold bind, ret. eexists _, _. split; [reflexivity|].
    cbn [lastUpdateTime pendingUpdateTimer lastMessageContent].
    split; [|split; [done|split; [apply later_refl|done]]].
    destruct Hlog as (new & ? & ? & ? & ?). by exists new.
Qed.

Lemma run_stream_spec ctx tid steps base c st acc :
  clock_monotone (world st) → log_ok base c st → timer_ok c →
  lastMessageContent c = (λ m, convertTMessageToOutgoing m false) <$> acc →
  ∃ c' st', run_stream ctx tid steps c st = (Ok c', st')
    ∧ log_ok base c' st' ∧ later (world st) (world st')
    ∧ lastMessageContent c'
      = (λ m, convertTMessageToOutgoing m false) <$> last_event steps acc.
Proof.
  revert c st acc. induction steps as [|[message isInsert|] steps IH];
    intros c st acc Hmono Hlog Htimer Hlast; simpl.
  - eexists _, _. split; [reflexivity|]. split; [done|]. split; [apply later_refl|done].
  - destruct (onEvent_spec ctx tid message isInsert base c st Hmono Hlog Htimer)
      as (c1 & st1 & Heq & Hlog1 & Htimer1 & Hl1 & Hlast1).
    unfold bind. rewrite Heq.
    destruct (IH c1 st1 (Some message)) as (c' & st' & Heq' & ? & ? & ?);
      [by eapply clock_monotone_later|done..|].
    eexists _, _. split; [exact Heq'|]. split; [done|].
    split; [by eapply later_trans|done].
  - destruct (onTimer_spec ctx tid base c st Hmono Hlog Htimer)
      as (c1 & st1 & Heq & Hlog1 & Htimer1 & Hl1 & Hlast1).
    unfold bind. rewrite Heq.
    destruct (IH c1 st1 acc) as (c' & st' & Heq' & ? & ? & ?);
      [by eapply clock_monotone_later|done|done|congruence|].
    eexists _, _. split; [exact Heq'|]. split; [done|].
    split; [by eapply later_trans|done].
Qed.
End Chat_facts.

Section Chat_theorem.
Context {S : Type} `{!Connector S}.
Import ActionExecutor.
Implicit Types (st : Exec S) (c : Chat) (ctx : IActionContext).

Lemma updateSessionActivity_later userId m w :
  ∃ m' w', SessionManager.updateSessionActivity userId m w = (Ok m', w')
           ∧ later w w'.
Proof.
  unfold SessionManager.updateSessionActivity.
  destruct (JsMap.get userId m); eexists _, _; (split; [reflexivity|]);
    split; simpl; try done; lia.
Qed.

Lemma touch_activity_spec ctx st :
  ∃ st1, touch_activity ctx st = (Ok tt, st1)
    ∧ plugin st1 = plugin st ∧ log st1 = log st ∧ later (world st) (world st1).
Proof.
  unfold touch_activity. destruct (ctx_channelUser ctx) as [u|].
  - unfold in_sessions, bind.
    destruct (updateSessionActivity_later (usr_id u) (sessions st) (world st))
      as (m' & w' & -> & Hl).
    eexists. split; [reflexivity|]. split; [done|]. split; [done|]. exact Hl.
  - eexists. split; [reflexivity|]. split; [done|]. split; [done|]. apply later_refl.
Qed.

Lemma throttled_edits_not_throttled e :
  (∀ t id msg r, e ≠ EffEdit (Throttled t) id msg r) → throttled_edits [e] = [].
Proof.
  intros He. destruct e as [| | |[t| |] id msg r| | | | | | |]; try done.
  by destruct (He t id msg r).
Qed.

Lemma handleChatMessage_spec ctx text collab st :
  clock_monotone (world st) →
  ∃ r st' new,
    handleChatMessage ctx text collab st = (r, st')
    ∧ log st' = log st ++ new
    ∧ spaced (throttled_edits new)
    ∧ (∀ thinkingMsgId m,
         (BasePlugin.send (ctx_chatId ctx) thinking (plugin st)).1 = Ok thinkingMsgId →
         truthy (ctx_sessionId ctx) = true →
         truthy (ctx_conversationId ctx) = true →
         stream_outcome collab = Ok tt →
         last_event (stream collab) None = Some m →
         ∃ pre target result,
           new = pre ++ [EffEdit Final target
                           (with_actions (convertTMessageToOutgoing m false)) result]
           ∧ Forall (λ e, is_final e = false) pre).
Proof.
  intros Hmono. unfold handleChatMessage.
  destruct (touch_activity_spec ctx st) as (st1 & Hact & Hplug & Hlog1 & Hl1).
  unfold bind at 1. rewrite Hact.
  assert (clock_monotone (world st1)) as Hmono1 by by eapply clock_monotone_later.
  unfold bind at 1, ctx_sendMessage at 1. rewrite Hplug.
  destruct (BasePlugin.send (ctx_chatId ctx) thinking (plugin st))
    as [[tid|err] p2] eqn:Hsend.
  2:{ (* the placeholder could not be sent *)
      eexists _, _, [_]. split; [reflexivity|]. simpl. rewrite Hlog1.
      split; [done|]. split; [constructor|]. intros ? ? [=]. }
  set (st2 := mkExec (world st1) (sessions st1) p2
                (log st1 ++ [EffSend thinking (Ok tid)])).
  unfold try_catch.
  destruct (truthy (ctx_sessionId ctx) && truthy (ctx_conversationId ctx)) eqn:Hready.
  2:{ (* session not initialized: the edit of the [catch] *)
      unfold throw, ctx_editMessage. cbn [world sessions plugin log].
      destruct (BasePlugin.edit _ _ _ _) as [r p3].
      eexists _, _, [_; _]. split; [reflexivity|]. simpl. rewrite Hlog1.
      split; [by rewrite <- app_assoc|]. split; [constructor|].
      intros ? ? _ H1 H2. rewrite H1, H2 in Hready. done. }
  destruct (run_stream_spec ctx tid (stream collab) (log st2)
              (mkChat 0 None None [tid] None) st2 None)
    as (c' & st3 & Hrun & (new3 & Hlog3 & Hsp3 & _ & Hnf3) & Hl3 & Hlast);
    [done|apply log_ok_refl|done|done|].
  unfold bind at 1. rewrite Hrun.
  destruct (stream_outcome collab) as [[]|message] eqn:Hout.
  - (* the stream completed: the final edit *)
    unfold ignore_errors, try_catch, ctx_editMessage, ret.
    cbn [world sessions plugin log lastMessageContent].
    destruct (BasePlugin.edit _ _ _ _) as [[[]|err] p4].
    all: eexists _, _, ([EffSend thinking (Ok tid)] ++ new3 ++ [_]);
      (split; [reflexivity|]); cbn [log]; rewrite Hlog3; subst st2; cbn [log];
      rewrite Hlog1; (split; [by rewrite <- !app_assoc|]).
    all: split;
      [simpl; rewrite throttled_edits_app; simpl; by rewrite app_nil_r|].
    all: intros tid' m _ _ _ _ Hm; rewrite Hm in Hlast; simpl in Hlast;
      rewrite Hlast; eexists ([EffSend thinking (Ok tid)] ++ new3), _, _;
      (split; [by rewrite <- app_assoc|]);
      apply Forall_app; split; [by repeat constructor | done].
  - (* the agent failed: the edit of the [catch] *)
    unfold throw, ctx_editMessage. cbn [world sessions plugin log].
    destruct (BasePlugin.edit _ _ _ _) as [r p4].
    eexists _, _, ([EffSend thinking (Ok tid)] ++ new3 ++ [_]).
    split; [reflexivity|]. cbn [log]. rewrite Hlog3. subst st2. cbn [log].
    rewrite Hlog1. split; [by rewrite <- !app_assoc|].
    split; [simpl; rewrite throttled_edits_app; simpl; by rewrite app_nil_r|].
    intros ? ? _ _ _ [=].
Qed.
End Chat_theorem.

(** C1. Whatever events the agent streams, and whenever the pending timer
    fires, the edits issued by the throttled editor ([doEditMessage]) of
    [handleChatMessage] are pairwise at least [UPDATE_THROTTLE_MS] = 500 ms
    apart, so at most one of them falls in a throttle window; and when the
    stream completes, the last effect is the final edit, it is the only
    final edit, and it carries the content of the last event of the stream
    with the response-actions keyboard attached, wherever in the throttle
    window that event arrived. *)
Theorem streaming_throttle {S : Type} `{!Connector S}
    (ctx : IActionContext) (text : string) (collab : Collaborators)
    (st : ActionExecutor.Exec S) :
  clock_monotone (ActionExecutor.world st) →
  ∃ r st' new,
    ActionExecutor.handleChatMessage ctx text collab st = (r, st')
    ∧ ActionExecutor.log st' = ActionExecutor.log st ++ new
    ∧ ActionExecutor.spaced (ActionExecutor.throttled_edits new)
    ∧ (∀ thinkingMsgId m,
         (BasePlugin.send (ctx_chatId ctx) ActionExecutor.thinking
            (ActionExecutor.plugin st)).1 = Ok thinkingMsgId →
         ActionExecutor.truthy (ctx_sessionId ctx) = true →
         ActionExecutor.truthy (ctx_conversationId ctx) = true →
         stream_outcome collab = Ok tt →
         ActionExecutor.last_event (stream collab) None = Some m →
         ∃ pre target result,
           new = pre ++ [EffEdit Final target
                           (ActionExecutor.with_actions
                              (convertTMessageToOutgoing m false)) result]
           ∧ Forall (λ e, ActionExecutor.is_final e = false) pre).
Proof. apply handleChatMessage_spec. Qed.

(** ** ActionExecutor: the pairing gate *)

Lemma createNewRequest_sessions uid pt dn w r w' :
  PairingService.createNewRequest uid pt dn w = (r, w') →
  assistant_sessions (db w') = assistant_sessions (db w).
Proof.
  unfold PairingService.createNewRequest, PairingService.generateUniqueCode.
  unfold bind at 1.
  destruct (PairingService.generateUniqueCode_loop _ w) as [[c|msg] wa] eqn:Hu.
  2:{ apply generateUniqueCode_loop_quiet in Hu as (Hdb & _). intros [= _ <-].
      by rewrite Hdb. }
  apply generateUniqueCode_loop_quiet in Hu as (Hdb & _).
  unfold bind at 1. simpl. unfold bind at 1, exec_result, Db.createPairingRequest.
  simpl. case_bool_decide; simpl.
  - intros [= _ <-]. simpl. by rewrite Hdb.
  - unfold bind, emit, ret. simpl. intros [= _ <-]. simpl. by rewrite Hdb.
Qed.

Lemma generatePairingCode_sessions uid pt dn w r w' :
  PairingService.generatePairingCode uid pt dn w = (r, w') →
  assistant_sessions (db w') = assistant_sessions (db w).
Proof.
  unfold PairingService.generatePairingCode.
  unfold bind at 1. simpl. unfold bind at 1, query at 1. simpl.
  destruct (js_find _ _) as [existing|].
  - unfold bind at 1. simpl. destruct (decide _).
    + by intros [= _ <-].
    + intros H%createNewRequest_sessions. exact H.
  - intros H%createNewRequest_sessions. exact H.
Qed.

(** [handlePairingShow] always returns a result that carries a message,
    and it leaves the session rows alone. *)
Lemma handlePairingShow_spec uid pt dn w :
  ∃ result msg w', handlePairingShow uid pt dn w = (Ok result, w')
    ∧ res_message result = Some msg
    ∧ assistant_sessions (db w') = assistant_sessions (db w).
Proof.
  unfold handlePairingShow. unfold bind at 1, query at 1.
  destruct (PairingService.isUserAuthorized uid pt (db w)).
  - by eexists _, _, _.
  - unfold try_catch. unfold bind at 1.
    destruct (PairingService.generatePairingCode uid pt dn w) as [[gen|msg] w1] eqn:Hg;
      apply generatePairingCode_sessions in Hg.
    + unfold bind, Date_now, ret. simpl. by eexists _, _, _.
    + by eexists _, _, _.
Qed.

Section Router_facts.
Context {S : Type} `{!Connector S}.
Import ActionExecutor.
Implicit Types (st : Exec S) (ctx : IActionContext).

Lemma show_pairing_spec ctx st :
  ∃ r st' msg result,
    show_pairing ctx st = (r, st')
    ∧ log st' = log st ++ [EffPairingShow; EffSend msg result]
    ∧ r = (λ _, tt) <$> result
    ∧ sessions st' = sessions st
    ∧ assistant_sessions (db (world st')) = assistant_sessions (db (world st)).
Proof.
  unfold show_pairing. unfold bind at 1, note at 1.
  unfold bind at 1, in_world at 1. cbn [world sessions plugin log].
  destruct (handlePairingShow_spec (ctx_userId ctx) (ctx_platform ctx)
              (ctx_displayName ctx) (world st)) as (result & msg & w' & -> & Hmsg & Hses).
  unfold send_result. rewrite Hmsg. unfold bind, ctx_sendMessage, ret.
  cbn [world sessions plugin log].
  destruct (BasePlugin.send _ _ _) as [[id|err] p'];
    eexists _, _, _, _; (split; [reflexivity|]); cbn [world sessions log];
    rewrite <- app_assoc; done.
Qed.

(** The [catch] of [handleIncomingMessage]: one more message. *)
Lemma report_error_spec ctx msg st :
  ∃ r st' result,
    (ctx_sendMessage ctx msg ;;; ret tt) st = (r, st')
    ∧ log st' = log st ++ [EffSend msg result]
    ∧ r = (λ _, tt) <$> result
    ∧ sessions st' = sessions st ∧ world st' = world st.
Proof.
  unfold bind, ctx_sendMessage, ret.
  destruct (BasePlugin.send _ _ _) as [[id|err] p']; by eexists _, _, _.
Qed.

Lemma route_pairing_spec ctx message collab st :
  PairingService.isUserAuthorized (uu_id (in_user message)) (in_platform message)
    (db (world st)) = false
  ∨ is_start message = true →
  ∃ r st' new,
    route ctx message collab st = (r, st')
    ∧ log st' = log st ++ new
    ∧ EffPairingShow ∈ new
    ∧ Forall (λ e, pairing_effect e = true) new
    ∧ delivered r new
    ∧ sessions st' = sessions st
    ∧ assistant_sessions (db (world st')) = assistant_sessions (db (world st)).
Proof.
  intros Hgate. unfold route, try_catch.
  unfold bind at 1, in_world at 1, query at 1. cbn [world sessions plugin log].
  unfold bind at 1, note at 1. cbn [world sessions plugin log].
  set (st1 := mkExec _ _ _ _).
  assert (∀ other : E unit,
            (if is_start message then show_pairing ctx
             else if negb (PairingService.isUserAuthorized
                             (uu_id (in_user message)) (in_platform message)
                             (db (world st)))
                  then show_pairing ctx
                  else other) = show_pairing ctx) as ->.
  { intros other. destruct Hgate as [-> | ->]; [by destruct (is_start message) | done]. }
  destruct (show_pairing_spec ctx st1)
    as (r & st2 & msg & result & -> & Hlog & -> & Hs & Hd).
  destruct result as [id|err]; simpl.
  - eexists _, _, _. split; [reflexivity|]. rewrite Hlog. subst st1.
    cbn [log sessions world] in *. rewrite <- app_assoc.
    split; [reflexivity|]. split; [|split; [|split; [|done]]].
    + apply elem_of_cons. right. left.
    + by repeat constructor.
    + unfold delivered. simpl. split; [|intros ? [=]].
      split; [|done]. intros _. by eexists _, _.
  - destruct (report_error_spec ctx
                (mkOutgoing ("❌ Error processing message: " +:+ err)
                            (Some MainMenuKeyboard)) st2)
      as (r3 & st3 & result3 & -> & Hlog3 & -> & Hs3 & Hw3).
    eexists _, _, _. split; [reflexivity|]. rewrite Hlog3, Hlog. subst st1.
    cbn [log sessions world] in *. rewrite <- !app_assoc.
    split; [reflexivity|]. split; [|split; [|split; [|split; congruence]]].
    + apply elem_of_cons. right. left.
    + by repeat constructor.
    + unfold delivered. simpl. destruct result3 as [id3|err3]; simpl.
      * split; [|intros ? [=]]. split; [|done]. intros _. by eexists _, _.
      * split; [split; [intros [=] | intros (? & ? & [=])]|].
        intros ? [= <-]. by eexists.
Qed.
End Router_facts.




Lemma streaming_throttle_witness :
  ∃ r st' new,
    ActionExecutor.handleChatMessage ChatDemo.context "hello" ChatDemo.agent
      ChatDemo.start = (r, st')
    ∧ ActionExecutor.log st' = ActionExecutor.log ChatDemo.start ++ new
    ∧ ActionExecutor.spaced (ActionExecutor.throttled_edits new)
    ∧ ∃ pre target result,
        new = pre ++ [EffEdit Final target
                        (mkOutgoing "Hello" (Some ResponseActionsKeyboard)) result]
        ∧ Forall (λ e, ActionExecutor.is_final e = false) pre.
Proof.
  destruct (streaming_throttle ChatDemo.context "hello" ChatDemo.agent ChatDemo.start)
    as (r & st' & new & Hrun & Hlog & Hspaced & Hfinal).
  - intros i j Hij. simpl. lia.
  - exists r, st', new. split; [exact Hrun|]. split; [exact Hlog|].
    split; [exact Hspaced|].
    apply (Hfinal "m0" (tm_text "Hello")); vm_compute; reflexivity.
Defined.


(** The rows the example ends with: one for each of the two users. *)
Example sessions_after_example :
  ses_userId <$> assistant_sessions
    (db (SessionManager.run SessionExamples.ops
           (SessionManager.init SessionExamples.process)).1)
  = ["u1"; "u2"].
Proof. vm_compute. reflexivity. Qed.

(** ** The stored requests stay well formed *)

Lemma wf_codes_update code status d :
  wf_codes d → wf_codes (Db.updatePairingRequestStatus code status d).
Proof.
  unfold wf_codes, Db.updatePairingRequestStatus. simpl. intros Hwf.
  apply Forall_fmap. eapply Forall_impl; [exact Hwf|]. intros r Hr. simpl.
  by destruct (decide _).
Qed.

Lemma wf_codes_createNewRequest uid pt dn w r w' :
  wf_codes (db w) → PairingService.createNewRequest uid pt dn w = (r, w') →
  wf_codes (db w').
Proof.
  intros Hwf. unfold PairingService.createNewRequest, PairingService.generateUniqueCode.
  unfold bind at 1.
  destruct (PairingService.generateUniqueCode_loop _ w) as [[c|msg] wa] eqn:Hu;
    apply generateUniqueCode_loop_quiet in Hu as (Hdb & _).
  2:{ intros [= _ <-]. by rewrite Hdb. }
  unfold bind at 1. simpl. unfold bind at 1, exec_result, Db.createPairingRequest.
  simpl. case_bool_decide; simpl.
  - intros [= _ <-]. simpl. by rewrite Hdb.
  - unfold bind, emit, ret. simpl. intros [= _ <-]. simpl.
    unfold wf_codes. simpl. rewrite Hdb. apply Forall_app. split; [done|].
    by repeat constructor.
Qed.

Lemma wf_codes_generatePairingCode uid pt dn w r w' :
  wf_codes (db w) → PairingService.generatePairingCode uid pt dn w = (r, w') →
  wf_codes (db w').
Proof.
  intros Hwf. unfold PairingService.generatePairingCode.
  unfold bind at 1. simpl. unfold bind at 1, query at 1. simpl.
  destruct (js_find _ _) as [existing|].
  - unfold bind at 1. simpl. destruct (decide _).
    + by intros [= _ <-].
    + by apply wf_codes_createNewRequest.
  - by apply wf_codes_createNewRequest.
Qed.

Lemma wf_codes_approvePairing code w r w' :
  wf_codes (db w) → PairingService.approvePairing code w = (r, w') →
  wf_codes (db w').
Proof.
  intros Hwf. unfold PairingService.approvePairing.
  unfold bind at 1, query at 1.
  destruct (PairingService.getPairingRequest code (db w)) as [request|];
    [|by intros [= _ <-]].
  unfold bind at 1. simpl. destruct (decide _).
  { unfold bind, exec, ret. simpl. intros [= _ <-]. by apply wf_codes_update. }
  destruct (decide _); [by intros [= _ <-]|].
  unfold bind at 1, query at 1. simpl.
  destruct (js_find _ (assistant_users (db w))).
  { unfold bind, exec, ret. simpl. intros [= _ <-]. by apply wf_codes_update. }
  unfold bind at 1, Date_now at 1. cbn [db clock tick rb randomBytes].
  unfold bind at 1, crypto_randomBytes_hex at 1. cbn [db clock tick rb randomBytes].
  unfold bind at 1, Date_now at 1. cbn [db clock tick rb randomBytes].
  unfold bind at 1, exec_result at 1. cbn [db clock tick rb randomBytes].
  destruct (Db.createChannelUser _ _) as [[u'|e'] d'] eqn:Hc;
    assert (assistant_pairing_codes d' = assistant_pairing_codes (db w)) as Hd'
      by (unfold Db.createChannelUser in Hc; repeat case_bool_decide;
          injection Hc as _ <-; done).
  - unfold bind, exec, emit, ret. simpl. intros [= _ <-]. simpl.
    apply wf_codes_update. unfold wf_codes. by rewrite Hd'.
  - intros [= _ <-]. unfold wf_codes. simpl. by rewrite Hd'.
Qed.

Lemma wf_codes_rejectPairing code w r w' :
  wf_codes (db w) → PairingService.rejectPairing code w = (r, w') →
  wf_codes (db w').
Proof.
  intros Hwf. unfold PairingService.rejectPairing, bind, query, exec, ret.
  destruct (PairingService.getPairingRequest code (db w)); intros [= _ <-];
    [by apply wf_codes_update | done].
Qed.

Lemma wf_codes_cleanupExpired w r w' :
  wf_codes (db w) → PairingService.cleanupExpired w = (r, w') → wf_codes (db w').
Proof.
  intros Hwf. unfold PairingService.cleanupExpired, bind, exec_result, Date_now, ret.
  simpl. intros [= _ <-]. unfold wf_codes in *. simpl.
  rewrite Forall_forall in Hwf |- *.
  intros x [_ Hx]%list_elem_of_filter. by apply Hwf.
Qed.

Lemma wf_codes_expire_pending uid pt data w r w' :
  wf_codes (db w) → PairingService.expire_pending uid pt data w = (r, w') →
  wf_codes (db w').
Proof.
  revert w. induction data as [|request data IH]; intros w Hwf; simpl.
  - by intros [= _ <-].
  - unfold bind at 1. destruct (PairingService.same_identity uid pt request).
    + unfold exec at 1. apply IH. simpl. by apply wf_codes_update.
    + unfold ret at 1. by apply IH.
Qed.

Lemma wf_codes_refreshPairingCode uid pt dn w r w' :
  wf_codes (db w) → PairingService.refreshPairingCode uid pt dn w = (r, w') →
  wf_codes (db w').
Proof.
  intros Hwf. unfold PairingService.refreshPairingCode.
  unfold bind at 1, Date_now at 1. unfold bind at 1, query at 1.
  cbn [db clock tick]. rewrite getPendingPairingRequests_eq.
  unfold bind at 1.
  destruct (PairingService.expire_pending uid pt _ _) as [[[]|msg] w1] eqn:He;
    apply wf_codes_expire_pending in He; try done.
  - by apply wf_codes_generatePairingCode.
  - by intros [= _ <-].
Qed.

(* ===================================================================== *)
(** * Further properties of the pairing service                           *)
(* ===================================================================== *)

Lemma string_app_cons (c : ascii) (a b : string) :
  String c a +:+ b = String c (a +:+ b).
Proof. reflexivity. Qed.

Lemma string_app_nil_l (b : string) : "" +:+ b = b.
Proof. reflexivity. Qed.

Lemma string_length_app (a b : string) :
  String.length (a +:+ b) = (String.length a + String.length b)%nat.
Proof.
  induction a as [|c a IH]; [done|]. rewrite string_app_cons. simpl. by rewrite IH.
Qed.

Lemma list_ascii_app (a b : string) :
  String.list_ascii_of_string (a +:+ b)
  = String.list_ascii_of_string a ++ String.list_ascii_of_string b.
Proof.
  induction a as [|c a IH]; [done|]. rewrite string_app_cons. simpl. by rewrite IH.
Qed.

Lemma string_app_nil (a : string) : a +:+ "" = a.
Proof.
  induction a as [|c a IH]; [done|]. rewrite string_app_cons. by rewrite IH.
Qed.

Lemma string_app_assoc (a b c : string) : (a +:+ b) +:+ c = a +:+ (b +:+ c).
Proof.
  induction a as [|x a IH]; [done|]. rewrite !string_app_cons. by rewrite IH.
Qed.

Lemma chars_digit (i : nat) :
  (i < 10)%nat →
  ∃ c, nth i PairingService.chars "" = String c EmptyString ∧ is_digit c.
Proof.
  intros Hi. unfold is_digit.
  do 10 (destruct i as [|i]; [eexists; split; [reflexivity|]; simpl; set_solver|]).
  lia.
Qed.

Lemma generateRandomCode_loop_digits n s w :
  ∃ d w', PairingService.generateRandomCode_loop n s w = (Ok (s +:+ d), w')
    ∧ String.length d = n
    ∧ Forall is_digit (String.list_ascii_of_string d)
    ∧ rnd w' = (rnd w + n)%nat.
Proof.
  revert s w. induction n as [|n IH]; intros s w.
  - exists "", w. simpl. unfold ret. split; [|by repeat split].
    by rewrite string_app_nil.
  - destruct (chars_digit (random w (rnd w) `mod` 10)%nat) as (c & Hc & Hd).
    { apply Nat.mod_upper_bound. lia. }
    unfold PairingService.generateRandomCode_loop;
      fold PairingService.generateRandomCode_loop.
    unfold bind, Math_random_index. cbv beta iota. rewrite Hc.
    edestruct (IH (s +:+ String c "")) as (d & w' & -> & Hlen & Hall & Hrnd).
    exists (String c d), w'. split; [|split; [|split]].
    + by rewrite string_app_assoc.
    + simpl. by rewrite Hlen.
    + simpl. by constructor.
    + rewrite Hrnd. simpl. lia.
Qed.

Lemma generateRandomCode_digits w :
  ∃ code w', PairingService.generateRandomCode w = (Ok code, w')
    ∧ String.length code = 6%nat
    ∧ Forall is_digit (String.list_ascii_of_string code)
    ∧ rnd w' = (rnd w + 6)%nat.
Proof.
  unfold PairingService.generateRandomCode.
  destruct (generateRandomCode_loop_digits PAIRING_CONFIG.CODE_LENGTH "" w)
    as (d & w' & Heq & ? & ? & ?).
  by exists d, w'.
Qed.

Lemma generateUniqueCode_loop_digits k w code w' :
  PairingService.generateUniqueCode_loop k w = (Ok code, w') →
  String.length code = 6%nat ∧ Forall is_digit (String.list_ascii_of_string code).
Proof.
  revert w. induction k as [|k IH]; intros w; simpl; [done|].
  unfold bind at 1.
  destruct (generateRandomCode_digits w) as (c & w1 & -> & Hlen & Hall & _).
  unfold bind at 1, query at 1. simpl.
  destruct (js_find _ _) as [data|]; [|by intros [= <- _]].
  destruct (decide (req_status data ≠ pending)); [by intros [= <- _]|].
  unfold bind at 1. destruct (Date_now_run w1) as (w2 & -> & _).
  destruct (decide _); [by intros [= <- _] | apply IH].
Qed.

(** X1. Every pairing code is six decimal digits: [generateRandomCode]
    returns, for any random source, a string of length [CODE_LENGTH] = 6
    made of the characters 0 to 9 (and draws six random numbers); and the
    code of every request [generatePairingCode] creates or returns from a
    store of such codes is of that form. *)
Theorem pairing_code_six_digits (w : World) :
  (∃ code w', PairingService.generateRandomCode w = (Ok code, w')
     ∧ String.length code = 6%nat
     ∧ Forall is_digit (String.list_ascii_of_string code)
     ∧ rnd w' = (rnd w + 6)%nat)
  ∧ (∀ uid pt dn code e w1,
       Forall (λ r, String.length (req_code r) = 6%nat
                    ∧ Forall is_digit (String.list_ascii_of_string (req_code r)))
              (assistant_pairing_codes (db w)) →
       PairingService.generatePairingCode uid pt dn w = (Ok (code, e), w1) →
       String.length code = 6%nat ∧ Forall is_digit (String.list_ascii_of_string code)).
Proof.
  split; [apply generateRandomCode_digits|].
  intros uid pt dn code e w1 Hstore.
  assert (∀ wx, PairingService.createNewRequest uid pt dn wx = (Ok (code, e), w1) →
                String.length code = 6%nat
                ∧ Forall is_digit (String.list_ascii_of_string code)) as Hnew.
  { intros wx. unfold PairingService.createNewRequest, PairingService.generateUniqueCode.
    unfold bind at 1.
    destruct (PairingService.generateUniqueCode_loop _ wx) as [[c|msg] wa] eqn:Hu;
      [|done].
    apply generateUniqueCode_loop_digits in Hu.
    unfold bind at 1. simpl. unfold bind at 1, exec_result.
    destruct (Db.createPairingRequest _ _) as [[?|?] ?]; [|done].
    unfold bind, emit, ret. by intros [= <- _ _]. }
  unfold PairingService.generatePairingCode.
  unfold bind at 1. simpl. unfold bind at 1, query at 1.
  unfold Db.getPendingPairingRequests. cbn [db tick clock].
  destruct (js_find _ _) as [existing|] eqn:Hfind; [|apply Hnew].
  unfold bind at 1. simpl. destruct (decide _); [|apply Hnew].
  intros [= <- _ _].
  apply js_find_Some in Hfind as [Hin _].
  apply elem_of_order_by_desc, list_elem_of_filter in Hin as [_ Hin].
  rewrite Forall_forall in Hstore. by apply Hstore.
Qed.

Lemma pairing_code_six_digits_witness :
  ∃ code e w1,
    PairingService.generatePairingCode "42" telegram None PairingExamples.w_pending
    = (Ok (code, e), w1)
    ∧ String.length code = 6%nat
    ∧ Forall is_digit (String.list_ascii_of_string code).
Proof.
  eexists _, _, _. split; [vm_compute; reflexivity|].
  eapply (proj2 (pairing_code_six_digits PairingExamples.w_pending)
            "42" telegram None).
  - repeat constructor; vm_compute; set_solver.
  - vm_compute. reflexivity.
Defined.

(** ** What [approvePairing] and [rejectPairing] do, case by case *)

Lemma js_find_is_Some {A} (p : A → bool) (l : list A) x :
  x ∈ l → p x = true → is_Some (js_find p l).
Proof.
  intros Hx Hp. destruct (js_find p l) eqn:Hf; [by eexists|].
  rewrite js_find_None in Hf. rewrite (Hf x Hx) in Hp. done.
Qed.

Lemma approvePairing_cases code w :
  ∃ res w', PairingService.approvePairing code w = (Ok res, w')
    ∧ match PairingService.getPairingRequest code (db w) with
      | None =>
          res = mkApproveResult false None (Some "Pairing request not found")
          ∧ w' = w
      | Some request =>
          if decide (req_expiresAt request < clock w (tick w)) then
            res = mkApproveResult false None (Some "Pairing code has expired")
            ∧ db w' = Db.updatePairingRequestStatus code expired (db w)
            ∧ bridge w' = bridge w
          else if decide (req_status request ≠ pending) then
            res = mkApproveResult false None
                    (Some ("Pairing request already "
                           +:+ PairingStatus_str (req_status request)))
            ∧ db w' = db w ∧ bridge w' = bridge w
          else
            match js_find (λ u, bool_decide
                             (usr_platformUserId u = req_platformUserId request
                              ∧ usr_platformType u = req_platformType request))
                          (assistant_users (db w)) with
            | Some data =>
                res = mkApproveResult true (Some data) None
                ∧ db w' = Db.updatePairingRequestStatus code approved (db w)
                ∧ bridge w' = bridge w
            | None =>
                let user :=
                  mkUser ("assistant_user_" +:+ pretty (clock w (S (tick w))) +:+ "_"
                          +:+ String.substring 0 6 (randomBytes w (rb w)))
                    (req_platformUserId request) (req_platformType request)
                    (req_displayName request) (clock w (S (S (tick w)))) None None in
                match Db.createChannelUser user (db w) with
                | (QFail e, _) =>
                    res = mkApproveResult false None (Some e)
                    ∧ db w' = db w ∧ bridge w' = bridge w
                | (QOk _, d') =>
                    res = mkApproveResult true (Some user) None
                    ∧ d' = set_users (λ l, l ++ [user]) (db w)
                    ∧ db w' = Db.updatePairingRequestStatus code approved d'
                    ∧ bridge w' = bridge w ++ [userAuthorized user]
                end
            end
      end.
Proof.
  unfold PairingService.approvePairing. unfold bind at 1, query at 1.
  destruct (PairingService.getPairingRequest code (db w)) as [request|];
    [|by eexists _, _].
  unfold bind at 1. simpl. destruct (decide _).
  { unfold bind, exec, ret. simpl. by eexists _, _. }
  destruct (decide _); [by eexists _, _|].
  unfold bind at 1, query at 1. simpl.
  destruct (js_find _ (assistant_users (db w))) as [data|].
  { unfold bind, exec, ret. simpl. by eexists _, _. }
  unfold bind at 1, Date_now at 1. cbn [db clock tick rb randomBytes].
  unfold bind at 1, crypto_randomBytes_hex at 1. cbn [db clock tick rb randomBytes].
  unfold bind at 1, Date_now at 1. cbn [db clock tick rb randomBytes].
  unfold bind at 1, exec_result at 1. cbn [db clock tick rb randomBytes].
  destruct (Db.createChannelUser _ _) as [[u'|e'] d'] eqn:Hc.
  - unfold bind, exec, emit, ret. simpl. eexists _, _. split; [reflexivity|].
    unfold Db.createChannelUser in Hc. repeat case_bool_decide; try done.
    by injection Hc as <- <-.
  - eexists _, _. split; [reflexivity|]. simpl.
    unfold Db.createChannelUser in Hc. repeat case_bool_decide; try done;
      by injection Hc as <- <-.
Qed.

Lemma getPairingRequest_users code f d :
  PairingService.getPairingRequest code (set_users f d)
  = PairingService.getPairingRequest code d.
Proof. done. Qed.

(** X2. A successful [approvePairing] authorizes the identity of the
    request: whenever it answers [success: true], the request was stored,
    pending and not run out; the user it returns has the platform identity
    of the request and is stored; [isUserAuthorized] is true for that
    identity afterwards; and the stored status of the code is [approved]. *)
Theorem approvePairing_authorizes code w res w' :
  PairingService.approvePairing code w = (Ok res, w') →
  ar_success res = true →
  ∃ request user,
    PairingService.getPairingRequest code (db w) = Some request
    ∧ req_status request = pending
    ∧ ¬ req_expiresAt request < clock w (tick w)
    ∧ ar_user res = Some user
    ∧ usr_platformUserId user = req_platformUserId request
    ∧ usr_platformType user = req_platformType request
    ∧ user ∈ assistant_users (db w')
    ∧ PairingService.isUserAuthorized (req_platformUserId request)
        (req_platformType request) (db w') = true
    ∧ stored_status code w' = Some approved.
Proof.
  intros Hrun Hok.
  destruct (approvePairing_cases code w) as (res0 & w0 & Heq & Hcase).
  rewrite Hrun in Heq. injection Heq as <- <-.
  destruct (PairingService.getPairingRequest code (db w)) as [request|] eqn:Hget;
    [|by destruct Hcase as [-> _]].
  destruct (decide _) as [|Hlive]; [by destruct Hcase as [-> _]|].
  destruct (decide _) as [|Hpend]; [by destruct Hcase as [-> _]|].
  assert (req_status request = pending) as Hp
    by (by apply dec_stable).
  assert (∀ d, PairingService.getPairingRequest code d = Some request →
            req_status <$> PairingService.getPairingRequest code
              (Db.updatePairingRequestStatus code approved d) = Some approved)
    as Hstored.
  { intros d Hd. by erewrite getPairingRequest_update. }
  destruct (js_find _ _) as [data|] eqn:Hfind.
  - destruct Hcase as (-> & Hdb & _). exists request, data.
    pose proof Hfind as [Hin [Hu Ht]%bool_decide_eq_true]%js_find_Some.
    repeat split; try done.
    + by rewrite Hdb.
    + rewrite Hdb. unfold PairingService.isUserAuthorized, Db.getChannelUserByPlatform.
      simpl. by rewrite Hfind.
    + unfold stored_status. rewrite Hdb. by apply Hstored.
  - cbv zeta in Hcase. destruct (Db.createChannelUser _ _) as [[u|e] d'];
      [|by destruct Hcase as [-> _]].
    destruct Hcase as (-> & -> & Hdb & _). eexists request, _.
    repeat split; try done.
    + rewrite Hdb. simpl. apply elem_of_app. right. by apply list_elem_of_singleton.
    + rewrite Hdb. unfold PairingService.isUserAuthorized, Db.getChannelUserByPlatform.
      simpl.
      match goal with |- context [js_find ?p (?l ++ [?x])] =>
        destruct (js_find_is_Some p (l ++ [x]) x) as [u' ->]; [| |done]
      end.
      * apply elem_of_app. right. by apply list_elem_of_singleton.
      * by apply bool_decide_eq_true.
    + unfold stored_status. rewrite Hdb. by apply Hstored.
Qed.

Lemma approvePairing_authorizes_witness :
  ∃ res w', PairingService.approvePairing "123456" PairingExamples.w_pending
              = (Ok res, w')
    ∧ ar_success res = true
    ∧ PairingService.isUserAuthorized "42" telegram (db w') = true
    ∧ stored_status "123456" w' = Some approved.
Proof.
  eexists _, _. split; [vm_compute; reflexivity|]. split; [reflexivity|].
  edestruct (approvePairing_authorizes "123456" PairingExamples.w_pending)
    as (request & user & Hget & _ & _ & _ & _ & _ & _ & Hauth & Hst);
    [vm_compute; reflexivity | reflexivity |].
  injection Hget as <-. split; [exact Hauth | exact Hst].
Defined.

(** X3. [approvePairing] and [rejectPairing] never throw, never add or
    remove a pairing request and never touch a request stored under
    another code: of the stored requests at most the status of those with
    the given code changes, the session and plugin tables are as before,
    and when the code is not stored the process is left exactly as it
    was. *)
Theorem pairing_decision_frame code w :
  (∃ res w', PairingService.approvePairing code w = (Ok res, w')
             ∧ decides_only code w w')
  ∧ (∃ res w', PairingService.rejectPairing code w = (Ok res, w')
               ∧ decides_only code w w').
Proof.
  assert (∀ w' : World, db w' = db w →
            assistant_pairing_codes (db w')
            = (λ r, r) <$> assistant_pairing_codes (db w)) as Hsame.
  { intros w' ->. by rewrite list_fmap_id. }
  split.
  - destruct (approvePairing_cases code w) as (res & w' & Heq & Hcase).
    exists res, w'. split; [exact Heq|]. unfold decides_only.
    destruct (PairingService.getPairingRequest code (db w)) as [request|].
    2:{ destruct Hcase as [_ ->]. split; [|done]. exists None. by apply Hsame. }
    destruct (decide _).
    { destruct Hcase as (_ & -> & _). split; [|done]. by exists (Some expired). }
    destruct (decide _).
    { destruct Hcase as (_ & Hdb & _). rewrite Hdb. split; [|done].
      exists None. by apply Hsame. }
    destruct (js_find _ _).
    { destruct Hcase as (_ & -> & _). split; [|done]. by exists (Some approved). }
    cbv zeta in Hcase. destruct (Db.createChannelUser _ _) as [[u|e] d'].
    + destruct Hcase as (_ & -> & -> & _). split; [|done]. by exists (Some approved).
    + destruct Hcase as (_ & Hdb & _). rewrite Hdb. split; [|done].
      exists None. by apply Hsame.
  - unfold PairingService.rejectPairing, bind, query, exec, ret, decides_only.
    destruct (PairingService.getPairingRequest code (db w)).
    + eexists _, _. split; [reflexivity|]. split; [|done]. by exists (Some rejected).
    + eexists _, _. split; [reflexivity|]. split; [|done]. exists None. by apply Hsame.
Qed.

(** ** [refreshPairingCode] *)

Lemma expire_codes_nil r : expire_codes [] r = r.
Proof. unfold expire_codes. by rewrite bool_decide_eq_false_2 by set_solver. Qed.

Lemma expire_codes_cons c codes r :
  expire_codes (c :: codes) r
  = expire_codes codes (if decide (req_code r = c) then Db.with_status expired r else r).
Proof.
  unfold expire_codes. destruct (decide (req_code r = c)) as [->|Hne]; simpl.
  - rewrite bool_decide_eq_true_2 by set_solver.
    simpl. by destruct (bool_decide _).
  - apply (f_equal (λ b : bool, if b then Db.with_status expired r else r)).
    apply bool_decide_ext. rewrite elem_of_cons.
    split; [intros [?|?]; [congruence | done] | by right].
Qed.

Lemma expire_pending_run uid pt data w :
  ∃ w', PairingService.expire_pending uid pt data w = (Ok tt, w')
    ∧ db w' = set_pairing_codes
                (fmap (expire_codes
                         (req_code <$> filter (λ r, PairingService.same_identity uid pt r = true)
                                              data)))
                (db w)
    ∧ bridge w' = bridge w ∧ clock w' = clock w ∧ tick w' = tick w
    ∧ random w' = random w ∧ rnd w' = rnd w.
Proof.
  revert w. induction data as [|request data IH]; intros w.
  - exists w. split; [done|]. split; [|done]. simpl.
    destruct w as [[plugins users sessions codes] ? ? ? ? ? ? ? ? ?].
    unfold set_pairing_codes. simpl. f_equal.
    rewrite <- (list_fmap_id codes) at 1.
    apply list_fmap_ext. intros _ r _. by rewrite expire_codes_nil.
  - cbn [PairingService.expire_pending]. unfold bind at 1.
    rewrite filter_cons.
    destruct (PairingService.same_identity uid pt request) eqn:Hsame.
    + unfold exec at 1.
      destruct (IH (with_db (Db.updatePairingRequestStatus (req_code request) expired) w))
        as (w' & -> & Hdb & Hrest).
      exists w'. split; [done|]. split; [|exact Hrest].
      rewrite Hdb. rewrite decide_True by done. simpl.
      unfold set_pairing_codes, Db.updatePairingRequestStatus. simpl. f_equal.
      rewrite <- list_fmap_compose. apply list_fmap_ext. intros _ r _. simpl.
      by rewrite expire_codes_cons.
    + unfold ret at 1. destruct (IH w) as (w' & -> & Hdb & Hrest).
      exists w'. split; [done|]. split; [|exact Hrest].
      by rewrite decide_False by (by intros ?).
Qed.

Lemma expire_codes_ext codes codes' r :
  (∀ c, c ∈ codes ↔ c ∈ codes') → expire_codes codes r = expire_codes codes' r.
Proof. intros H. unfold expire_codes. by rewrite (bool_decide_ext _ _ (H _)). Qed.

Lemma expire_codes_pending codes r :
  req_status (expire_codes codes r) = pending →
  expire_codes codes r = r ∧ req_code r ∉ codes.
Proof. unfold expire_codes. by case_bool_decide. Qed.

(** X4. [refreshPairingCode] never hands out an old code again: when it
    returns (under a clock that does not run backwards) it has marked as
    [expired] every request of the identity that was pending and not run
    out, it has stored one new pending request for the identity, valid for
    [CODE_EXPIRY_MS] from the reading at which it was created, whose code
    and expiry it returns, and it has emitted [pairingRequested] for it;
    any other request of the identity that is still pending had run out
    before the call. *)
Theorem refreshPairingCode_new_request uid pt dn w code e w1 :
  clock_monotone w →
  PairingService.refreshPairingCode uid pt dn w = (Ok (code, e), w1) →
  ∃ t, let r := mkRequest code uid pt dn t (t + PAIRING_CONFIG.CODE_EXPIRY_MS) pending in
    e = t + PAIRING_CONFIG.CODE_EXPIRY_MS
    ∧ assistant_pairing_codes (db w1)
      = (expire_codes (refreshed_codes uid pt (clock w (tick w)) (db w))
           <$> assistant_pairing_codes (db w)) ++ [r]
    ∧ bridge w1 = bridge w ++ [pairingRequested r]
    ∧ (∀ x, x ∈ assistant_pairing_codes (db w1) →
            PairingService.same_identity uid pt x = true →
            x = r ∨ req_expiresAt x ≤ clock w (tick w)).
Proof.
  intros Hmono. unfold PairingService.refreshPairingCode.
  unfold bind at 1, Date_now at 1. unfold bind at 1, query at 1.
  cbn [db clock tick]. unfold Db.getPendingPairingRequests at 1.
  set (t0 := clock w (tick w)). unfold bind at 1.
  match goal with |- context [PairingService.expire_pending uid pt ?data ?wa] =>
    destruct (expire_pending_run uid pt data wa)
      as (w' & -> & Hdb & Hbr & Hcl & Htk & _)
  end.
  cbn [db clock tick bridge] in Hdb, Hbr, Hcl, Htk.
  (* the rows marked, by their codes *)
  assert (assistant_pairing_codes (db w')
          = expire_codes (refreshed_codes uid pt t0 (db w))
              <$> assistant_pairing_codes (db w)) as Hcodes.
  { rewrite Hdb. simpl. apply list_fmap_ext. intros _ r _.
    apply expire_codes_ext. intros c. unfold refreshed_codes.
    rewrite !list_elem_of_fmap. split; intros (x & -> & Hx); exists x; (split; [done|]).
    - apply list_elem_of_filter in Hx as [Hsame Hx].
      apply elem_of_order_by_desc, list_elem_of_filter in Hx as [[_ Hlive] Hx].
      apply list_elem_of_filter. by repeat split.
    - apply list_elem_of_filter in Hx as [[Hsame Hlive] Hx].
      apply list_elem_of_filter. split; [done|].
      apply elem_of_order_by_desc, list_elem_of_filter. split; [|done].
      split; [|done]. unfold PairingService.same_identity in Hsame.
      by apply bool_decide_eq_true in Hsame as (_ & _ & ?). }
  (* what is still pending for the identity had run out *)
  assert (∀ x, x ∈ assistant_pairing_codes (db w') →
               PairingService.same_identity uid pt x = true →
               req_expiresAt x ≤ t0) as Hold.
  { intros x Hx Hsame. rewrite Hcodes in Hx.
    apply list_elem_of_fmap in Hx as (r0 & -> & Hr0).
    pose proof Hsame as (_ & _ & Hp)%bool_decide_eq_true.
    apply expire_codes_pending in Hp as [Heq Hnot]. rewrite Heq in Hsame |- *.
    destruct (decide (t0 < req_expiresAt r0)) as [Hlive|]; [|lia].
    exfalso. apply Hnot. unfold refreshed_codes. apply list_elem_of_fmap.
    exists r0. split; [done|]. by apply list_elem_of_filter. }
  (* so [generatePairingCode] finds nothing to return *)
  unfold PairingService.generatePairingCode.
  unfold bind at 1, Date_now at 1. unfold bind at 1, query at 1.
  cbn [db clock tick]. rewrite Hcl, Htk.
  assert (t0 ≤ clock w (S (tick w))) as Ht1 by (apply Hmono; lia).
  unfold Db.getPendingPairingRequests.
  destruct (js_find _ _) as [existing|] eqn:Hfind.
  { exfalso. apply js_find_Some in Hfind as [Hin Hsame].
    apply elem_of_order_by_desc, list_elem_of_filter in Hin as [[_ Hlive] Hin].
    cbn [db] in Hin. specialize (Hold _ Hin Hsame). lia. }
  intros Hnew. apply createNewRequest_Ok in Hnew
    as (t & He & Hdb1 & Hbr1 & _ & _ & _).
  exists t. cbv zeta. split; [exact He|]. cbn [db bridge] in Hdb1, Hbr1.
  split; [by rewrite Hdb1; simpl; rewrite Hcodes|].
  split; [by rewrite Hbr1, Hbr|].
  intros x Hx Hsame. rewrite Hdb1 in Hx. simpl in Hx.
  apply elem_of_app in Hx as [Hx|Hx%list_elem_of_singleton]; [right | by left].
  by apply Hold.
Qed.

Lemma refreshPairingCode_new_request_witness :
  ∃ code e w1,
    PairingService.refreshPairingCode "42" telegram (Some "Ann")
      PairingExamples.w_pending = (Ok (code, e), w1)
    ∧ code = "012345"
    ∧ stored_status "123456" w1 = Some expired
    ∧ stored_status "012345" w1 = Some pending.
Proof.
  eexists _, _, _. split; [vm_compute; reflexivity|].
  edestruct (refreshPairingCode_new_request "42" telegram (Some "Ann")
               PairingExamples.w_pending) as (t & _ & Hcodes & _);
    [intros i j Hij; simpl; lia | vm_compute; reflexivity |].
  split; [reflexivity|]. split; reflexivity.
Defined.

(** ** The sweep and the boundary of the expiry test *)

(** X5. The sweep [cleanupExpired] keeps exactly the requests that are
    pending and whose [expiresAt] is not before its clock reading, in
    their order, and returns how many rows it removed; it removes no
    request that the pending-requests query would return at that reading
    or later, so the query answers the same before and after the sweep;
    users, sessions, plugin configurations and the bridge are untouched. *)
Theorem cleanupExpired_sweep (w : World) :
  ∃ n w', PairingService.cleanupExpired w = (Ok n, w')
    ∧ assistant_pairing_codes (db w')
      = filter (λ r, req_status r = pending ∧ clock w (tick w) ≤ req_expiresAt r)
               (assistant_pairing_codes (db w))
    ∧ (n + length (assistant_pairing_codes (db w')))%nat
      = length (assistant_pairing_codes (db w))
    ∧ (∀ t, clock w (tick w) ≤ t →
            Db.getPendingPairingRequests t (db w')
            = Db.getPendingPairingRequests t (db w))
    ∧ assistant_users (db w') = assistant_users (db w)
    ∧ assistant_sessions (db w') = assistant_sessions (db w)
    ∧ assistant_plugins (db w') = assistant_plugins (db w)
    ∧ bridge w' = bridge w.
Proof.
  unfold PairingService.cleanupExpired, bind, exec_result, Date_now, ret.
  cbn [db clock tick]. unfold Db.cleanupExpiredPairingRequests.
  set (now := clock w (tick w)). eexists _, _. split; [reflexivity|].
  cbn [db with_db set_pairing_codes assistant_pairing_codes assistant_users
       assistant_sessions assistant_plugins bridge].
  assert (filter (λ r, ¬ (req_expiresAt r < now ∨ req_status r ≠ pending))
                 (assistant_pairing_codes (db w))
          = filter (λ r, req_status r = pending ∧ now ≤ req_expiresAt r)
                   (assistant_pairing_codes (db w))) as ->.
  { apply list_filter_iff. intros r. split.
    - intros Hn. split; [|lia]. apply dec_stable. intros ?. apply Hn. by right.
    - intros [Hp ?] [?|?]; [lia | done]. }
  split; [done|]. split; [|split; [|done]].
  - pose proof (length_filter (λ r, req_status r = pending ∧ now ≤ req_expiresAt r)
                  (assistant_pairing_codes (db w))). lia.
  - intros t Ht. unfold Db.getPendingPairingRequests. simpl. do 2 f_equal.
    rewrite list_filter_filter. apply list_filter_iff. intros r.
    split; [by intros [? _] | intros [? ?]; repeat split; try done; lia].
Qed.

(** X6. The expiry tests do not agree at the boundary: for a stored
    pending request whose [expiresAt] equals the clock reading of the
    call, [approvePairing] does not treat the code as expired (it neither
    answers 'Pairing code has expired' nor stores [expired]), while
    [getPendingRequests] and [getPendingRequestForUser], called at that
    same reading, no longer return the request. *)
Theorem expiry_boundary code r uid pt w :
  PairingService.getPairingRequest code (db w) = Some r →
  req_status r = pending →
  req_expiresAt r = clock w (tick w) →
  (∃ res w', PairingService.approvePairing code w = (Ok res, w')
             ∧ ar_error res ≠ Some "Pairing code has expired"
             ∧ stored_status code w' ≠ Some expired)
  ∧ (∀ l w', PairingService.getPendingRequests w = (Ok l, w') → r ∉ l)
  ∧ (∀ res w', PairingService.getPendingRequestForUser uid pt w = (res, w') →
               res ≠ Ok (Some r)).
Proof.
  intros Hget Hpend Hexp. split; [|split].
  - destruct (approvePairing_cases code w) as (res & w' & Heq & Hcase).
    exists res, w'. split; [exact Heq|]. rewrite Hget in Hcase.
    rewrite decide_False in Hcase by lia.
    rewrite decide_False in Hcase by (by intros ?).
    assert (∀ d, PairingService.getPairingRequest code d = Some r →
              req_status <$> PairingService.getPairingRequest code
                (Db.updatePairingRequestStatus code approved d) ≠ Some expired)
      as Happroved.
    { intros d Hd. by erewrite getPairingRequest_update. }
    destruct (js_find _ _).
    { destruct Hcase as (-> & Hdb & _). split; [done|].
      unfold stored_status. rewrite Hdb. by apply Happroved. }
    cbv zeta in Hcase. destruct (Db.createChannelUser _ _) as [[u|e] d'] eqn:Hc.
    + destruct Hcase as (-> & -> & Hdb & _). split; [done|].
      unfold stored_status. rewrite Hdb. by apply Happroved.
    + destruct Hcase as (-> & Hdb & _). split.
      * unfold Db.createChannelUser in Hc.
        destruct (bool_decide _); [by injection Hc as <- _|].
        destruct (bool_decide _); [by injection Hc as <- _ | done].
      * unfold stored_status. rewrite Hdb, Hget. simpl. by rewrite Hpend.
  - intros l w'. unfold PairingService.getPendingRequests.
    unfold bind at 1. simpl. unfold bind at 1, query at 1.
    destruct (Db.getPendingPairingRequests _ _) as [data|err] eqn:Hq.
    + intros Hf Hr. eapply filter_live_elem in Hf; [|done].
      eapply getPendingPairingRequests_alive in Hq as [_ Hl]; [|done].
      simpl in Hl. lia.
    + intros [= <- _]. apply not_elem_of_nil.
  - intros res w'. unfold PairingService.getPendingRequestForUser.
    unfold bind at 1. simpl. unfold bind at 1, query at 1.
    destruct (Db.getPendingPairingRequests _ _) as [data|err] eqn:Hq;
      [|by intros [= <- _]].
    intros Hf ->. apply find_live_elem in Hf.
    eapply getPendingPairingRequests_alive in Hq as [_ Hl]; [|done].
    simpl in Hl. lia.
Qed.

Lemma expiry_boundary_witness :
  (∃ res w', PairingService.approvePairing "123456" PairingEdgeExamples.w_edge
               = (Ok res, w')
             ∧ ar_error res ≠ Some "Pairing code has expired"
             ∧ stored_status "123456" w' ≠ Some expired)
  ∧ (∀ l w', PairingService.getPendingRequests PairingEdgeExamples.w_edge
               = (Ok l, w') → PairingEdgeExamples.on_the_edge ∉ l)
  ∧ (∀ res w', PairingService.getPendingRequestForUser "42" telegram
                 PairingEdgeExamples.w_edge = (res, w') →
               res ≠ Ok (Some PairingEdgeExamples.on_the_edge)).
Proof.
  apply (expiry_boundary "123456" PairingEdgeExamples.on_the_edge "42" telegram
           PairingEdgeExamples.w_edge); reflexivity.
Defined.

(** ** Collisions of the drawn code *)

Lemma at_rnd_self w : at_rnd w (rnd w) = w.
Proof. by destruct w. Qed.

Lemma generateRandomCode_loop_indep n s w w2 :
  random w2 = random w → rnd w2 = rnd w →
  (PairingService.generateRandomCode_loop n s w).1
  = (PairingService.generateRandomCode_loop n s w2).1.
Proof.
  revert s w w2. induction n as [|n IH]; intros s w w2 Hr Hi; [done|].
  unfold PairingService.generateRandomCode_loop;
    fold PairingService.generateRandomCode_loop.
  unfold bind, Math_random_index. cbv beta iota. rewrite Hr, Hi.
  apply IH; simpl; congruence.
Qed.

Lemma generateRandomCode_loop_random n s w r w' :
  PairingService.generateRandomCode_loop n s w = (r, w') → random w' = random w.
Proof.
  revert s w. induction n as [|n IH]; intros s w.
  - by intros [= _ <-].
  - unfold PairingService.generateRandomCode_loop;
      fold PairingService.generateRandomCode_loop.
    unfold bind, Math_random_index. cbv beta iota. by intros H%IH.
Qed.

(** What one draw does to the process, in terms of [drawn_code]. *)
Lemma generateRandomCode_run w :
  ∃ w', PairingService.generateRandomCode w = (Ok (drawn_code w (rnd w)), w')
    ∧ quiet w w' ∧ tick w' = tick w ∧ random w' = random w
    ∧ rnd w' = (rnd w + 6)%nat.
Proof.
  unfold drawn_code. rewrite at_rnd_self.
  destruct (generateRandomCode_loop_digits PAIRING_CONFIG.CODE_LENGTH "" w)
    as (d & w' & Heq & _ & _ & Hrnd).
  destruct (generateRandomCode_loop_quiet PAIRING_CONFIG.CODE_LENGTH "" w)
    as (c & w'' & Heq' & Hq & Ht).
  unfold PairingService.generateRandomCode. rewrite Heq' in Heq |- *.
  injection Heq as -> ->. exists w'. repeat split; try done; try apply Hq.
  by eapply generateRandomCode_loop_random.
Qed.

Lemma drawn_code_indep w w2 i :
  random w2 = random w → drawn_code w2 i = drawn_code w i.
Proof.
  intros Hr. unfold drawn_code, PairingService.generateRandomCode.
  pose proof (generateRandomCode_loop_indep PAIRING_CONFIG.CODE_LENGTH ""
                (at_rnd w i) (at_rnd w2 i) Hr eq_refl) as H.
  destruct (PairingService.generateRandomCode_loop _ _ (at_rnd w i)),
           (PairingService.generateRandomCode_loop _ _ (at_rnd w2 i)).
  simpl in H. by subst.
Qed.

Lemma generateUniqueCode_loop_exhausted k w :
  (∀ j, (j < k)%nat →
     ∃ r, Db.getPairingRequestByCode (drawn_code w (rnd w + 6 * j)) (db w)
          = QOk (Some r)
          ∧ req_status r = pending
          ∧ ¬ req_expiresAt r < clock w (tick w + j)) →
  ∃ w', PairingService.generateUniqueCode_loop k w
        = (Throw "Failed to generate unique pairing code", w')
    ∧ quiet w w' ∧ random w' = random w
    ∧ rnd w' = (rnd w + 6 * k)%nat ∧ tick w' = (tick w + k)%nat.
Proof.
  revert w. induction k as [|k IH]; intros w Hall.
  - exists w. simpl. unfold throw. repeat split; try done; lia.
  - cbn [PairingService.generateUniqueCode_loop]. unfold bind at 1.
    destruct (generateRandomCode_run w) as (w1 & -> & Hq1 & Ht1 & Hr1 & Hi1).
    destruct (Hall 0%nat) as (r & Hfind & Hpend & Hlive); [lia|].
    rewrite Nat.mul_0_r, Nat.add_0_r in Hfind. rewrite Nat.add_0_r in Hlive.
    unfold bind at 1, query at 1. destruct Hq1 as (Hdb1 & Hbr1 & Hcl1 & _).
    rewrite Hdb1, Hfind. rewrite decide_False by (by intros ?).
    unfold bind at 1, Date_now at 1. rewrite Hcl1, Ht1.
    rewrite decide_False by done.
    match goal with |- context [PairingService.generateUniqueCode_loop k ?w2] =>
      destruct (IH w2) as (w' & -> & Hq & Hr & Hi & Ht)
    end.
    + intros j Hj. cbn [db clock tick rnd random].
      destruct (Hall (S j)) as (r' & Hfind' & Hpend' & Hlive'); [lia|].
      exists r'. rewrite ?Hdb1, ?Hcl1, ?Hi1, ?Ht1.
      replace (rnd w + 6 + 6 * j)%nat with (rnd w + 6 * S j)%nat by lia.
      replace (S (tick w) + j)%nat with (tick w + S j)%nat by lia.
      split; [|done]. rewrite <- Hfind'. f_equal. apply drawn_code_indep.
      simpl. exact Hr1.
    + exists w'. split; [done|]. cbn [db clock tick rnd random bridge] in Hq, Hr, Hi, Ht.
      destruct Hq as (Hdb & Hbr & Hcl & Htk). cbn [db clock tick bridge] in *.
      repeat split; try congruence; try lia.
Qed.

(** X7. [generateUniqueCode] gives up after ten attempts: when each of
    the ten codes it draws is stored as a pending request that has not
    run out when it is compared, it throws 'Failed to generate unique
    pairing code', having drawn sixty random digits and read the clock ten
    times, and leaves the database and the bridge untouched. *)
Theorem generateUniqueCode_gives_up (w : World) :
  (∀ j, (j < 10)%nat →
     ∃ r, Db.getPairingRequestByCode (drawn_code w (rnd w + 6 * j)) (db w)
          = QOk (Some r)
          ∧ req_status r = pending
          ∧ ¬ req_expiresAt r < clock w (tick w + j)) →
  ∃ w', PairingService.generateUniqueCode w
        = (Throw "Failed to generate unique pairing code", w')
    ∧ db w' = db w ∧ bridge w' = bridge w
    ∧ rnd w' = (rnd w + 60)%nat ∧ tick w' = (tick w + 10)%nat.
Proof.
  intros Hall. unfold PairingService.generateUniqueCode.
  destruct (generateUniqueCode_loop_exhausted PairingService.maxAttempts w Hall)
    as (w' & Heq & (Hdb & Hbr & _) & _ & Hi & Ht).
  exists w'. by repeat split.
Qed.

Lemma generateUniqueCode_gives_up_witness :
  ∃ w', PairingService.generateUniqueCode PairingEdgeExamples.w_taken
        = (Throw "Failed to generate unique pairing code", w')
    ∧ db w' = db PairingEdgeExamples.w_taken
    ∧ bridge w' = bridge PairingEdgeExamples.w_taken
    ∧ rnd w' = 60%nat ∧ tick w' = 10%nat.
Proof.
  apply (generateUniqueCode_gives_up PairingEdgeExamples.w_taken).
  intros j Hj. eexists. split; [|split].
  - do 10 (destruct j as [|j]; [vm_compute; reflexivity|]). lia.
  - reflexivity.
  - simpl. lia.
Defined.

(** X8. A code that is stored cannot be issued again, whatever its
    status: when the identity has no pending request and the code drawn
    first is the code of a stored request that is no longer pending (or is
    pending but has run out), [generateUniqueCode] accepts the code, the
    [INSERT] of the new request violates the primary key, and
    [generatePairingCode] throws the error of the database; nothing is
    stored and nothing is emitted. *)
Theorem generatePairingCode_stored_code uid pt dn w r :
  (∀ x, x ∈ assistant_pairing_codes (db w) →
        PairingService.same_identity uid pt x = false) →
  Db.getPairingRequestByCode (drawn_code w (rnd w)) (db w) = QOk (Some r) →
  req_status r ≠ pending ∨ req_expiresAt r < clock w (S (tick w)) →
  ∃ w', PairingService.generatePairingCode uid pt dn w
        = (Throw (constraint_failed "assistant_pairing_codes.code"), w')
    ∧ db w' = db w ∧ bridge w' = bridge w.
Proof.
  intros Hnone Hfind Hterminal. unfold PairingService.generatePairingCode.
  unfold bind at 1, Date_now at 1. unfold bind at 1, query at 1.
  cbn [db clock tick]. unfold Db.getPendingPairingRequests.
  destruct (js_find _ _) as [existing|] eqn:Hex.
  { exfalso. apply js_find_Some in Hex as [Hin Hsame].
    apply elem_of_order_by_desc, list_elem_of_filter in Hin as [_ Hin].
    by rewrite (Hnone _ Hin) in Hsame. }
  unfold PairingService.createNewRequest, PairingService.generateUniqueCode.
  unfold bind at 1. cbn [PairingService.maxAttempts PairingService.generateUniqueCode_loop].
  unfold bind at 1.
  match goal with |- context [PairingService.generateRandomCode ?w1] =>
    destruct (generateRandomCode_run w1) as (w2 & Heq & Hq & Ht & Hr & Hi);
    rewrite (drawn_code_indep w w1) in Heq by done; cbn [rnd] in Heq; rewrite Heq
  end.
  destruct Hq as (Hdb & Hbr & Hcl & _). cbn [db clock tick bridge] in Hdb, Hbr, Hcl, Ht.
  unfold bind at 1, query at 1. rewrite Hdb, Hfind.
  assert (r ∈ assistant_pairing_codes (db w)
          ∧ req_code r = drawn_code w (rnd w)) as [Hin Hcode].
  { unfold Db.getPairingRequestByCode in Hfind. injection Hfind as Hfind.
    apply js_find_Some in Hfind as [? ?%bool_decide_eq_true]. done. }
  assert (∀ (t : Z) (wa : World), db wa = db w → bridge wa = bridge w →
            ∃ w', (createResult <- exec_result (Db.createPairingRequest
                      (mkRequest (drawn_code w (rnd w)) uid pt dn t
                         (t + PAIRING_CONFIG.CODE_EXPIRY_MS) pending)) ;;
                   match createResult with
                   | QFail e => throw (str_or e "Failed to create pairing request")
                   | QOk _ =>
                       emit (pairingRequested
                               (mkRequest (drawn_code w (rnd w)) uid pt dn t
                                  (t + PAIRING_CONFIG.CODE_EXPIRY_MS) pending)) ;;;
                       ret (drawn_code w (rnd w), t + PAIRING_CONFIG.CODE_EXPIRY_MS)
                   end) wa
                  = (Throw (constraint_failed "assistant_pairing_codes.code"), w')
                  ∧ db w' = db w ∧ bridge w' = bridge w) as Hinsert.
  { intros t wa Hda Hba. unfold bind, exec_result, Db.createPairingRequest.
    rewrite Hda. cbn [req_code]. rewrite bool_decide_eq_true_2.
    - eexists. split; [reflexivity|]. simpl. by rewrite ?Hda, ?Hba.
    - apply list_elem_of_fmap. by exists r. }
  destruct (decide (req_status r ≠ pending)) as [|Hpend].
  - unfold ret at 1. unfold bind at 1, Date_now at 1. cbn [db clock tick bridge].
    apply Hinsert; simpl; congruence.
  - destruct Hterminal as [|Hlate]; [done|].
    unfold bind at 1, Date_now at 1. rewrite Hcl, Ht. cbn [clock tick].
    rewrite decide_True by done.
    unfold ret at 1. unfold bind at 1, Date_now at 1. cbn [db clock tick bridge].
    apply Hinsert; simpl; congruence.
Qed.

Lemma generatePairingCode_stored_code_witness :
  ∃ w', PairingService.generatePairingCode "42" telegram None
          PairingEdgeExamples.w_used
        = (Throw "UNIQUE constraint failed: assistant_pairing_codes.code", w')
    ∧ db w' = db PairingEdgeExamples.w_used
    ∧ bridge w' = bridge PairingEdgeExamples.w_used.
Proof.
  eapply (generatePairingCode_stored_code "42" telegram None
            PairingEdgeExamples.w_used).
  - intros x [->|Hx%elem_of_nil]%elem_of_cons; [reflexivity | done].
  - vm_compute. reflexivity.
  - left. simpl. discriminate.
Defined.

(* ===================================================================== *)
(** * Further properties of the session manager                           *)
(* ===================================================================== *)

Lemma filter_all {A} (P : A → Prop) `{!∀ x, Decision (P x)} (l : list A) :
  (∀ x, x ∈ l → P x) → filter P l = l.
Proof.
  induction l as [|x l IH]; intros Hall; [done|]. rewrite filter_cons.
  rewrite decide_True by (apply Hall; left). rewrite IH; [done|].
  intros y Hy. apply Hall. by right.
Qed.

Lemma filter_none {A} (P : A → Prop) `{!∀ x, Decision (P x)} (l : list A) :
  (∀ x, x ∈ l → ¬ P x) → filter P l = [].
Proof.
  induction l as [|x l IH]; intros Hall; [done|]. rewrite filter_cons.
  rewrite decide_False by (apply Hall; left). apply IH.
  intros y Hy. apply Hall. by right.
Qed.

Lemma filter_ext_in {A} (P Q : A → Prop) `{!∀ x, Decision (P x)}
    `{!∀ x, Decision (Q x)} (l : list A) :
  (∀ x, x ∈ l → P x ↔ Q x) → filter P l = filter Q l.
Proof.
  induction l as [|x l IH]; intros Hall; [done|]. rewrite !filter_cons.
  rewrite IH by (intros y Hy; apply Hall; by right).
  pose proof (Hall x (list_elem_of_here x l)) as Hx.
  destruct (decide (P x)) as [HP|HP].
  - by rewrite decide_True by tauto.
  - by rewrite decide_False by tauto.
Qed.

Section JsMap_more.
Context {V : Type}.
Implicit Types (m : JsMap.t V) (k : string) (v : V).

Lemma JsMap_delete_filter k m :
  NoDup (JsMap.keys m) → JsMap.delete k m = filter (λ e, e.1 ≠ k) m.
Proof.
  unfold JsMap.keys. induction m as [|[k0 v0] m IH]; csimpl; [done|].
  intros [Hk0 Hnd]%NoDup_cons. rewrite filter_cons. simpl.
  destruct (decide (k0 = k)) as [->|Hne].
  - rewrite decide_False by (by intros ?). symmetry.
    apply filter_all. intros [k' v'] Hin <-.
    apply Hk0. apply list_elem_of_fmap. by exists (k', v').
  - rewrite decide_True by done. by rewrite IH.
Qed.

Lemma JsMap_get_delete_eq k m :
  NoDup (JsMap.keys m) → JsMap.get k (JsMap.delete k m) = None.
Proof. intros Hnd. apply JsMap_get_None. by apply JsMap_keys_delete. Qed.

Lemma JsMap_set_fresh k v m :
  k ∉ JsMap.keys m → JsMap.set k v m = m ++ [(k, v)].
Proof.
  unfold JsMap.keys. induction m as [|[k0 v0] m IH]; csimpl; [done|].
  intros [Hne Hk]%not_elem_of_cons.
  rewrite decide_False by done. by rewrite IH.
Qed.

Lemma JsMap_length_delete k m :
  k ∈ JsMap.keys m → S (length (JsMap.delete k m)) = length m.
Proof.
  unfold JsMap.keys. induction m as [|[k0 v0] m IH]; csimpl.
  - intros H. by apply elem_of_nil in H.
  - destruct (decide (k0 = k)) as [->|Hne]; [done|].
    intros [?|Hin]%elem_of_cons; [congruence|]. simpl. f_equal. by apply IH.
Qed.

Lemma JsMap_keys_filter (P : string * V → Prop) `{!∀ e, Decision (P e)} m :
  NoDup (JsMap.keys m) → NoDup (JsMap.keys (filter P m)).
Proof.
  unfold JsMap.keys. induction m as [|e m IH]; csimpl; [done|].
  intros [He Hnd]%NoDup_cons. rewrite filter_cons. destruct (decide (P e)); csimpl.
  - apply NoDup_cons. split; [|by apply IH].
    intros (e' & Heq & [_ Hin]%list_elem_of_filter)%list_elem_of_fmap.
    apply He. apply list_elem_of_fmap. by exists e'.
  - by apply IH.
Qed.

Lemma JsMap_get_filter (P : string * V → Prop) `{!∀ e, Decision (P e)} k m :
  NoDup (JsMap.keys m) →
  JsMap.get k (filter P m)
  = match JsMap.get k m with
    | Some v => if decide (P (k, v)) then Some v else None
    | None => None
    end.
Proof.
  intros Hnd. destruct (JsMap.get k m) as [v|] eqn:Hget.
  - apply JsMap_get_elem in Hget. destruct (decide (P (k, v))).
    + apply JsMap_elem_get; [by apply JsMap_keys_filter|].
      by apply list_elem_of_filter.
    + apply JsMap_get_None.
      intros ([k' v'] & Heq & [HP Hin]%list_elem_of_filter)%list_elem_of_fmap.
      simpl in Heq. subst k'.
      assert (v' = v) as ->; [|done].
      apply (JsMap_elem_get _ _ _ Hnd) in Hin, Hget. congruence.
  - apply JsMap_get_None. apply JsMap_get_None in Hget.
    intros (e & Heq & [_ Hin]%list_elem_of_filter)%list_elem_of_fmap.
    apply Hget. apply list_elem_of_fmap. by exists e.
Qed.
End JsMap_more.

(** X9. [clearSession] ends the session of a user: afterwards
    [getSession] finds nothing for the user and the store has no session
    row of the user; the result tells whether there was a session; the
    sessions of all other users are as before; a user without a session
    leaves cache and process exactly as they were. *)
Theorem clearSession_clears (userId : string) (m : SessionManager.t) (w : World) :
  SessionManager.Inv (db w) m →
  ∃ b m' w',
    SessionManager.clearSession userId m w = (Ok (b, m'), w')
    ∧ b = bool_decide (is_Some (SessionManager.getSession userId m))
    ∧ SessionManager.getSession userId m' = None
    ∧ SessionManager.stored_sessions userId (w', m') = []
    ∧ (∀ k, k ≠ userId →
            SessionManager.getSession k m' = SessionManager.getSession k m)
    ∧ (b = false → m' = m ∧ w' = w).
Proof.
  intros HInv. unfold SessionManager.clearSession, SessionManager.getSession.
  destruct (JsMap.get userId m) as [session|] eqn:Hget.
  - eexists _, _, _. split; [reflexivity|]. split; [done|].
    split; [apply JsMap_get_delete_eq, (SessionManager.inv_keys _ _ HInv)|].
    split; [|split; [|done]].
    + unfold SessionManager.stored_sessions. simpl.
      destruct (Inv_delete_row _ _ _ _ HInv Hget) as [_ Hnone].
      apply filter_none. intros r Hr. by apply Hnone.
    + intros k Hk. by apply JsMap_get_delete_ne.
  - eexists _, _, _. split; [reflexivity|]. split; [done|]. split; [done|].
    split; [|done]. unfold SessionManager.stored_sessions. simpl.
    pose proof (Inv_no_row _ _ _ HInv Hget) as Hnone.
    apply filter_none. intros r Hr. by apply Hnone.
Qed.

Lemma example_sessions_Inv :
  let st := SessionManager.run SessionExamples.ops
              (SessionManager.init SessionExamples.process) in
  SessionManager.Inv (db st.1) st.2.
Proof. apply sessions_run_Inv, init_Inv; compute_done. Qed.

Lemma clearSession_clears_witness :
  let st := SessionManager.run SessionExamples.ops
              (SessionManager.init SessionExamples.process) in
  ∃ m' w',
    SessionManager.clearSession "u1" st.2 st.1 = (Ok (true, m'), w')
    ∧ SessionManager.getSession "u1" m' = None
    ∧ SessionManager.stored_sessions "u1" (w', m') = []
    ∧ is_Some (SessionManager.getSession "u2" m').
Proof.
  intros st.
  destruct (clearSession_clears "u1" st.2 st.1 example_sessions_Inv)
    as (b & m' & w' & Heq & Hb & Hget & Hrows & Hothers & _).
  exists m', w'. vm_compute in Hb. subst b.
  split; [exact Heq|]. split; [exact Hget|]. split; [exact Hrows|].
  rewrite Hothers by done. vm_compute. by eexists.
Defined.

(** ** The sweep of stale sessions *)

Section Sweep.
Import SessionManager.
Implicit Types (m : SessionManager.t) (w : World).

Lemma cleanup_loop_run now maxAgeMs entries cleaned m w :
  let stale := filter (λ e : string * IChannelSession,
                         maxAgeMs < now - ses_lastActivity e.2) entries in
  ∃ w', cleanup_loop now maxAgeMs entries cleaned m w
        = (Ok ((cleaned + length stale)%nat,
               foldl (λ m e, JsMap.delete e.1 m) m stale), w')
    ∧ bridge w' = bridge w.
Proof.
  revert cleaned m w. induction entries as [|[k s] entries IH];
    intros cleaned m w; cbn zeta.
  - exists w. simpl. unfold ret. split; [|done]. do 3 f_equal. lia.
  - cbn [cleanup_loop]. rewrite filter_cons. cbn [snd].
    destruct (decide (maxAgeMs < now - ses_lastActivity s)).
    + unfold bind at 1, exec at 1.
      edestruct (IH (S cleaned) (JsMap.delete k m)) as (w' & -> & Hbr).
      exists w'. split; [|by rewrite Hbr]. simpl. do 3 f_equal. lia.
    + apply IH.
Qed.

Lemma foldl_delete_filter (stale m : list (string * IChannelSession)) :
  NoDup (JsMap.keys m) →
  foldl (λ m e, JsMap.delete e.1 m) m stale
  = filter (λ e, e.1 ∉ stale.*1) m.
Proof.
  revert m. induction stale as [|[k s] stale IH]; intros m Hnd; csimpl.
  - symmetry. apply filter_all. intros e _. apply not_elem_of_nil.
  - rewrite IH by (by apply JsMap_keys_delete).
    rewrite JsMap_delete_filter by done. rewrite list_filter_filter.
    apply list_filter_iff. intros e. rewrite not_elem_of_cons. tauto.
Qed.
End Sweep.

(** X10. [cleanupStaleSessions] removes from the cache exactly the
    sessions whose last activity lies more than [maxAgeMs] before its
    clock reading and keeps the others, in their order; it returns how
    many it removed; the store stays in step with the cache (every
    session row left belongs to a session that is still cached), and
    nothing is emitted. *)
Theorem cleanupStaleSessions_sweep (maxAgeMs : Z) (m : SessionManager.t) (w : World) :
  SessionManager.Inv (db w) m →
  ∃ n m' w',
    SessionManager.cleanupStaleSessions maxAgeMs m w = (Ok (n, m'), w')
    ∧ m' = filter (λ e, ¬ maxAgeMs < clock w (tick w) - ses_lastActivity e.2) m
    ∧ (n + length m')%nat = length m
    ∧ SessionManager.Inv (db w') m'
    ∧ bridge w' = bridge w.
Proof.
  intros HInv.
  destruct (cleanupStaleSessions_Inv maxAgeMs m w HInv)
    as (n & m' & w' & Heq & HInv').
  exists n, m', w'. split; [exact Heq|].
  unfold SessionManager.cleanupStaleSessions in Heq.
  unfold bind at 1, Date_now at 1 in Heq.
  set (now := clock w (tick w)) in *.
  match type of Heq with SessionManager.cleanup_loop _ _ _ _ _ ?w1 = _ =>
    destruct (cleanup_loop_run now maxAgeMs m 0%nat m w1) as (w2 & Hrun & Hbr)
  end.
  rewrite Hrun in Heq. injection Heq as <- <- <-.
  pose proof (SessionManager.inv_keys _ _ HInv) as Hnd.
  set (stale := λ e : string * IChannelSession,
                  maxAgeMs < now - ses_lastActivity e.2) in *.
  assert (foldl (λ m e, JsMap.delete e.1 m) m (filter stale m)
          = filter (λ e, ¬ stale e) m) as Hm.
  { rewrite foldl_delete_filter by done. apply filter_ext_in.
    intros [k s] Hin. simpl. split.
    - intros Hk Hst. apply Hk. apply list_elem_of_fmap. exists (k, s).
      split; [done|]. by apply list_elem_of_filter.
    - intros Hst ([k' s'] & Heq & [Hst' Hin']%list_elem_of_filter)%list_elem_of_fmap.
      simpl in Heq. subst k'. apply Hst.
      apply (JsMap_elem_get _ _ _ Hnd) in Hin, Hin'.
      assert (s' = s) as <- by congruence. done. }
  unfold SessionManager.t in *. rewrite Hm in *. split; [done|]. split; [|by split].
  simpl. clear. induction m as [|e m IH]; [done|].
  rewrite !filter_cons. destruct (decide (stale e)).
  - rewrite decide_False by tauto. simpl. lia.
  - rewrite decide_True by done. simpl. lia.
Qed.

Lemma cleanupStaleSessions_sweep_witness :
  let st := SessionManager.run SessionExamples.ops
              (SessionManager.init SessionExamples.process) in
  ∃ m' w',
    SessionManager.cleanupStaleSessions 4 st.2 st.1 = (Ok (1%nat, m'), w')
    ∧ JsMap.keys m' = ["u2"]
    ∧ SessionManager.Inv (db w') m'.
Proof.
  intros st.
  destruct (cleanupStaleSessions_sweep 4 st.2 st.1 example_sessions_Inv)
    as (n & m' & w' & Heq & Hm & Hn & HInv & _).
  pose proof Heq as Hval. vm_compute in Hval. injection Hval as <- _ _.
  exists m', w'. split; [exact Heq|]. split; [|exact HInv].
  rewrite Hm. vm_compute. reflexivity.
Defined.

(** ** The constructor *)

Lemma load_as_list (rows : list IChannelSession) :
  NoDup (ses_userId <$> rows) →
  foldl (λ m s, JsMap.set (ses_userId s) s m) JsMap.empty rows
  = (λ s, (ses_userId s, s)) <$> rows.
Proof.
  induction rows as [|x rows IH] using rev_ind; intros Hnd; [done|].
  rewrite fmap_app in Hnd. apply NoDup_app in Hnd as (Hnd & Hx & _).
  rewrite foldl_app, fmap_app. simpl. rewrite IH by done.
  apply JsMap_set_fresh. unfold JsMap.keys. rewrite <- list_fmap_compose.
  intros Hin. eapply Hx; [exact Hin|]. csimpl. left.
Qed.

(** X11. The constructor loads the store into the cache without loss
    when the store has one session row per user: every stored row is
    found by [getSession] under its user id, a user without a row has no
    session, [getSessionCount] is the number of rows, and
    [getAllSessions] lists the rows by decreasing last activity. *)
Theorem loadActiveSessions_round_trip (d : Database) :
  NoDup (ses_userId <$> assistant_sessions d) →
  let m := SessionManager.loadActiveSessions d in
  (∀ row, row ∈ assistant_sessions d →
          SessionManager.getSession (ses_userId row) m = Some row)
  ∧ (∀ userId, userId ∉ ses_userId <$> assistant_sessions d →
               SessionManager.getSession userId m = None)
  ∧ SessionManager.getSessionCount m = length (assistant_sessions d)
  ∧ SessionManager.getAllSessions m
    = Db.order_by_desc ses_lastActivity (assistant_sessions d)
  ∧ Db.desc ses_lastActivity (SessionManager.getAllSessions m).
Proof.
  intros Hnd m.
  pose proof (order_by_desc_Permutation ses_lastActivity (assistant_sessions d))
    as Hperm.
  assert (m = (λ s, (ses_userId s, s))
                <$> Db.order_by_desc ses_lastActivity (assistant_sessions d)) as Hm.
  { unfold m, SessionManager.loadActiveSessions, Db.getChannelSessions.
    apply load_as_list. by rewrite Hperm. }
  assert (SessionManager.getAllSessions m
          = Db.order_by_desc ses_lastActivity (assistant_sessions d)) as Hall.
  { rewrite Hm. unfold SessionManager.getAllSessions, JsMap.values.
    rewrite <- list_fmap_compose. apply list_fmap_id. }
  assert (NoDup (JsMap.keys m)) as Hkeys.
  { rewrite Hm. unfold JsMap.keys. rewrite <- list_fmap_compose.
    change (fst ∘ _) with ses_userId. by rewrite Hperm. }
  split; [|split; [|split; [|split]]].
  - intros row Hrow. apply JsMap_elem_get; [done|]. rewrite Hm.
    apply list_elem_of_fmap. exists row. split; [done|]. by rewrite Hperm.
  - intros userId Hu. apply JsMap_get_None. rewrite Hm. unfold JsMap.keys.
    rewrite <- list_fmap_compose. change (fst ∘ _) with ses_userId.
    by rewrite Hperm.
  - unfold SessionManager.getSessionCount, JsMap.size. rewrite Hm.
    by rewrite length_fmap, Hperm.
  - exact Hall.
  - rewrite Hall. apply desc_order_by_desc.
Qed.

Lemma loadActiveSessions_round_trip_witness :
  SessionManager.getSession "u1"
    (SessionManager.loadActiveSessions (db SessionExamples.process))
  = Some (mkSession "s0" "u1" gemini (Some "c0") None 20 20).
Proof.
  destruct (loadActiveSessions_round_trip (db SessionExamples.process))
    as [Hget _]; [compute_done|].
  apply (Hget (mkSession "s0" "u1" gemini (Some "c0") None 20 20)).
  simpl. left.
Defined.



(* ===================================================================== *)
(** * Further properties of the plugin manager                            *)
(* ===================================================================== *)

Lemma js_find_fmap {A} (p : A → bool) (f : A → A) (l : list A) :
  (∀ x, p (f x) = p x) → js_find p (f <$> l) = f <$> js_find p l.
Proof.
  intros Hp. induction l as [|x l IH]; csimpl; [done|].
  rewrite Hp. by destruct (p x).
Qed.

Section Plugin_outcomes.
Context {S : Type} `{!Connector S}.
Import PluginManager.
Implicit Types (pm : PluginManager.t S) (w : World) (config : IChannelPluginConfig)
  (p : BasePlugin.t S).

Lemma initialize_Ok_state config p p' :
  BasePlugin.initialize config p = (Ok tt, p') →
  BasePlugin.status p' = ready ∧ BasePlugin.error p' = None
  ∧ BasePlugin.messageHandler p' = BasePlugin.messageHandler p
  ∧ BasePlugin.confirmHandler p' = BasePlugin.confirmHandler p.
Proof.
  unfold BasePlugin.initialize, BasePlugin.run_hook. simpl.
  destruct (onInitialize _ _) as [s' [msg|]]; [done|]. by intros [= <-].
Qed.

Lemma start_Ok_state p p' :
  BasePlugin.start p = (Ok tt, p') →
  BasePlugin.status p' = running ∧ BasePlugin.error p' = None
  ∧ BasePlugin.messageHandler p' = BasePlugin.messageHandler p
  ∧ BasePlugin.confirmHandler p' = BasePlugin.confirmHandler p.
Proof.
  unfold BasePlugin.start, BasePlugin.run_hook. destruct (decide _); [done|]. simpl.
  destruct (onStart _) as [s' [msg|]]; [done|]. by intros [= <-].
Qed.

Lemma getChannelPlugin_update id status lastConnected now (d : Database) :
  Db.getChannelPlugin id (Db.updateChannelPluginStatus id status lastConnected now d)
  = match Db.getChannelPlugin id d with
    | QOk (Some c) =>
        QOk (Some (mkPluginConfig (cfg_id c) (cfg_type c) (cfg_name c) (cfg_enabled c)
                     (cfg_credentials c) status
                     (match lastConnected with
                      | Some t => Some t
                      | None => cfg_lastConnected c
                      end)
                     (cfg_createdAt c) now))
    | other => other
    end.
Proof.
  unfold Db.getChannelPlugin, Db.updateChannelPluginStatus. simpl.
  rewrite js_find_fmap.
  - destruct (js_find _ _) as [c|] eqn:Hfind; [|done]. csimpl.
    apply js_find_Some in Hfind as [_ Hid%bool_decide_eq_true].
    by rewrite decide_True.
  - intros c. by destruct (decide _).
Qed.

Lemma emitStatusChange_run id pm w :
  emitStatusChange id pm w
  = (Ok tt,
     match Db.getChannelPlugin id (db w) with
     | QOk (Some data) =>
         mkWorld (db w) (clock w) (tick w) (random w) (rnd w) (randomBytes w)
           (rb w) (uuids w) (uu w)
           (bridge w ++ [pluginStatusChanged id (buildPluginStatus data pm)])
     | _ => w
     end).
Proof.
  unfold emitStatusChange, bind, query, emit, ret.
  by destruct (Db.getChannelPlugin id (db w)) as [[data|]|].
Qed.
End Plugin_outcomes.

(** X13. What the manager records when a plugin comes up or goes down.
    When [initialize()] and [start()] of a plugin that is not in the map
    return normally, [startPlugin] puts the running instance in the map,
    leaves no cached error for the id, stores status [running] with the
    time of the call as [last_connected], and, if the configuration is
    stored, emits one status-changed event that reports the plugin as
    connected, [running], without error and with that connection time;
    when the configuration is not stored nothing is emitted. When
    [stop()] of a plugin in the map returns normally, [stopPlugin] stores
    status [stopped], keeps the stored connection time, and the event it
    emits reports the plugin as not connected and [stopped]. *)
Theorem lifecycle_recorded {S : Type} `{!Connector S}
    (config : IChannelPluginConfig) (pm : PluginManager.t S) (w : World) :
  (∀ fresh p1 p2,
     JsMap.has (cfg_id config) (PluginManager.plugins pm) = false →
     PluginManager.pluginRegistry pm (cfg_type config) = Some fresh →
     BasePlugin.initialize config (BasePlugin.new fresh) = (Ok tt, p1) →
     BasePlugin.start (PluginManager.attach_handlers pm p1) = (Ok tt, p2) →
     ∃ pm' w',
       PluginManager.startPlugin config pm w = (Ok (Ok tt, pm'), w')
       ∧ PluginManager.getPlugin (cfg_id config) pm' = Some p2
       ∧ BasePlugin.status p2 = running
       ∧ PluginManager.getPluginError (cfg_id config) pm' = None
       ∧ db w' = Db.updateChannelPluginStatus (cfg_id config) running
                   (Some (clock w (tick w))) (clock w (Datatypes.S (tick w))) (db w)
       ∧ match Db.getChannelPlugin (cfg_id config) (db w) with
         | QOk (Some stored) =>
             ∃ st, bridge w' = bridge w ++ [pluginStatusChanged (cfg_id config) st]
                   ∧ ps_connected st = true ∧ ps_status st = running
                   ∧ ps_error st = None
                   ∧ ps_lastConnected st = Some (clock w (tick w))
                   ∧ ps_name st = cfg_name stored
                   ∧ ps_enabled st = cfg_enabled stored
         | _ => bridge w' = bridge w
         end)
  ∧ (∀ plugin,
       PluginManager.Inv pm →
       PluginManager.getPlugin (cfg_id config) pm = Some plugin →
       (BasePlugin.stop plugin).1 = Ok tt →
       ∃ pm' w',
         PluginManager.stopPlugin (cfg_id config) pm w = (Ok (Ok tt, pm'), w')
         ∧ db w' = Db.updateChannelPluginStatus (cfg_id config) stopped None
                     (clock w (tick w)) (db w)
         ∧ match Db.getChannelPlugin (cfg_id config) (db w) with
           | QOk (Some stored) =>
               ∃ st, bridge w' = bridge w ++ [pluginStatusChanged (cfg_id config) st]
                     ∧ ps_connected st = false ∧ ps_status st = stopped
                     ∧ ps_lastConnected st = cfg_lastConnected stored
                     ∧ ps_error st = None
           | _ => bridge w' = bridge w
           end).
Proof.
  split.
  - intros fresh p1 p2 Hhas Hreg Hinit Hstart.
    unfold PluginManager.startPlugin. cbv zeta. cbn [PluginManager.plugins
      PluginManager.with_errors PluginManager.pluginRegistry].
    rewrite Hhas, Hreg, Hinit.
    change (PluginManager.attach_handlers
              (PluginManager.with_errors (delete (cfg_id config)) pm) p1)
      with (PluginManager.attach_handlers pm p1).
    rewrite Hstart.
    unfold bind at 1, Date_now at 1. unfold bind at 1, Date_now at 1.
    unfold bind at 1, exec at 1. unfold bind at 1.
    rewrite emitStatusChange_run. unfold ret. cbn [db clock tick bridge with_db].
    rewrite getChannelPlugin_update.
    apply start_Ok_state in Hstart as (Hrun & Herr & _).
    eexists _, _. split; [reflexivity|].
    split; [apply JsMap_get_set_eq|]. split; [exact Hrun|].
    split; [apply lookup_delete_eq|]. split.
    + by destruct (Db.getChannelPlugin _ _) as [[?|]|].
    + destruct (Db.getChannelPlugin _ _) as [[stored|]|] eqn:Hstored; [|done..].
      eexists. split; [reflexivity|].
      unfold Db.getChannelPlugin in Hstored. injection Hstored as Hstored.
      apply js_find_Some in Hstored as [_ Hid%bool_decide_eq_true].
      unfold PluginManager.buildPluginStatus. cbn [cfg_id PluginManager.plugins
        PluginManager.with_plugins PluginManager.with_errors
        PluginManager.pluginErrors]. rewrite Hid, JsMap_get_set_eq.
      cbn [ps_connected ps_status ps_error ps_lastConnected ps_name ps_enabled
           cfg_name cfg_enabled cfg_lastConnected mbind option_bind].
      rewrite Hrun, Herr.
      split; [by apply bool_decide_eq_true_2|]. split; [done|].
      split; [apply lookup_delete_eq | done].
  - intros plugin [Hnd Herrs] Hget Hstop. unfold PluginManager.getPlugin in Hget.
    unfold PluginManager.stopPlugin. rewrite Hget.
    destruct (BasePlugin.stop plugin) as [[[]|msg] p']; [|done].
    unfold bind at 1, Date_now at 1. unfold bind at 1, exec at 1. unfold bind at 1.
    rewrite emitStatusChange_run. unfold ret. cbn [db clock tick bridge with_db].
    rewrite getChannelPlugin_update.
    eexists _, _. split; [reflexivity|]. split.
    + by destruct (Db.getChannelPlugin _ _) as [[?|]|].
    + destruct (Db.getChannelPlugin _ _) as [[stored|]|] eqn:Hstored; [|done..].
      eexists. split; [reflexivity|].
      unfold Db.getChannelPlugin in Hstored. injection Hstored as Hstored.
      apply js_find_Some in Hstored as [_ Hid%bool_decide_eq_true].
      unfold PluginManager.buildPluginStatus. cbn [cfg_id PluginManager.plugins
        PluginManager.with_plugins PluginManager.with_errors
        PluginManager.pluginErrors].
      rewrite Hid, JsMap_get_delete_eq by done.
      cbn [ps_connected ps_status ps_error ps_lastConnected
           cfg_status cfg_lastConnected mbind option_bind].
      repeat split; try done. apply Herrs.
      apply JsMap_get_elem in Hget. apply list_elem_of_fmap.
      by exists (cfg_id config, plugin).
Qed.

Lemma lifecycle_recorded_witness :
  (∃ pm' w' st,
     PluginManager.startPlugin Demo.telegram_config
       (PluginManager.new (Demo.registry Demo.good_bot)) Demo.world
     = (Ok (Ok tt, pm'), w')
     ∧ bridge w' = [pluginStatusChanged "telegram_default" st]
     ∧ ps_connected st = true ∧ ps_lastConnected st = Some 1000)
  ∧ (∃ pm' w' st,
       PluginManager.stopPlugin "telegram_default"
         (Demo.running_manager Demo.good_bot).2 (Demo.running_manager Demo.good_bot).1
       = (Ok (Ok tt, pm'), w')
       ∧ bridge w' = bridge (Demo.running_manager Demo.good_bot).1
                     ++ [pluginStatusChanged "telegram_default" st]
       ∧ ps_connected st = false ∧ ps_status st = stopped
       ∧ ps_lastConnected st = Some 1000).
Proof.
  split.
  - destruct (proj1 (lifecycle_recorded Demo.telegram_config
                       (PluginManager.new (Demo.registry Demo.good_bot)) Demo.world)
                Demo.good_bot Demo.ready_plugin Demo.running_plugin)
      as (pm' & w' & Heq & _ & _ & _ & _ & st & Hbr & Hc & _ & _ & Hlc & _);
      [reflexivity..|].
    exists pm', w', st. split; [exact Heq|]. split; [exact Hbr|].
    split; [exact Hc | exact Hlc].
  - destruct (proj2 (lifecycle_recorded Demo.telegram_config
                       (Demo.running_manager Demo.good_bot).2
                       (Demo.running_manager Demo.good_bot).1)
                Demo.running_plugin)
      as (pm' & w' & Heq & _ & st & Hbr & Hc & Hs & Hlc & _).
    + apply plugins_run_Inv, Inv_new.
    + reflexivity.
    + reflexivity.
    + exists pm', w', st. split; [exact Heq|]. split; [exact Hbr|].
      split; [exact Hc|]. split; [exact Hs | exact Hlc].
Defined.

(** X14. A plugin type nobody registered: [startPlugin] throws 'Unknown
    plugin type: <type>' and caches that text for the id, but, unlike the
    failures of [initialize()] and [start()], it stores no status and
    emits no event: the process is exactly as before, so the status query
    shows the cached error next to the status that was stored earlier. *)
Theorem startPlugin_unknown_type {S : Type} `{!Connector S}
    (config : IChannelPluginConfig) (pm : PluginManager.t S) (w : World) :
  JsMap.has (cfg_id config) (PluginManager.plugins pm) = false →
  PluginManager.pluginRegistry pm (cfg_type config) = None →
  let msg := "Unknown plugin type: " +:+ PluginType_str (cfg_type config) in
  ∃ pm',
    PluginManager.startPlugin config pm w = (Ok (Throw msg, pm'), w)
    ∧ PluginManager.getPluginError (cfg_id config) pm' = Some msg
    ∧ PluginManager.plugins pm' = PluginManager.plugins pm
    ∧ ∀ stored, cfg_id stored = cfg_id config →
        let st := PluginManager.buildPluginStatus stored pm' in
        ps_error st = Some msg ∧ ps_status st = cfg_status stored
        ∧ ps_connected st = false.
Proof.
  intros Hhas Hreg msg. unfold PluginManager.startPlugin. cbv zeta.
  cbn [PluginManager.plugins PluginManager.with_errors PluginManager.pluginRegistry].
  rewrite Hhas, Hreg. eexists. split; [reflexivity|].
  split; [apply lookup_insert_eq|]. split; [done|].
  intros stored Hid. unfold PluginManager.buildPluginStatus.
  cbn [PluginManager.plugins PluginManager.with_errors PluginManager.pluginErrors].
  rewrite Hid. apply has_get in Hhas. rewrite Hhas.
  cbn [ps_error ps_status ps_connected mbind option_bind].
  split; [apply lookup_insert_eq | done].
Qed.

Lemma startPlugin_unknown_type_witness :
  ∃ pm',
    PluginManager.startPlugin
      (mkPluginConfig "slack_default" slack "Slack Bot" true None stopped None 900 900)
      (PluginManager.new (Demo.registry Demo.good_bot)) Demo.world
    = (Ok (Throw "Unknown plugin type: slack", pm'), Demo.world)
    ∧ PluginManager.getPluginError "slack_default" pm'
      = Some "Unknown plugin type: slack".
Proof.
  destruct (startPlugin_unknown_type
              (mkPluginConfig "slack_default" slack "Slack Bot" true None stopped
                 None 900 900)
              (PluginManager.new (Demo.registry Demo.good_bot)) Demo.world)
    as (pm' & Heq & Herr & _); [reflexivity..|].
  exists pm'. split; [exact Heq | exact Herr].
Defined.

(** ** Handlers *)

Section Handlers.
Context {S : Type} `{!Connector S}.
Import PluginManager.
Implicit Types (pm : PluginManager.t S) (p : BasePlugin.t S).

Lemma JsMap_get_fmap {V} (f : V → V) k (m : JsMap.t V) :
  JsMap.get k (prod_map id f <$> m) = f <$> JsMap.get k m.
Proof.
  induction m as [|[k0 v0] m IH]; csimpl; [done|].
  by destruct (decide (k0 = k)).
Qed.

Lemma attach_handlers_state pm p :
  BasePlugin.messageHandler (attach_handlers pm p)
  = match messageHandler pm with
    | Some h => Some h
    | None => BasePlugin.messageHandler p
    end
  ∧ BasePlugin.confirmHandler (attach_handlers pm p)
    = match confirmHandler pm with
      | Some h => Some h
      | None => BasePlugin.confirmHandler p
      end.
Proof.
  unfold attach_handlers. by destruct (messageHandler pm), (confirmHandler pm).
Qed.
End Handlers.

(** X15. A handler set on the manager reaches every plugin, whether the
    plugin was started before or after: [setMessageHandler] and
    [setConfirmHandler] register the handler on each instance in the map
    and change nothing else of it; and an instance that [startPlugin]
    brings up carries the handlers the manager holds at that time (none,
    when none was set: the plugin then has no message handler). *)
Theorem handlers_reach_plugins {S : Type} `{!Connector S}
    (pm : PluginManager.t S) :
  (∀ handler id plugin,
     PluginManager.getPlugin id pm = Some plugin →
     PluginManager.getPlugin id (PluginManager.setMessageHandler handler pm)
     = Some (BasePlugin.onMessage handler plugin)
     ∧ PluginManager.getPlugin id (PluginManager.setConfirmHandler handler pm)
       = Some (BasePlugin.onConfirm handler plugin))
  ∧ (∀ config w pm' w' plugin,
       JsMap.has (cfg_id config) (PluginManager.plugins pm) = false →
       PluginManager.startPlugin config pm w = (Ok (Ok tt, pm'), w') →
       PluginManager.getPlugin (cfg_id config) pm' = Some plugin →
       BasePlugin.messageHandler plugin = PluginManager.messageHandler pm
       ∧ BasePlugin.confirmHandler plugin = PluginManager.confirmHandler pm).
Proof.
  split.
  - intros handler id plugin Hget. unfold PluginManager.getPlugin in *.
    unfold PluginManager.setMessageHandler, PluginManager.setConfirmHandler.
    cbn [PluginManager.plugins]. by rewrite !JsMap_get_fmap, Hget.
  - intros config w pm' w' plugin Hhas. unfold PluginManager.startPlugin. cbv zeta.
    cbn [PluginManager.plugins PluginManager.with_errors PluginManager.pluginRegistry].
    rewrite Hhas.
    destruct (PluginManager.pluginRegistry pm (cfg_type config)) as [fresh|]; [|done].
    destruct (BasePlugin.initialize _ _) as [[[]|msg] p1] eqn:Hinit;
      [|by rewrite start_failed_run].
    change (PluginManager.attach_handlers
              (PluginManager.with_errors (delete (cfg_id config)) pm) p1)
      with (PluginManager.attach_handlers pm p1).
    destruct (BasePlugin.start _) as [[[]|msg] p2] eqn:Hstart;
      [|by rewrite start_failed_run].
    unfold bind at 1, Date_now at 1. unfold bind at 1, Date_now at 1.
    unfold bind at 1, exec at 1. unfold bind at 1.
    rewrite emitStatusChange_run. unfold ret. intros [= <- _].
    unfold PluginManager.getPlugin. cbn [PluginManager.plugins PluginManager.with_plugins
      PluginManager.with_errors]. rewrite JsMap_get_set_eq. intros [= <-].
    apply start_Ok_state in Hstart as (_ & _ & -> & ->).
    apply initialize_Ok_state in Hinit as (_ & _ & Hm & Hc).
    destruct (attach_handlers_state pm p1) as [-> ->]. rewrite Hm, Hc. simpl.
    by destruct (PluginManager.messageHandler pm), (PluginManager.confirmHandler pm).
Qed.

Lemma handlers_reach_plugins_witness :
  ∃ pm' w' plugin,
    PluginManager.startPlugin Demo.telegram_config
      (PluginManager.setMessageHandler "handleIncomingMessage"
         (PluginManager.new (Demo.registry Demo.good_bot))) Demo.world
    = (Ok (Ok tt, pm'), w')
    ∧ PluginManager.getPlugin "telegram_default" pm' = Some plugin
    ∧ BasePlugin.messageHandler plugin = Some "handleIncomingMessage"
    ∧ BasePlugin.confirmHandler plugin = None.
Proof.
  eexists _, _, _. split; [vm_compute; reflexivity|]. split; [reflexivity|].
  eapply (proj2 (handlers_reach_plugins
                   (PluginManager.setMessageHandler "handleIncomingMessage"
                      (PluginManager.new (Demo.registry Demo.good_bot))))
            Demo.telegram_config Demo.world).
  - reflexivity.
  - vm_compute. reflexivity.
  - reflexivity.
Defined.

(* ===================================================================== *)
(** * Further properties of the action executor                           *)
(* ===================================================================== *)

Section Targets.
Context {S : Type} `{!Connector S}.
Import ActionExecutor.
Implicit Types (st : Exec S) (c : Chat) (ctx : IActionContext).

Lemma current_target_app tid cur l1 l2 :
  current_target tid cur (l1 ++ l2)
  = current_target tid (current_target tid cur l1) l2.
Proof.
  revert cur. induction l1 as [|e l1 IH]; intros cur; [done|].
  destruct e as [| |msg [id|err]| | | | | | | |]; simpl; apply IH.
Qed.

Lemma targets_ok_app tid cur l1 l2 :
  targets_ok tid cur (l1 ++ l2)
  ↔ targets_ok tid cur l1 ∧ targets_ok tid (current_target tid cur l1) l2.
Proof.
  revert cur. induction l1 as [|e l1 IH]; intros cur; [simpl; tauto|].
  destruct e as [| |msg [id|err]|[t| |] target msg r| | | | | | |]; simpl;
    rewrite ?IH; tauto.
Qed.

Lemma stream_ok_refl tid c st :
  last_sent tid c = tid → stream_ok tid st c st.
Proof.
  intros Hc. exists []. rewrite app_nil_r. by repeat split.
Qed.

(** One more effect. *)
Lemma stream_ok_step tid base c c' st st' e :
  stream_ok tid base c st →
  log st' = log st ++ [e] → is_stream_effect e = true →
  targets_ok tid (last_sent tid c) [e] →
  last_sent tid c' = current_target tid (last_sent tid c) [e] →
  sessions st' = sessions st → db (world st') = db (world st) →
  bridge (world st') = bridge (world st) →
  stream_ok tid base c' st'.
Proof.
  intros (new & Hlog & Hall & Htg & Hcur & Hs & Hd & Hb) Hlog' He Hte Hcur' Hs' Hd' Hb'.
  exists (new ++ [e]). rewrite Hlog', Hlog, app_assoc.
  split; [done|]. split; [apply Forall_app; split; [done | by constructor]|].
  split; [apply targets_ok_app; split; [done | by rewrite <- Hcur]|].
  split; [by rewrite current_target_app, <- Hcur|].
  split; [congruence|]. split; congruence.
Qed.

(** No effect, and the same target. *)
Lemma stream_ok_same tid base c c' st st' :
  stream_ok tid base c st → log st' = log st →
  last_sent tid c' = last_sent tid c →
  sessions st' = sessions st → db (world st') = db (world st) →
  bridge (world st') = bridge (world st) →
  stream_ok tid base c' st'.
Proof.
  intros (new & Hlog & Hall & Htg & Hcur & Hs & Hd & Hb) Hlog' Hcur' Hs' Hd' Hb'.
  exists new. rewrite Hlog', Hcur'. repeat split; try done; congruence.
Qed.

Lemma doEditMessage_targets ctx tid msg base c st :
  stream_ok tid base c st →
  ∃ c' st', doEditMessage ctx tid msg c st = (Ok c', st')
    ∧ stream_ok tid base c' st'
    ∧ pendingUpdateTimer c' = pendingUpdateTimer c
    ∧ pendingMessage c' = pendingMessage c
    ∧ lastMessageContent c' = lastMessageContent c.
Proof.
  intros Hok. unfold doEditMessage.
  unfold bind at 1, in_world at 1, Date_now at 1.
  cbn [world sessions plugin log clock tick].
  unfold bind, ignore_errors, try_catch, ctx_editMessage, ret.
  cbn [world sessions plugin log clock tick].
  destruct (BasePlugin.edit _ _ _ _) as [[[]|err] p'];
    eexists _, _; (split; [reflexivity|]); (split; [|done]).
  all: eapply (stream_ok_step tid base c); [exact Hok|reflexivity|done| |done..].
  all: done.
Qed.

Lemma onEvent_targets ctx tid message isInsert base c st :
  stream_ok tid base c st →
  ∃ c' st', onEvent ctx tid message isInsert c st = (Ok c', st')
    ∧ stream_ok tid base c' st'
    ∧ lastMessageContent c' = Some (convertTMessageToOutgoing message false).
Proof.
  intros Hok. unfold onEvent.
  unfold bind at 1, in_world at 1, Date_now at 1.
  cbn [world sessions plugin log clock tick].
  set (st1 := mkExec _ _ _ _).
  assert (∀ c1, last_sent tid c1 = last_sent tid c → stream_ok tid base c1 st1)
    as Hok1.
  { intros c1 Hc1. by eapply (stream_ok_same tid base c). }
  destruct isInsert.
  - unfold try_catch, bind, ctx_sendMessage, ret.
    destruct (BasePlugin.send _ _ _) as [[newMsgId|err] p'];
      eexists _, _; (split; [reflexivity|]); (split; [|done]).
    + eapply (stream_ok_step tid base c); [by apply Hok1|reflexivity|done|done| |done..].
      unfold last_sent. cbn [sentMessageIds]. by rewrite last_snoc.
    + eapply (stream_ok_step tid base c); [by apply Hok1|reflexivity|done..].
  - cbn [lastUpdateTime pendingUpdateTimer pendingMessage sentMessageIds
           lastMessageContent].
    destruct (decide _).
    + edestruct (doEditMessage_targets ctx tid (convertTMessageToOutgoing message false)
                   base) as (c' & st' & -> & Hok' & _ & _ & Hlast);
        [apply Hok1; reflexivity|].
      by eexists _, _.
    + eexists _, _. split; [reflexivity|]. split; [by apply Hok1 | done].
Qed.

Lemma onTimer_targets ctx tid base c st :
  stream_ok tid base c st →
  ∃ c' st', onTimer ctx tid c st = (Ok c', st')
    ∧ stream_ok tid base c' st'
    ∧ lastMessageContent c' = lastMessageContent c.
Proof.
  intros Hok. unfold onTimer.
  destruct (pendingUpdateTimer c) as [due|]; [|by eexists _, _].
  destruct (decide _); [|by eexists _, _].
  destruct (pendingMessage c) as [msg|].
  - destruct (doEditMessage_targets ctx tid msg base c st Hok)
      as (c' & st' & Heq & Hok' & _ & _ & Hlast).
    unfold bind at 1. unfold bind at 1. rewrite Heq. unfold ret, bind.
    eexists _, _. split; [reflexivity|]. split; [|done].
    by eapply (stream_ok_same tid base c').
  - unfold bind, ret. eexists _, _. split; [reflexivity|]. split; [|done].
    by eapply (stream_ok_same tid base c).
Qed.

Lemma run_stream_targets ctx tid steps base c st acc :
  stream_ok tid base c st →
  lastMessageContent c = (λ m, convertTMessageToOutgoing m false) <$> acc →
  ∃ c' st', run_stream ctx tid steps c st = (Ok c', st')
    ∧ stream_ok tid base c' st'
    ∧ lastMessageContent c'
      = (λ m, convertTMessageToOutgoing m false) <$> last_event steps acc.
Proof.
  revert c st acc. induction steps as [|[message isInsert|] steps IH];
    intros c st acc Hok Hlast; simpl.
  - by eexists _, _.
  - destruct (onEvent_targets ctx tid message isInsert base c st Hok)
      as (c1 & st1 & Heq & Hok1 & Hlast1).
    unfold bind. rewrite Heq. by apply (IH c1 st1 (Some message)).
  - destruct (onTimer_targets ctx tid base c st Hok)
      as (c1 & st1 & Heq & Hok1 & Hlast1).
    unfold bind. rewrite Heq. apply (IH c1 st1 acc); [done | congruence].
Qed.

Lemma last_event_Some steps m : is_Some (last_event steps (Some m)).
Proof.
  revert m. induction steps as [|[m' i|] steps IH]; intros m; simpl;
    [by eexists | apply IH | apply IH].
Qed.

(** Without an event no timer is ever set, and nothing happens. *)
Lemma run_stream_idle ctx tid steps c st :
  last_event steps None = None → pendingUpdateTimer c = None →
  run_stream ctx tid steps c st = (Ok c, st).
Proof.
  induction steps as [|[message isInsert|] steps IH]; intros Hlast Htimer; simpl.
  - done.
  - exfalso. simpl in Hlast. destruct (last_event_Some steps message) as [x Hx].
    congruence.
  - unfold bind, onTimer. rewrite Htimer. by apply IH.
Qed.
End Targets.

Section Chat_shape.
Context {S : Type} `{!Connector S}.
Import ActionExecutor.
Implicit Types (st : Exec S) (c : Chat) (ctx : IActionContext).

(** The whole of [handleChatMessage], case by case. *)
Lemma handleChatMessage_shape ctx text collab st :
  ∃ st1, touch_activity ctx st = (Ok tt, st1)
    ∧ plugin st1 = plugin st ∧ log st1 = log st
    ∧ match BasePlugin.send (ctx_chatId ctx) thinking (plugin st) with
      | (Throw err, p) =>
          handleChatMessage ctx text collab st
          = (Throw err, mkExec (world st1) (sessions st1) p
                          (log st ++ [EffSend thinking (Throw err)]))
      | (Ok tid, p) =>
          ∃ r st' pre result,
            handleChatMessage ctx text collab st = (r, st')
            ∧ Forall (λ e, is_stream_effect e = true) pre
            ∧ targets_ok tid tid pre
            ∧ sessions st' = sessions st1
            ∧ db (world st') = db (world st1)
            ∧ bridge (world st') = bridge (world st1)
            ∧ (last_event (stream collab) None = None → pre = [])
            ∧ if truthy (ctx_sessionId ctx) && truthy (ctx_conversationId ctx) then
                match stream_outcome collab with
                | Ok _ =>
                    log st' = log st ++ EffSend thinking (Ok tid) :: pre
                                ++ [EffEdit Final (current_target tid tid pre)
                                      match last_event (stream collab) None with
                                      | Some m => with_actions
                                                    (convertTMessageToOutgoing m false)
                                      | None => mkOutgoing "✅ Done"
                                                  (Some ResponseActionsKeyboard)
                                      end result]
                    ∧ r = Ok tt
                | Throw message =>
                    log st' = log st ++ EffSend thinking (Ok tid) :: pre
                                ++ [EffEdit Failure tid
                                      (buildChatErrorResponse message) result]
                    ∧ r = result
                end
              else
                pre = []
                ∧ log st' = log st ++ [EffSend thinking (Ok tid);
                                       EffEdit Failure tid
                                         (buildChatErrorResponse "Session not initialized")
                                         result]
                ∧ r = result
      end.
Proof.
  destruct (touch_activity_spec ctx st) as (st1 & Hact & Hplug & Hlog1 & _).
  exists st1. split; [exact Hact|]. split; [exact Hplug|]. split; [exact Hlog1|].
  destruct (BasePlugin.send (ctx_chatId ctx) thinking (plugin st))
    as [[tid|err] p2] eqn:Hsend.
  2:{ unfold handleChatMessage. unfold bind at 1. rewrite Hact.
      unfold bind at 1, ctx_sendMessage at 1. by rewrite Hplug, Hlog1, Hsend. }
  unfold handleChatMessage. unfold bind at 1. rewrite Hact.
  unfold bind at 1, ctx_sendMessage at 1. rewrite Hplug, Hlog1, Hsend.
  set (st2 := mkExec (world st1) (sessions st1) p2
                (log st ++ [EffSend thinking (Ok tid)])).
  unfold try_catch.
  destruct (truthy (ctx_sessionId ctx) && truthy (ctx_conversationId ctx)).
  2:{ unfold throw, ctx_editMessage. cbn [world sessions plugin log].
      destruct (BasePlugin.edit _ _ _ _) as [r p3].
      eexists _, _, [], _. split; [reflexivity|]. cbn [world sessions log].
      split_and!; try done. subst st2. cbn [log]. by rewrite <- app_assoc. }
  destruct (run_stream_targets ctx tid (stream collab) st2
              (mkChat 0 None None [tid] None) st2 None)
    as (c' & st3 & Hrun & (pre & Hlog3 & Hall & Htg & Hcur & Hs & Hd & Hb) & Hlast);
    [apply stream_ok_refl; unfold last_sent, str_or; simpl; by destruct (decide _)
    |done|].
  unfold bind at 1. rewrite Hrun.
  assert (last_event (stream collab) None = None → pre = []) as Hidle.
  { intros Hnone. rewrite run_stream_idle in Hrun by done.
    injection Hrun as _ <-. rewrite <- (app_nil_r (log st2)) in Hlog3 at 1.
    by apply app_inv_head in Hlog3. }
  assert (log st3 = log st ++ EffSend thinking (Ok tid) :: pre) as Hlog
    by (rewrite Hlog3; subst st2; cbn [log]; by rewrite <- app_assoc).
  destruct (stream_outcome collab) as [[]|message].
  - unfold ignore_errors, try_catch, ctx_editMessage, ret.
    cbn [world sessions plugin log lastMessageContent sentMessageIds].
    change (last_sent tid (mkChat (lastUpdateTime c') None (pendingMessage c')
                             (sentMessageIds c') (lastMessageContent c')))
      with (last_sent tid c').
    rewrite Hcur, Hlast.
    destruct (BasePlugin.edit _ _ _ _) as [[[]|err] p4];
      eexists _, _, pre, _; (split; [reflexivity|]); cbn [world sessions log];
      rewrite Hlog; (split_and!; try done);
      rewrite <- app_assoc; simpl; by destruct (last_event _ _).
  - unfold throw, ctx_editMessage. cbn [world sessions plugin log].
    destruct (BasePlugin.edit _ _ _ _) as [r p4].
    eexists _, _, pre, _. split; [reflexivity|]. cbn [world sessions log].
    rewrite Hlog. split_and!; try done. by rewrite <- app_assoc.
Qed.
End Chat_shape.





(** ** Dispatching an action *)

Section Dispatch.
Context {S : Type} `{!Connector S}.
Import ActionExecutor.
Implicit Types (st : Exec S) (ctx : IActionContext).

Lemma send_run ctx msg st :
  ∃ res st', (ctx_sendMessage ctx msg ;;; ret tt) st = ((λ _, tt) <$> res, st')
    ∧ log st' = log st ++ [EffSend msg res]
    ∧ sessions st' = sessions st ∧ world st' = world st.
Proof.
  unfold bind, ctx_sendMessage, ret.
  destruct (BasePlugin.send _ _ _) as [[id|err] p'];
    [exists (Ok id) | exists (Throw err)]; by eexists.
Qed.

Lemma send_result_run ctx result st :
  ∃ r st' new, send_result ctx result st = (r, st')
    ∧ log st' = log st ++ new
    ∧ sessions st' = sessions st ∧ world st' = world st
    ∧ match res_message result with
      | None => new = [] ∧ r = Ok tt
      | Some message => ∃ res, new = [EffSend message res] ∧ r = (λ _, tt) <$> res
      end.
Proof.
  unfold send_result. destruct (res_message result) as [message|].
  - destruct (send_run ctx message st) as (res & st' & -> & Hlog & Hs & Hw).
    eexists _, st', _. split; [reflexivity|]. split; [exact Hlog|].
    split; [done|]. split; [done|]. by exists res.
  - eexists _, st, []. split; [reflexivity|]. by rewrite app_nil_r.
Qed.
End Dispatch.

(** X18. What [executeAction] answers when an action cannot be carried
    out. For a name that is not registered it sends 'Unknown action:
    <name>' and runs no handler. When the handler of a registered action
    throws, it sends 'Action failed: <message>'. When the handler returns
    without a message nothing is sent; and when the handler's message
    cannot be delivered, that delivery error is reported as a failed
    action by a second send. In each case the call fails only if its last
    send does. *)
Theorem executeAction_outcomes {S : Type} `{!Connector S}
    (ctx : IActionContext) (actionName : string) (params : list (string * string))
    (collab : Collaborators) (st : ActionExecutor.Exec S) :
  (actionName ∉ ActionExecutor.actionRegistry →
     ∃ res st',
       ActionExecutor.executeAction ctx actionName params collab st
       = ((λ _, tt) <$> res, st')
       ∧ ActionExecutor.log st'
         = ActionExecutor.log st
           ++ [EffExecuteAction actionName;
               EffSend (mkOutgoing ("Unknown action: " +:+ actionName) None) res])
  ∧ (actionName ∈ ActionExecutor.actionRegistry → actionName ≠ "pairing.show" →
       ∃ r st' sends,
         ActionExecutor.executeAction ctx actionName params collab st = (r, st')
         ∧ ActionExecutor.log st'
           = ActionExecutor.log st
             ++ [EffExecuteAction actionName; EffHandler actionName] ++ sends
         ∧ match handler collab actionName params with
           | Throw message =>
               ∃ res, sends = [EffSend (mkOutgoing ("❌ Action failed: " +:+ message)
                                          None) res]
                      ∧ r = (λ _, tt) <$> res
           | Ok result =>
               match res_message result with
               | None => sends = [] ∧ r = Ok tt
               | Some message =>
                   (∃ messageId, sends = [EffSend message (Ok messageId)] ∧ r = Ok tt)
                   ∨ (∃ err res,
                        sends = [EffSend message (Throw err);
                                 EffSend (mkOutgoing ("❌ Action failed: " +:+ err)
                                            None) res]
                        ∧ r = (λ _, tt) <$> res)
               end
           end).
Proof.
  split.
  - intros Hunknown. unfold ActionExecutor.executeAction.
    unfold bind at 1, ActionExecutor.note at 1.
    rewrite bool_decide_eq_false_2 by done.
    match goal with |- context [(ActionExecutor.ctx_sendMessage ctx ?msg ;;; ret tt) ?st1] =>
      destruct (send_run ctx msg st1) as (res & st' & -> & Hlog & _)
    end.
    exists res, st'. split; [done|]. rewrite Hlog. simpl. by rewrite <- app_assoc.
  - intros Hknown Hne. unfold ActionExecutor.executeAction.
    unfold bind at 1, ActionExecutor.note at 1.
    rewrite bool_decide_eq_true_2 by done.
    unfold try_catch, ActionExecutor.run_handler.
    unfold bind at 1. unfold bind at 1, ActionExecutor.note at 1.
    rewrite decide_False by done.
    cbn [ActionExecutor.world ActionExecutor.sessions ActionExecutor.plugin
         ActionExecutor.log].
    set (st1 := ActionExecutor.mkExec _ _ _ _).
    assert (ActionExecutor.log st1
            = ActionExecutor.log st
              ++ [EffExecuteAction actionName; EffHandler actionName]) as Hlog1
      by (subst st1; simpl; by rewrite <- app_assoc).
    destruct (handler collab actionName params) as [result|message].
    + unfold ret at 1.
      destruct (send_result_run ctx result st1)
        as (r & st2 & new & -> & Hlog2 & _ & _ & Hcase).
      destruct (res_message result) as [message|].
      * destruct Hcase as ([messageId|err] & -> & ->); simpl.
        -- eexists _, _, _. split; [reflexivity|]. rewrite Hlog2, Hlog1.
           rewrite <- !app_assoc. split; [reflexivity|]. left. by eexists.
        -- match goal with |- context [(ActionExecutor.ctx_sendMessage ctx ?msg ;;; ret tt) ?s] =>
             destruct (send_run ctx msg s) as (res & st3 & -> & Hlog3 & _)
           end.
           eexists _, _, _. split; [reflexivity|]. rewrite Hlog3, Hlog2, Hlog1.
           rewrite <- !app_assoc. split; [reflexivity|]. right. by eexists _, _.
      * destruct Hcase as [-> ->]. eexists _, _, []. split; [reflexivity|].
        rewrite Hlog2, Hlog1. by rewrite !app_nil_r.
    + unfold throw at 1.
      match goal with |- context [(ActionExecutor.ctx_sendMessage ctx ?msg ;;; ret tt) ?s] =>
        destruct (send_run ctx msg s) as (res & st3 & -> & Hlog3 & _)
      end.
      eexists _, _, _. split; [reflexivity|]. rewrite Hlog3, Hlog1.
      rewrite <- !app_assoc. split; [reflexivity|]. by eexists.
Qed.

Lemma executeAction_outcomes_witness :
  ∃ res st',
    ActionExecutor.executeAction ChatDemo.context "action.regenerate" []
      ChatDemo.agent ChatDemo.start = ((λ _, tt) <$> res, st')
    ∧ ActionExecutor.log st'
      = [EffExecuteAction "action.regenerate";
         EffSend (mkOutgoing "Unknown action: action.regenerate" None) res].
Proof.
  destruct (proj1 (executeAction_outcomes ChatDemo.context "action.regenerate" []
                     ChatDemo.agent ChatDemo.start)) as (res & st' & Heq & Hlog).
  - apply (bool_decide_unpack _). by vm_compute.
  - by exists res, st'.
Defined.
(* ===================================================================== *)
(** * The router: how the session of a message is resolved                *)
(* ===================================================================== *)

Section Router_extras.
Context {S : Type} `{!Connector S}.
Import ActionExecutor.

Lemma od_ret {A} (a : A) : only_dispatches (S:=S) (ret a).
Proof. intros st. exists []. by rewrite app_nil_r. Qed.

Lemma od_throw {A} msg : only_dispatches (S:=S) (A:=A) (throw msg).
Proof. intros st. exists []. by rewrite app_nil_r. Qed.

Lemma od_bind {A B} (m : E (S:=S) A) (k : A → E B) :
  only_dispatches m → (∀ a, only_dispatches (k a)) → only_dispatches (bind m k).
Proof.
  intros Hm Hk st. unfold bind. destruct (Hm st) as (new1 & Hlog1 & Hall1).
  destruct (m st) as [[a|msg] st1]; simpl in *.
  - destruct (Hk a st1) as (new2 & Hlog2 & Hall2).
    exists (new1 ++ new2). rewrite Hlog2, Hlog1, <- app_assoc.
    split; [done|]. by apply Forall_app.
  - by exists new1.
Qed.

Lemma od_try_catch {A} (m : E (S:=S) A) (h : string → E A) :
  only_dispatches m → (∀ msg, only_dispatches (h msg)) →
  only_dispatches (try_catch m h).
Proof.
  intros Hm Hh st. unfold try_catch. destruct (Hm st) as (new1 & Hlog1 & Hall1).
  destruct (m st) as [[a|msg] st1]; simpl in *.
  - by exists new1.
  - destruct (Hh msg st1) as (new2 & Hlog2 & Hall2).
    exists (new1 ++ new2). rewrite Hlog2, Hlog1, <- app_assoc.
    split; [done|]. by apply Forall_app.
Qed.

Lemma od_note e : is_dispatch_effect e = true → only_dispatches (S:=S) (note e).
Proof. intros He st. exists [e]. split; [done|]. by constructor. Qed.

Lemma od_in_world {A} (m : M A) : only_dispatches (S:=S) (in_world m).
Proof.
  intros st. exists []. unfold in_world. destruct (m (world st)).
  simpl. by rewrite app_nil_r.
Qed.

Lemma od_in_sessions {A} (f : SessionManager.t → M (A * SessionManager.t)) :
  only_dispatches (S:=S) (in_sessions f).
Proof.
  intros st. exists []. unfold in_sessions.
  destruct (f (sessions st) (world st)) as [[[a m']|msg] w']; simpl;
    by rewrite app_nil_r.
Qed.

Lemma in_sessions_log {A} (f : SessionManager.t → M (A * SessionManager.t))
    (st : Exec S) :
  log (in_sessions f st).2 = log st.
Proof.
  unfold in_sessions. by destruct (f (sessions st) (world st)) as [[[a m']|msg] w'].
Qed.

Lemma od_send ctx msg : only_dispatches (S:=S) (ctx_sendMessage ctx msg).
Proof.
  intros st. unfold ctx_sendMessage.
  destruct (BasePlugin.send (ctx_chatId ctx) msg (plugin st)) as [r p'].
  exists [EffSend msg r]. split; [done|]. by constructor.
Qed.

Lemma od_edit ctx origin messageId msg :
  only_dispatches (S:=S) (ctx_editMessage ctx origin messageId msg).
Proof.
  intros st. unfold ctx_editMessage.
  destruct (BasePlugin.edit (ctx_chatId ctx) messageId msg (plugin st)) as [r p'].
  exists [EffEdit origin messageId msg r]. split; [done|]. by constructor.
Qed.

Lemma od_doEditMessage ctx tid msg c :
  only_dispatches (S:=S) (doEditMessage ctx tid msg c).
Proof.
  unfold doEditMessage, ignore_errors.
  apply od_bind; [apply od_in_world|]. intros now.
  apply od_bind; [|intros; apply od_ret].
  apply od_try_catch; [apply od_edit|intros; apply od_ret].
Qed.

Lemma od_onEvent ctx tid message isInsert c :
  only_dispatches (S:=S) (onEvent ctx tid message isInsert c).
Proof.
  unfold onEvent. apply od_bind; [apply od_in_world|]. intros now.
  destruct isInsert.
  - apply od_try_catch; [|intros; apply od_ret].
    apply od_bind; [apply od_send|intros; apply od_ret].
  - cbn [lastUpdateTime]. case_decide; [apply od_doEditMessage|apply od_ret].
Qed.

Lemma od_onTimer ctx tid c : only_dispatches (S:=S) (onTimer ctx tid c).
Proof.
  intros st. unfold onTimer.
  destruct (pendingUpdateTimer c) as [due|]; [|exists []; by rewrite app_nil_r].
  destruct (decide _) as [_|_]; [|exists []; by rewrite app_nil_r].
  revert st. change (only_dispatches (S:=S)
    (c' <- match pendingMessage c with
           | Some msg =>
               c' <- doEditMessage ctx tid msg c ;;
               ret (mkChat (lastUpdateTime c') (pendingUpdateTimer c') None
                           (sentMessageIds c') (lastMessageContent c'))
           | None => ret c
           end ;;
     ret (mkChat (lastUpdateTime c') None (pendingMessage c')
                 (sentMessageIds c') (lastMessageContent c')))).
  apply od_bind; [|intros; apply od_ret].
  destruct (pendingMessage c); [|apply od_ret].
  apply od_bind; [apply od_doEditMessage|intros; apply od_ret].
Qed.

Lemma od_run_stream ctx tid steps c :
  only_dispatches (S:=S) (run_stream ctx tid steps c).
Proof.
  revert c. induction steps as [|[message isInsert|] steps IH]; intros c; simpl.
  - apply od_ret.
  - apply od_bind; [apply od_onEvent|done].
  - apply od_bind; [apply od_onTimer|done].
Qed.

Lemma od_handleChatMessage ctx text collab :
  only_dispatches (S:=S) (handleChatMessage ctx text collab).
Proof.
  unfold handleChatMessage, touch_activity, ignore_errors.
  apply od_bind.
  { destruct (ctx_channelUser ctx); [apply od_in_sessions|apply od_ret]. }
  intros _. apply od_bind; [apply od_send|]. intros tid.
  apply od_try_catch; [|intros; apply od_edit].
  destruct (truthy (ctx_sessionId ctx) && truthy (ctx_conversationId ctx));
    [|apply od_throw].
  apply od_bind; [apply od_run_stream|]. intros c.
  destruct (stream_outcome collab); [|apply od_throw].
  apply od_try_catch; [apply od_edit|intros; apply od_ret].
Qed.

Lemma od_send_unit ctx msg :
  only_dispatches (S:=S) (ctx_sendMessage ctx msg ;;; ret tt).
Proof. apply od_bind; [apply od_send|intros; apply od_ret]. Qed.

Lemma od_executeAction ctx actionName params collab :
  only_dispatches (S:=S) (executeAction ctx actionName params collab).
Proof.
  unfold executeAction, run_handler, send_result.
  apply od_bind; [by apply od_note|]. intros _.
  case_bool_decide; [|apply od_send_unit].
  apply od_try_catch; [|intros; apply od_send_unit].
  apply od_bind.
  - apply od_bind; [by apply od_note|]. intros _.
    case_decide.
    + apply od_bind; [by apply od_note|]. intros _. apply od_in_world.
    + destruct (handler collab actionName params); [apply od_ret|apply od_throw].
  - intros result. destruct (res_message result); [apply od_send_unit|apply od_ret].
Qed.

(** The last step of the router, with the session resolved. *)
Lemma od_dispatch ctx message collab :
  only_dispatches (S:=S)
    (match in_action message with
     | Some action => executeAction ctx (act_name action) (act_params action) collab
     | None =>
         if decide (in_contentType message = ct_action) then
           executeAction ctx (in_contentText message) [] collab
         else if bool_decide (in_contentType message = ct_text)
                 && negb (String.eqb (in_contentText message) "") then
           note (EffChat (in_contentText message)) ;;;
           handleChatMessage ctx (in_contentText message) collab
         else
           ctx_sendMessage ctx
             (mkOutgoing "This message type is not supported. Please send a text message."
                         (Some MainMenuKeyboard)) ;;;
           ret tt
     end).
Proof.
  destruct (in_action message); [apply od_executeAction|].
  case_decide; [apply od_executeAction|].
  destruct (_ && _); [|apply od_send_unit].
  apply od_bind; [by apply od_note|]. intros _. apply od_handleChatMessage.
Qed.
End Router_extras.


(* ===================================================================== *)
(** * The Telegram adapter: escaping, callback data, long messages        *)
(* ===================================================================== *)

Lemma replace_all_app c by_ a b :
  TelegramAdapter.replace_all c by_ (a +:+ b)
  = TelegramAdapter.replace_all c by_ a +:+ TelegramAdapter.replace_all c by_ b.
Proof.
  induction a as [|x a IH]; [done|].
  rewrite string_app_cons. cbn [TelegramAdapter.replace_all].
  by rewrite IH, string_app_assoc.
Qed.

Lemma escapeHtml_cons x rest :
  TelegramAdapter.escapeHtml (String x rest)
  = (if decide (x = "&"%char) then "&amp;"
     else if decide (x = "<"%char) then "&lt;"
     else if decide (x = ">"%char) then "&gt;"
     else String x EmptyString) +:+ TelegramAdapter.escapeHtml rest.
Proof.
  unfold TelegramAdapter.escapeHtml. cbn [TelegramAdapter.replace_all].
  rewrite !replace_all_app. f_equal.
  destruct (decide (x = "&"%char)) as [->|Hamp]; [done|].
  cbn [TelegramAdapter.replace_all]. rewrite string_app_nil.
  destruct (decide (x = "<"%char)) as [->|Hlt]; [done|].
  cbn [TelegramAdapter.replace_all]. rewrite string_app_nil.
  by destruct (decide (x = ">"%char)) as [->|Hgt].
Qed.

Lemma escapeHtml_one_pass text : TelegramAdapter.escapeHtml text = escapeHtml text.
Proof.
  induction text as [|x rest IH]; [done|].
  rewrite escapeHtml_cons. cbn [escapeHtml]. by rewrite IH.
Qed.

Lemma escapeHtml_chars text c :
  c ∈ String.list_ascii_of_string (TelegramAdapter.escapeHtml text) →
  c ≠ "<"%char ∧ c ≠ ">"%char.
Proof.
  induction text as [|x rest IH]; [by intros ?%elem_of_nil|].
  rewrite escapeHtml_cons, list_ascii_app. intros [Hc|Hc]%elem_of_app; [|by apply IH].
  revert Hc. repeat case_decide; simpl; rewrite ?elem_of_cons, elem_of_nil;
    intros Hc; destruct_or?; subst; try done.
Qed.

Lemma escapeHtml_inj a b :
  TelegramAdapter.escapeHtml a = TelegramAdapter.escapeHtml b → a = b.
Proof.
  revert b. induction a as [|x a IH]; intros [|y b].
  - done.
  - rewrite escapeHtml_cons. by repeat case_decide.
  - rewrite escapeHtml_cons. by repeat case_decide.
  - rewrite !escapeHtml_cons.
    repeat case_decide; subst; rewrite ?string_app_cons, ?string_app_nil_l;
      intros Heq; simplify_eq; try done; f_equal; by apply IH.
Qed.

(** X20. [escapeHtml] makes a text safe to embed and loses nothing: the
    three replacements amount to escaping each character once (an
    ampersand written by a replacement is not escaped again), the result
    contains neither '<' nor '>', and different texts have different
    results. *)
Theorem escapeHtml_safe (text other : string) :
  TelegramAdapter.escapeHtml text = escapeHtml text
  ∧ ("<"%char ∉ String.list_ascii_of_string (TelegramAdapter.escapeHtml text))
  ∧ (">"%char ∉ String.list_ascii_of_string (TelegramAdapter.escapeHtml text))
  ∧ (TelegramAdapter.escapeHtml text = TelegramAdapter.escapeHtml other →
     text = other).
Proof.
  split_and!.
  - apply escapeHtml_one_pass.
  - intros Hc. by apply escapeHtml_chars in Hc as [? _].
  - intros Hc. by apply escapeHtml_chars in Hc as [_ ?].
  - apply escapeHtml_inj.
Qed.

Lemma escapeHtml_safe_witness :
  TelegramAdapter.escapeHtml "a<b>&amp;" = "a&lt;b&gt;&amp;amp;"
  ∧ "a<b>&amp;" = "a<b>&amp;".
Proof.
  split; [reflexivity|].
  exact (proj2 (proj2 (proj2 (escapeHtml_safe "a<b>&amp;" "a<b>&amp;"))) eq_refl).
Defined.

Lemma split_nonempty sep s : TelegramAdapter.split sep s ≠ [].
Proof.
  destruct s as [|c rest]; [done|]. simpl. case_decide; [done|].
  by destruct (TelegramAdapter.split sep rest).
Qed.

Lemma join_cons sep part rest :
  rest ≠ [] →
  TelegramAdapter.join sep (part :: rest)
  = part +:+ sep +:+ TelegramAdapter.join sep rest.
Proof. by destruct rest. Qed.

Lemma join_split sep s :
  TelegramAdapter.join (String sep EmptyString) (TelegramAdapter.split sep s) = s.
Proof.
  induction s as [|c rest IH]; [done|]. cbn [TelegramAdapter.split].
  case_decide as Hc.
  - subst c. rewrite join_cons by apply split_nonempty.
    by rewrite IH, string_app_nil_l, string_app_cons, string_app_nil_l.
  - pose proof (split_nonempty sep rest) as Hne.
    destruct (TelegramAdapter.split sep rest) as [|part parts]; [done|].
    destruct parts as [|part' parts].
    + simpl in *. by rewrite IH.
    + rewrite join_cons by done. rewrite join_cons in IH by done.
      by rewrite string_app_cons, IH.
Qed.

Lemma split_no_sep sep s :
  sep ∉ String.list_ascii_of_string s → TelegramAdapter.split sep s = [s].
Proof.
  induction s as [|c rest IH]; [done|]. simpl.
  rewrite not_elem_of_cons. intros [Hc Hrest].
  rewrite decide_False by done. by rewrite IH.
Qed.

Lemma split_app_sep sep a b :
  sep ∉ String.list_ascii_of_string a →
  TelegramAdapter.split sep (a +:+ String sep b) = a :: TelegramAdapter.split sep b.
Proof.
  induction a as [|c a IH].
  - intros _. rewrite string_app_nil_l. simpl. by rewrite decide_True.
  - cbn [String.list_ascii_of_string]. rewrite not_elem_of_cons. intros [Hc Ha].
    rewrite string_app_cons. cbn [TelegramAdapter.split].
    rewrite decide_False by done. by rewrite IH.
Qed.

Lemma split_parts_no_sep sep s :
  Forall (λ part, sep ∉ String.list_ascii_of_string part) (TelegramAdapter.split sep s).
Proof.
  induction s as [|c rest IH]; simpl.
  - constructor; [by intros ?%elem_of_nil|done].
  - case_decide as Hc.
    + constructor; [by intros ?%elem_of_nil|done].
    + destruct (TelegramAdapter.split sep rest) as [|part parts];
        [by repeat constructor; simpl; rewrite not_elem_of_cons;
            split; [congruence|intros ?%elem_of_nil]|].
      inversion IH as [|? ? Hpart Hparts]; subst. constructor; [|done].
      simpl. rewrite not_elem_of_cons. split; [congruence|done].
Qed.

Lemma split_join sep parts :
  parts ≠ [] →
  Forall (λ part, sep ∉ String.list_ascii_of_string part) parts →
  TelegramAdapter.split sep (TelegramAdapter.join (String sep EmptyString) parts)
  = parts.
Proof.
  induction parts as [|part rest IH]; [done|]. intros _ Hall.
  inversion Hall as [|? ? Hpart Hrest]; subst.
  destruct rest as [|part' rest]; [by apply split_no_sep|].
  rewrite join_cons by done. rewrite string_app_cons, string_app_nil_l.
  rewrite split_app_sep by done. by rewrite IH.
Qed.

(** X21. Callback data is built and parsed consistently. Building from
    the action and parameters of parsed data gives the data back; and
    parsing what was built gives the action and parameters back exactly
    when none of them contains a colon. *)
Theorem callback_data_round_trip (data action : string) (params : list string) :
  TelegramAdapter.buildCallbackData
    (TelegramAdapter.cb_action (TelegramAdapter.parseCallbackData data))
    (TelegramAdapter.cb_params (TelegramAdapter.parseCallbackData data)) = data
  ∧ (TelegramAdapter.parseCallbackData (TelegramAdapter.buildCallbackData action params)
     = TelegramAdapter.mkCallbackData action params
     ↔ Forall (λ part, ":"%char ∉ String.list_ascii_of_string part)
              (action :: params)).
Proof.
  unfold TelegramAdapter.buildCallbackData, TelegramAdapter.parseCallbackData.
  split.
  - cbn [TelegramAdapter.cb_action TelegramAdapter.cb_params].
    pose proof (split_nonempty ":" data) as Hne.
    pose proof (join_split ":" data) as Hjoin.
    destruct (TelegramAdapter.split ":" data) as [|part parts]; [done|].
    cbn [hd drop]. exact Hjoin.
  - split.
    + intros Heq.
      pose proof (split_parts_no_sep ":"
                    (TelegramAdapter.join ":" (action :: params))) as Hall.
      pose proof (split_nonempty ":"
                    (TelegramAdapter.join ":" (action :: params))) as Hne.
      destruct (TelegramAdapter.split ":" _) as [|part parts]; [done|].
      cbn [hd drop] in Heq. by simplify_eq.
    + intros Hall. by rewrite split_join.
Qed.

Lemma callback_data_round_trip_witness :
  TelegramAdapter.parseCallbackData
    (TelegramAdapter.buildCallbackData "agent" ["gemini"])
  = TelegramAdapter.mkCallbackData "agent" ["gemini"].
Proof.
  apply (proj2 (proj2 (callback_data_round_trip "" "agent" ["gemini"]))).
  repeat constructor; simpl; rewrite ?not_elem_of_cons;
    split_and?; try done; by intros ?%elem_of_nil.
Defined.

(** X22. A tool confirmation survives the trip through a button. For a
    call id without a colon, the confirm branch of [handleCallbackQuery]
    recovers the call id and the value the keyboard encoded, whatever the
    value contains. A call id with a colon is cut at its first colon, and
    what follows is taken for the beginning of the value. *)
Theorem confirm_callback_round_trip (callId value rest : string) :
  ":"%char ∉ String.list_ascii_of_string callId →
  TelegramAdapter.confirmCall (TelegramAdapter.confirmCallbackData callId value)
  = Some (callId, value)
  ∧ TelegramAdapter.confirmCall
      (TelegramAdapter.confirmCallbackData (callId +:+ ":" +:+ rest) value)
    = Some (callId, rest +:+ ":" +:+ value).
Proof.
  intros Hid.
  assert (∀ tail,
    TelegramAdapter.confirmCall ("confirm:" +:+ callId +:+ ":" +:+ tail)
    = Some (callId, tail)) as Hcall.
  { intros tail. unfold TelegramAdapter.confirmCall, TelegramAdapter.extractCategory.
    assert (TelegramAdapter.split ":" ("confirm:" +:+ callId +:+ ":" +:+ tail)
            = "confirm" :: callId :: TelegramAdapter.split ":" tail) as ->.
    { change ("confirm:" +:+ callId +:+ ":" +:+ tail)
        with ("confirm" +:+ String ":" (callId +:+ String ":" tail)).
      rewrite split_app_sep by (apply (bool_decide_unpack _); by vm_compute).
      by rewrite split_app_sep. }
    cbn [hd]. rewrite decide_True by done.
    pose proof (split_nonempty ":" tail) as Hne.
    rewrite decide_True
      by (destruct (TelegramAdapter.split ":" tail); [done|simpl; lia]).
    cbn [nth drop]. by rewrite drop_0, join_split. }
  split; [apply Hcall|].
  unfold TelegramAdapter.confirmCallbackData.
  rewrite <- Hcall. f_equal. by rewrite !string_app_assoc.
Qed.

Lemma confirm_callback_round_trip_witness :
  TelegramAdapter.confirmCall
    (TelegramAdapter.confirmCallbackData "call-7" "proceed:always")
  = Some ("call-7", "proceed:always").
Proof.
  apply (confirm_callback_round_trip "call-7" "proceed:always" "").
  apply (bool_decide_unpack _). by vm_compute.
Defined.

Section SplitMessage.
Import TelegramAdapter.

Lemma trimStart_length s : (length (trimStart s) ≤ length s)%nat.
Proof. induction s as [|u s IH]; simpl; [done|]. destruct (is_white u); simpl; lia. Qed.

Lemma trimStart_visible s : visible (trimStart s) = visible s.
Proof.
  unfold visible. induction s as [|u s IH]; cbn [trimStart]; [done|].
  destruct (is_white u) eqn:Hu; [|done].
  rewrite (filter_cons_False _ u) by (by rewrite Hu). done.
Qed.

Lemma trimEnd_length s : (length (trimEnd s) ≤ length s)%nat.
Proof.
  unfold trimEnd. rewrite length_reverse.
  etrans; [apply trimStart_length|]. by rewrite length_reverse.
Qed.

Lemma trimEnd_visible s : visible (trimEnd s) = visible s.
Proof.
  pose proof (trimStart_visible (reverse s)) as Hstart.
  unfold trimEnd, visible in *.
  by rewrite filter_reverse, Hstart, filter_reverse, reverse_involutive.
Qed.

Lemma trim_length s : (length (trim s) ≤ length s)%nat.
Proof.
  unfold trim. etrans; [apply trimEnd_length|apply trimStart_length].
Qed.

Lemma trim_visible s : visible (trim s) = visible s.
Proof. unfold trim. by rewrite trimEnd_visible, trimStart_visible. Qed.

Lemma trimEnd_snoc s u : is_white u = true → trimEnd (s ++ [u]) = trimEnd s.
Proof. intros Hu. unfold trimEnd. rewrite reverse_snoc. simpl. by rewrite Hu. Qed.

Lemma trimStart_snoc s u :
  is_white u = true →
  trimStart (s ++ [u]) = [] ∨ trimStart (s ++ [u]) = trimStart s ++ [u].
Proof.
  intros Hu. induction s as [|v s IH]; simpl.
  - rewrite Hu. by left.
  - destruct (is_white v); [done|by right].
Qed.

(** A chunk cut after a white code unit loses at least that unit. *)
Lemma trim_snoc_length s u :
  is_white u = true → (length (trim (s ++ [u])) ≤ length s)%nat.
Proof.
  intros Hu. unfold trim. destruct (trimStart_snoc s u Hu) as [->| ->].
  - simpl. lia.
  - rewrite trimEnd_snoc by done.
    etrans; [apply trimEnd_length|apply trimStart_length].
Qed.

Lemma lastIndexOf_from_spec c s k :
  lastIndexOf_from c s k = -1
  ∨ ∃ i, lastIndexOf_from c s k = Z.of_nat i ∧ (i ≤ k)%nat ∧ s !! i = Some c.
Proof.
  induction k as [|k IH]; simpl.
  - case_bool_decide; [right; by exists 0%nat|by left].
  - case_bool_decide as Hk; [right; by exists (Datatypes.S k)|].
    destruct IH as [->|(i & -> & Hi & Hc)]; [by left|].
    right. exists i. split_and!; [done|lia|done].
Qed.

Lemma lastIndexOf_spec c s position :
  lastIndexOf c s position = -1
  ∨ ∃ i, lastIndexOf c s position = Z.of_nat i ∧ (i ≤ position)%nat
         ∧ s !! i = Some c.
Proof.
  unfold lastIndexOf.
  destruct (lastIndexOf_from_spec c s (position `min` (length s - 1)))
    as [->|(i & -> & Hi & Hc)]; [by left|].
  right. exists i. split_and!; [done|lia|done].
Qed.

(** Where the loop cuts: at least one code unit is consumed, and what is
    pushed fits. *)
Lemma splitIndex_spec remaining maxLength :
  (1 ≤ maxLength)%nat → (maxLength < length remaining)%nat →
  (1 ≤ splitIndex remaining maxLength)%nat
  ∧ (length (trim (take (splitIndex remaining maxLength) remaining)) ≤ maxLength)%nat.
Proof.
  intros Hmax Hlen.
  assert (∀ c i, is_white c = true → (i ≤ maxLength)%nat → remaining !! i = Some c →
            (1 ≤ Z.to_nat (Z.of_nat i + 1))%nat
            ∧ (length (trim (take (Z.to_nat (Z.of_nat i + 1)) remaining))
               ≤ maxLength)%nat) as Hcut.
  { intros c i Hc Hi Hlook. split; [lia|].
    replace (Z.to_nat (Z.of_nat i + 1)) with (Datatypes.S i) by lia.
    rewrite (take_S_r _ _ c) by done.
    etrans; [by apply trim_snoc_length|]. rewrite length_take. lia. }
  assert ((1 ≤ maxLength)%nat
          ∧ (length (trim (take maxLength remaining)) ≤ maxLength)%nat) as Hwhole.
  { split; [done|]. etrans; [apply trim_length|]. rewrite length_take. lia. }
  unfold splitIndex. cbv zeta.
  case_decide as Hnl.
  - destruct (lastIndexOf_spec line_feed remaining maxLength)
      as [Heq|(i & Heq & Hi & Hlook)]; rewrite Heq in *.
    + assert (0 ≤ (4 * Z.of_nat maxLength) `div` 5) by (apply Z.div_pos; lia). lia.
    + by apply (Hcut line_feed).
  - case_decide as Hsp; [|done].
    destruct (lastIndexOf_spec space remaining maxLength)
      as [Heq|(i & Heq & Hi & Hlook)]; rewrite Heq in *.
    + assert (0 ≤ (4 * Z.of_nat maxLength) `div` 5) by (apply Z.div_pos; lia). lia.
    + by apply (Hcut space).
Qed.

Lemma splitMessage_loop_spec maxLength fuel remaining chunks :
  (1 ≤ maxLength)%nat → (length remaining < fuel)%nat →
  Forall (λ chunk, (length chunk ≤ maxLength)%nat) chunks →
  ∃ result,
    splitMessage_loop fuel maxLength remaining chunks = Some result
    ∧ (∀ fuel', (length remaining < fuel')%nat →
         splitMessage_loop fuel' maxLength remaining chunks = Some result)
    ∧ Forall (λ chunk, (length chunk ≤ maxLength)%nat) result
    ∧ visible (concat result) = visible (concat chunks) ++ visible remaining.
Proof.
  intros Hmax. revert remaining chunks.
  induction fuel as [|fuel IH]; intros remaining chunks Hfuel Hchunks; [lia|].
  cbn [splitMessage_loop].
  destruct (decide (0 < length remaining)%nat) as [Hpos|Hzero].
  - destruct (decide (length remaining ≤ maxLength)%nat) as [Hfits|Hlong].
    + exists (chunks ++ [remaining]). split_and!.
      * done.
      * intros [|fuel'] Hfuel'; [lia|]. cbn [splitMessage_loop].
        by rewrite !decide_True.
      * apply Forall_app. split; [done|]. by constructor.
      * unfold visible. rewrite concat_app, filter_app. simpl. by rewrite app_nil_r.
    + destruct (splitIndex_spec remaining maxLength) as [Hi Htake]; [done|lia|].
      set (i := splitIndex remaining maxLength) in *.
      assert (length (trim (drop i remaining)) < length remaining)%nat as Hshorter.
      { eapply Nat.le_lt_trans; [apply trim_length|]. rewrite length_drop. lia. }
      destruct (IH (trim (drop i remaining)) (chunks ++ [trim (take i remaining)]))
        as (result & Hrun & Hany & Hall & Hvis).
      { lia. }
      { apply Forall_app. split; [done|]. by constructor. }
      exists result. split_and!.
      * done.
      * intros [|fuel'] Hfuel'; [lia|]. cbn [splitMessage_loop].
        rewrite decide_True, decide_False by done.
        fold i. apply Hany. lia.
      * done.
      * rewrite Hvis. pose proof (trim_visible (take i remaining)) as Htake'.
        pose proof (trim_visible (drop i remaining)) as Hdrop'.
        unfold visible in *. rewrite concat_app, filter_app. simpl.
        rewrite app_nil_r, Htake', Hdrop', <- app_assoc, <- filter_app.
        by rewrite take_drop.
  - exists chunks. split_and!.
    + done.
    + intros [|fuel'] Hfuel'; [lia|]. cbn [splitMessage_loop].
      by rewrite decide_False.
    + done.
    + destruct remaining; [|simpl in Hzero; lia]. unfold visible. simpl.
      by rewrite app_nil_r.
Qed.

(** With [maxLength = 0] the loop cuts nothing off. *)
Lemma splitMessage_loop_zero fuel remaining chunks u :
  u ∈ remaining → is_white u = false →
  splitMessage_loop fuel 0 remaining chunks = None.
Proof.
  revert remaining chunks.
  induction fuel as [|fuel IH]; intros remaining chunks Hu Hwhite; [done|].
  cbn [splitMessage_loop].
  assert (0 < length remaining)%nat
    by (destruct remaining; [by apply elem_of_nil in Hu|simpl; lia]).
  rewrite decide_True, decide_False by lia.
  assert (splitIndex remaining 0 = 0%nat) as ->.
  { unfold splitIndex. cbv zeta.
    assert (∀ c, lastIndexOf c remaining 0 ≤ 0) as Hlast.
    { intros c. destruct (lastIndexOf_spec c remaining 0)
        as [->|(i & -> & Hi & _)]; lia. }
    change ((4 * Z.of_nat 0) `div` 5) with 0.
    pose proof (Hlast space). pose proof (Hlast line_feed).
    rewrite !decide_False by lia. done. }
  rewrite drop_0. apply IH; [|done].
  assert (u ∈ visible (trim remaining)) as Hin
    by (rewrite trim_visible; by apply list_elem_of_filter).
  by apply list_elem_of_filter in Hin as [_ ?].
Qed.
End SplitMessage.

(** X23. [splitMessage] with a positive limit returns, every chunk it
    returns is at most [maxLength] code units long (a chunk cut one unit
    past the limit ends in the line feed or space that [trim] removes),
    and the chunks together are the text up to white space: no other
    character is lost, added or moved. With [maxLength = 0] and a text
    that has a character other than white space the loop never ends. *)
Theorem splitMessage_chunks (text : TelegramAdapter.JsString) (maxLength : nat) :
  ((1 ≤ maxLength)%nat →
   ∃ chunks,
     (∀ fuel, (length text < fuel)%nat →
        TelegramAdapter.splitMessage fuel text maxLength = Some chunks)
     ∧ Forall (λ chunk, (length chunk ≤ maxLength)%nat) chunks
     ∧ TelegramAdapter.visible (concat chunks) = TelegramAdapter.visible text)
  ∧ ((∃ u, u ∈ text ∧ TelegramAdapter.is_white u = false) →
     ∀ fuel, TelegramAdapter.splitMessage fuel text 0 = None).
Proof.
  split.
  - intros Hmax. unfold TelegramAdapter.splitMessage.
    destruct (decide (length text ≤ maxLength)%nat) as [Hfits|Hlong].
    + exists [text]. split_and!; [done|by repeat constructor|].
      simpl. by rewrite app_nil_r.
    + destruct (splitMessage_loop_spec maxLength (Datatypes.S (length text)) text [])
        as (chunks & _ & Hany & Hall & Hvis); [done|lia|done|].
      by exists chunks.
  - intros (u & Hu & Hwhite) fuel. unfold TelegramAdapter.splitMessage.
    rewrite decide_False.
    + by apply (splitMessage_loop_zero fuel text [] u).
    + destruct text; [by apply elem_of_nil in Hu|simpl; lia].
Qed.

Lemma splitMessage_chunks_witness :
  (1 ≤ 5)%nat
  ∧ ∃ chunks,
      TelegramAdapter.splitMessage 9 [104; 105; 32; 116; 104; 101; 114; 101]%N 5
      = Some chunks
      ∧ Forall (λ chunk, (length chunk ≤ 5)%nat) chunks.
Proof.
  split; [lia|].
  destruct (proj1 (splitMessage_chunks
                     [104; 105; 32; 116; 104; 101; 114; 101]%N 5))
    as (chunks & Hany & Hall & _); [lia|].
  exists chunks. split; [apply Hany; simpl; lia|done].
Defined.

Lemma foldl_largest (pre l : list TelegramAdapter.PhotoSize) acc i :
  pre !! i = Some acc →
  (∀ q, q ∈ pre → (TelegramAdapter.photo_area q ≤ TelegramAdapter.photo_area acc)%N) →
  (∀ j q, (j < i)%nat → pre !! j = Some q →
          (TelegramAdapter.photo_area q < TelegramAdapter.photo_area acc)%N) →
  ∃ i',
    (pre ++ l) !! i'
    = Some (foldl (λ largest current,
                     if decide (TelegramAdapter.photo_area largest
                                < TelegramAdapter.photo_area current)%N
                     then current else largest) acc l)
    ∧ (∀ q, q ∈ pre ++ l →
         (TelegramAdapter.photo_area q
          ≤ TelegramAdapter.photo_area
              (foldl (λ largest current,
                        if decide (TelegramAdapter.photo_area largest
                                   < TelegramAdapter.photo_area current)%N
                        then current else largest) acc l))%N)
    ∧ (∀ j q, (j < i')%nat → (pre ++ l) !! j = Some q →
         (TelegramAdapter.photo_area q
          < TelegramAdapter.photo_area
              (foldl (λ largest current,
                        if decide (TelegramAdapter.photo_area largest
                                   < TelegramAdapter.photo_area current)%N
                        then current else largest) acc l))%N).
Proof.
  revert pre acc i. induction l as [|x l IH]; intros pre acc i Hi Hmax Hfirst.
  - exists i. rewrite app_nil_r. by split_and!.
  - cbn [foldl]. replace (pre ++ x :: l) with ((pre ++ [x]) ++ l)
      by (by rewrite <- app_assoc).
    pose proof (lookup_lt_Some _ _ _ Hi) as Hlt.
    case_decide as Hx.
    + apply (IH (pre ++ [x]) x (length pre)).
      * by rewrite lookup_app_r, Nat.sub_diag by lia.
      * intros q [Hq|Hq%list_elem_of_singleton]%elem_of_app; [|by subst].
        specialize (Hmax q Hq). lia.
      * intros j q Hj Hq. rewrite lookup_app_l in Hq by done.
        apply list_elem_of_lookup_2 in Hq. specialize (Hmax q Hq). lia.
    + apply (IH (pre ++ [x]) acc i).
      * by rewrite lookup_app_l.
      * intros q [Hq|Hq%list_elem_of_singleton]%elem_of_app; [by apply Hmax|].
        subst. lia.
      * intros j q Hj Hq. rewrite lookup_app_l in Hq by lia. by apply (Hfirst j).
Qed.

(** X24. [getLargestPhoto] returns the first photo among those of the
    largest area (width times height), and nothing exactly when there is
    no photo. *)
Theorem getLargestPhoto_first_largest (photos : list TelegramAdapter.PhotoSize) :
  match TelegramAdapter.getLargestPhoto photos with
  | None => photos = []
  | Some photo =>
      ∃ i, photos !! i = Some photo
        ∧ (∀ q, q ∈ photos →
             (TelegramAdapter.photo_area q ≤ TelegramAdapter.photo_area photo)%N)
        ∧ (∀ j q, (j < i)%nat → photos !! j = Some q →
             (TelegramAdapter.photo_area q < TelegramAdapter.photo_area photo)%N)
  end.
Proof.
  destruct photos as [|first rest]; [done|].
  unfold TelegramAdapter.getLargestPhoto. cbn [foldl].
  rewrite decide_False by lia.
  apply (foldl_largest [first] rest first 0); [done|..].
  - by intros q ->%list_elem_of_singleton.
  - intros; lia.
Qed.
(* ===================================================================== *)
(** * The channel manager: enabling and disabling a plugin                *)
(* ===================================================================== *)

Lemma same_registration_refl c : same_registration c c.
Proof. by repeat split. Qed.

Lemma same_registration_status id status lastConnected now c :
  same_registration c
    (if decide (cfg_id c = id)
     then mkPluginConfig (cfg_id c) (cfg_type c) (cfg_name c) (cfg_enabled c)
            (cfg_credentials c) status
            (match lastConnected with Some t => Some t | None => cfg_lastConnected c end)
            (cfg_createdAt c) now
     else c).
Proof. case_decide; by repeat split. Qed.

Lemma getChannelPlugin_fmap id (f : IChannelPluginConfig → IChannelPluginConfig)
    (d d' : Database) :
  assistant_plugins d' = f <$> assistant_plugins d →
  (∀ c, cfg_id (f c) = cfg_id c) →
  Db.getChannelPlugin id d'
  = match Db.getChannelPlugin id d with
    | QOk data => QOk (f <$> data)
    | QFail err => QFail err
    end.
Proof.
  intros Hrows Hid. unfold Db.getChannelPlugin. rewrite Hrows.
  rewrite js_find_fmap; [done|]. intros c. by rewrite Hid.
Qed.

Lemma getChannelPlugin_id id d c :
  Db.getChannelPlugin id d = QOk (Some c) → cfg_id c = id.
Proof.
  unfold Db.getChannelPlugin. intros [= Hfind].
  induction (assistant_plugins d) as [|x l IH]; [done|]. simpl in Hfind.
  case_bool_decide; [by simplify_eq|by apply IH].
Qed.

Lemma getChannelPlugin_None id d :
  Db.getChannelPlugin id d = QOk None ↔ id ∉ cfg_id <$> assistant_plugins d.
Proof.
  unfold Db.getChannelPlugin.
  induction (assistant_plugins d) as [|x l IH]; csimpl.
  - split; [intros _; apply not_elem_of_nil|done].
  - rewrite not_elem_of_cons. case_bool_decide as Hx.
    + split; [done|]. by intros [? _].
    + rewrite IH. split; [by intros ?|by intros [_ ?]].
Qed.

Lemma js_find_update id (g : IChannelPluginConfig → IChannelPluginConfig)
    (l : list IChannelPluginConfig) :
  (∀ c, cfg_id (g c) = cfg_id c) →
  js_find (λ c, bool_decide (cfg_id c = id))
          ((λ c, if decide (cfg_id c = id) then g c else c) <$> l)
  = g <$> js_find (λ c, bool_decide (cfg_id c = id)) l.
Proof.
  intros Hg. induction l as [|x l IH]; csimpl; [done|].
  destruct (decide (cfg_id x = id)) as [Hx|Hx].
  - rewrite !bool_decide_eq_true_2; [done|done|by rewrite Hg].
  - by rewrite !bool_decide_eq_false_2.
Qed.

Lemma js_find_snoc {A} (p : A → bool) (l : list A) x :
  js_find p l = None → js_find p (l ++ [x]) = if p x then Some x else None.
Proof.
  induction l as [|y l IH]; simpl; [done|]. destruct (p y); [done|apply IH].
Qed.

(** The row [getChannelPlugin] finds after [upsertChannelPlugin]. *)
Lemma getChannelPlugin_upsert plugin now d :
  Db.getChannelPlugin (cfg_id plugin) (upsertChannelPlugin plugin now d)
  = QOk (Some
      (match Db.getChannelPlugin (cfg_id plugin) d with
       | QOk (Some c) =>
           mkPluginConfig (cfg_id c) (cfg_type c) (cfg_name plugin)
             (cfg_enabled plugin) (stored_credentials (cfg_credentials plugin))
             (cfg_status plugin) (cfg_lastConnected plugin) (cfg_createdAt c) now
       | _ =>
           mkPluginConfig (cfg_id plugin) (cfg_type plugin) (cfg_name plugin)
             (cfg_enabled plugin) (stored_credentials (cfg_credentials plugin))
             (cfg_status plugin) (cfg_lastConnected plugin)
             (if decide (cfg_createdAt plugin = 0) then now
              else cfg_createdAt plugin) now
       end)).
Proof.
  unfold upsertChannelPlugin. case_bool_decide as Hin.
  - destruct (Db.getChannelPlugin (cfg_id plugin) d) as [[c|]|err] eqn:Hget.
    + unfold Db.getChannelPlugin in *. simpl.
      rewrite (js_find_update (cfg_id plugin)
                 (λ c, mkPluginConfig (cfg_id c) (cfg_type c) (cfg_name plugin)
                         (cfg_enabled plugin)
                         (stored_credentials (cfg_credentials plugin))
                         (cfg_status plugin) (cfg_lastConnected plugin)
                         (cfg_createdAt c) now)) by done.
      by injection Hget as ->.
    + by apply getChannelPlugin_None in Hget.
    + done.
  - pose proof (proj2 (getChannelPlugin_None _ _) Hin) as Hnone. rewrite Hnone.
    unfold Db.getChannelPlugin in *. simpl. injection Hnone as Hnone.
    rewrite js_find_snoc by done. simpl. by rewrite bool_decide_eq_true_2.
Qed.

Lemma updateChannelPluginStatus_absent id status lastConnected now d :
  Db.getChannelPlugin id d = QOk None →
  Db.updateChannelPluginStatus id status lastConnected now d = d.
Proof.
  intros Hnone%getChannelPlugin_None. unfold Db.updateChannelPluginStatus, set_plugins.
  destruct d as [plugins users sessions codes]. simpl in *. f_equal.
  induction plugins as [|x l IH]; [done|]. csimpl in *.
  apply not_elem_of_cons in Hnone as [Hx Hl].
  rewrite decide_False by done. f_equal. by apply IH.
Qed.

Section Manager_extras.
Context {S : Type} `{!Connector S}.
Import PluginManager.
Implicit Types (pm : PluginManager.t S) (w : World) (config : IChannelPluginConfig).

(** What [startPlugin] does to the store and to the map, whatever its
    outcome. *)
Lemma startPlugin_summary config pm w :
  ∃ r pm' w' f,
    startPlugin config pm w = (Ok (r, pm'), w')
    ∧ assistant_plugins (db w') = f <$> assistant_plugins (db w)
    ∧ (∀ c, same_registration c (f c))
    ∧ (r = Ok tt ↔ JsMap.has (cfg_id config) (plugins pm') = true)
    ∧ (∀ msg, r = Throw msg → getPluginError (cfg_id config) pm' ≠ None).
Proof.
  unfold startPlugin.
  destruct (JsMap.has (cfg_id config) (plugins (with_errors _ pm))) eqn:Hhas.
  { exists (Ok tt), (with_errors (delete (cfg_id config)) pm), w, id.
    split_and!; [done|by rewrite list_fmap_id|intros; apply same_registration_refl
                |done|done]. }
  assert (∀ errorMsg thrown,
    ∃ r pm' w' f,
      start_failed (cfg_id config) config errorMsg thrown
        (with_errors (delete (cfg_id config)) pm) w = (Ok (r, pm'), w')
      ∧ assistant_plugins (db w') = f <$> assistant_plugins (db w)
      ∧ (∀ c, same_registration c (f c))
      ∧ (r = Ok tt ↔ JsMap.has (cfg_id config) (plugins pm') = true)
      ∧ (∀ msg, r = Throw msg → getPluginError (cfg_id config) pm' ≠ None))
    as Hfailed.
  { intros errorMsg thrown. rewrite start_failed_run.
    eexists _, _, _, _. split; [reflexivity|]. split_and!.
    - reflexivity.
    - intros c. apply same_registration_status.
    - simpl in *. by rewrite Hhas.
    - intros _ _. unfold getPluginError. simpl. by rewrite lookup_insert_eq. }
  destruct (pluginRegistry _ _) as [fresh|].
  - destruct (BasePlugin.initialize config (BasePlugin.new fresh))
      as [[[]|message] plugin]; [|apply Hfailed].
    destruct (BasePlugin.start _) as [[[]|message] plugin']; [|apply Hfailed].
    unfold bind at 1, Date_now at 1. unfold bind at 1, Date_now at 1.
    unfold bind at 1, exec at 1. unfold bind at 1.
    rewrite emitStatusChange_run. unfold ret.
    eexists _, _, _, _. split; [reflexivity|]. split_and!.
    + instantiate (1 := λ c, if decide (cfg_id c = cfg_id config) then _ else c).
      destruct (Db.getChannelPlugin _ _) as [[data|]|]; reflexivity.
    + intros c. apply same_registration_status.
    + simpl. unfold JsMap.has. by rewrite JsMap_get_set_eq.
    + done.
  - eexists _, _, w, id. split; [reflexivity|].
    split_and!; [by rewrite list_fmap_id|intros; apply same_registration_refl
                |simpl in *; by rewrite Hhas|].
    intros _ _. unfold getPluginError. simpl. by rewrite lookup_insert_eq.
Qed.
End Manager_extras.

(** X25. [enablePlugin] stores the plugin as enabled before it tries to
    start it, and a failed start does not take that back: on an
    initialized manager the stored configuration is afterwards enabled,
    carries the new token when one was given and the stored one
    otherwise, and keeps the type of an existing row; the call reports
    success exactly when the plugin is in the manager's map afterwards,
    and on failure the manager has cached an error for it. A manager that
    is not initialized only answers 'Assistant manager not initialized'. *)
Theorem enablePlugin_stores {S : Type} `{!Connector S}
    (pluginId : string) (tok : option string) (cm : ChannelManager.t S) (w : World) :
  (ChannelManager.initialized cm = false ∨ ChannelManager.pluginManager cm = None →
     ChannelManager.enablePlugin pluginId tok cm w
     = (Ok (ChannelManager.mkOutcome false
              (Some "Assistant manager not initialized"), cm), w))
  ∧ (∀ pm, ChannelManager.initialized cm = true →
           ChannelManager.pluginManager cm = Some pm →
     ∃ outcome pm' w' stored,
       ChannelManager.enablePlugin pluginId tok cm w
       = (Ok (outcome, ChannelManager.mk true (Some pm')), w')
       ∧ Db.getChannelPlugin pluginId (db w') = QOk (Some stored)
       ∧ cfg_enabled stored = true
       ∧ (ActionExecutor.truthy tok = true →
          cfg_credentials stored = Some (mkCredentials tok))
       ∧ (∀ existing, Db.getChannelPlugin pluginId (db w) = QOk (Some existing) →
            cfg_type stored = cfg_type existing
            ∧ (ActionExecutor.truthy tok = false →
               cfg_credentials stored = stored_credentials (cfg_credentials existing)))
       ∧ (ChannelManager.success outcome = true
          ↔ JsMap.has pluginId (PluginManager.plugins pm') = true)
       ∧ (ChannelManager.success outcome = false →
          ChannelManager.error outcome ≠ None
          ∧ PluginManager.getPluginError pluginId pm' ≠ None)).
Proof.
  split.
  - unfold ChannelManager.enablePlugin.
    intros [-> | ->]; [done|]. by destruct (ChannelManager.initialized cm).
  - intros pm Hinit Hpm. unfold ChannelManager.enablePlugin. rewrite Hinit, Hpm.
    unfold bind at 1, query at 1.
    destruct (Db.getChannelPlugin pluginId (db w)) as [existing|err] eqn:Hget.
    2: { unfold Db.getChannelPlugin in Hget. done. }
    assert (∀ createdAt w1, db w1 = db w →
      ∃ outcome pm' w' stored,
        (updatedAt <- Date_now ;;
         let pluginConfig :=
           mkPluginConfig pluginId
             (match existing with
              | Some e => cfg_type e
              | None => ChannelManager.getPluginTypeFromId pluginId
              end)
             (match existing with
              | Some e => str_or (cfg_name e)
                            (ChannelManager.getPluginNameFromId pluginId)
              | None => ChannelManager.getPluginNameFromId pluginId
              end)
             true
             (if ActionExecutor.truthy tok then Some (mkCredentials tok)
              else existing ≫= cfg_credentials)
             created None createdAt updatedAt in
         now <- Date_now ;;
         exec (upsertChannelPlugin pluginConfig now) ;;;
         started <- PluginManager.startPlugin pluginConfig pm ;;
         match started with
         | (Ok _, pm') =>
             ret (ChannelManager.mkOutcome true None,
                  ChannelManager.mk true (Some pm'))
         | (Throw message, pm') =>
             ret (ChannelManager.mkOutcome false (Some message),
                  ChannelManager.mk true (Some pm'))
         end) w1
        = (Ok (outcome, ChannelManager.mk true (Some pm')), w')
        ∧ Db.getChannelPlugin pluginId (db w') = QOk (Some stored)
        ∧ cfg_enabled stored = true
        ∧ (ActionExecutor.truthy tok = true →
           cfg_credentials stored = Some (mkCredentials tok))
        ∧ (∀ e, existing = Some e →
             cfg_type stored = cfg_type e
             ∧ (ActionExecutor.truthy tok = false →
                cfg_credentials stored = stored_credentials (cfg_credentials e)))
        ∧ (ChannelManager.success outcome = true
           ↔ JsMap.has pluginId (PluginManager.plugins pm') = true)
        ∧ (ChannelManager.success outcome = false →
           ChannelManager.error outcome ≠ None
           ∧ PluginManager.getPluginError pluginId pm' ≠ None)) as Htail.
    { intros createdAt w1 Hdb.
      unfold bind at 1, Date_now at 1. cbv zeta.
      unfold bind at 1, Date_now at 1. unfold bind at 1, exec at 1.
      unfold bind at 1.
      match goal with |- context [PluginManager.startPlugin ?cfg pm ?w2] =>
        destruct (startPlugin_summary cfg pm w2)
          as (r & pm' & w' & f & Hrun & Hrows & Hsame & Hhas & Herr);
        pose proof (getChannelPlugin_fmap pluginId f (db w2) (db w') Hrows
                      (λ x, proj1 (Hsame x))) as Hstored;
        pose proof (getChannelPlugin_upsert cfg
                      (clock w1 (Datatypes.S (tick w1))) (db w1)) as Hupsert
      end.
      rewrite Hrun. cbn [cfg_id] in *.
      unfold with_db in Hstored. cbn [db clock tick] in Hstored.
      rewrite Hupsert in Hstored. rewrite Hdb, Hget in Hstored.
      match type of Hstored with _ = QOk (f <$> Some ?merged) =>
        destruct (Hsame merged) as (_ & Htype & _ & Henabled & Hcred & _);
        set (stored := f merged) in *
      end.
      exists (match r with
              | Ok _ => ChannelManager.mkOutcome true None
              | Throw message => ChannelManager.mkOutcome false (Some message)
              end), pm', w', stored.
      split; [by destruct r|]. split; [exact Hstored|].
      split; [by rewrite Henabled; destruct existing|].
      split.
      { intros Htok. rewrite Hcred. destruct existing; simpl; rewrite Htok;
          simpl; by rewrite Htok. }
      split.
      { intros e ->. split; [by rewrite Htype|].
        intros Htok. rewrite Hcred. simpl. by rewrite Htok. }
      split.
      { rewrite <- Hhas. destruct r as [[]|message]; simpl; split; done. }
      intros Hfail. destruct r as [[]|message]; [done|]. split; [done|].
      by apply (Herr message). }
    destruct existing as [e|].
    + case_decide.
      * unfold bind at 1, Date_now at 1.
        destruct (Htail (clock w (tick w))
                    (mkWorld (db w) (clock w) (Datatypes.S (tick w)) (random w)
                       (rnd w) (randomBytes w) (rb w) (uuids w) (uu w) (bridge w))
                    eq_refl)
          as (outcome & pm' & w' & stored & Hrun & Hrest).
        exists outcome, pm', w', stored. split; [exact Hrun|].
        destruct Hrest as (? & ? & ? & Hex & ? & ?). split_and!; try done.
        intros existing [= <-]. by apply Hex.
      * unfold bind at 1, ret at 1.
        destruct (Htail (cfg_createdAt e) w eq_refl)
          as (outcome & pm' & w' & stored & Hrun & Hrest).
        exists outcome, pm', w', stored. split; [exact Hrun|].
        destruct Hrest as (? & ? & ? & Hex & ? & ?). split_and!; try done.
        intros existing [= <-]. by apply Hex.
    + unfold bind at 1, Date_now at 1.
      destruct (Htail (clock w (tick w))
                  (mkWorld (db w) (clock w) (Datatypes.S (tick w)) (random w) (rnd w)
                     (randomBytes w) (rb w) (uuids w) (uu w) (bridge w)) eq_refl)
        as (outcome & pm' & w' & stored & Hrun & Hrest).
      exists outcome, pm', w', stored. split; [exact Hrun|].
      destruct Hrest as (? & ? & ? & Hex & ? & ?). by split_and!.
Qed.

Lemma enablePlugin_stores_witness :
  let cm := ChannelManager.mk true
              (Some (PluginManager.new (Demo.registry Demo.bad_token_bot))) in
  ∃ outcome pm' w' stored,
    ChannelManager.enablePlugin "telegram_default" (Some "456:def") cm Demo.world
    = (Ok (outcome, ChannelManager.mk true (Some pm')), w')
    ∧ Db.getChannelPlugin "telegram_default" (db w') = QOk (Some stored)
    ∧ cfg_enabled stored = true
    ∧ cfg_credentials stored = Some (mkCredentials (Some "456:def")).
Proof.
  intros cm.
  destruct (proj2 (enablePlugin_stores "telegram_default" (Some "456:def") cm
                     Demo.world)
              (PluginManager.new (Demo.registry Demo.bad_token_bot))
              eq_refl eq_refl)
    as (outcome & pm' & w' & stored & Hrun & Hget & Henabled & Htoken & _).
  exists outcome, pm', w', stored. split_and!; try done. by apply Htoken.
Defined.

Section Disable.
Context {S : Type} `{!Connector S}.
Import PluginManager.

(** [disablePlugin] once the plugin is stopped: the stored configuration,
    if there is one, is written back disabled and stopped. *)
Lemma disable_store pluginId (cm' : ChannelManager.t S) (w1 : World) :
  ∃ w',
    (existingResult <- query (Db.getChannelPlugin pluginId) ;;
     match existingResult with
     | QOk (Some data) =>
         updatedAt <- Date_now ;;
         let updated :=
           mkPluginConfig (cfg_id data) (cfg_type data) (cfg_name data) false
             (cfg_credentials data) stopped (cfg_lastConnected data)
             (cfg_createdAt data) updatedAt in
         now <- Date_now ;;
         exec (upsertChannelPlugin updated now)
     | _ => ret tt
     end ;;;
     ret (ChannelManager.mkOutcome true None, cm')) w1
    = (Ok (ChannelManager.mkOutcome true None, cm'), w')
    ∧ match Db.getChannelPlugin pluginId (db w1) with
      | QOk (Some existing) =>
          ∃ stored,
            Db.getChannelPlugin pluginId (db w') = QOk (Some stored)
            ∧ cfg_enabled stored = false ∧ cfg_status stored = stopped
            ∧ cfg_type stored = cfg_type existing
            ∧ cfg_credentials stored = stored_credentials (cfg_credentials existing)
      | _ => w' = w1
      end.
Proof.
  unfold bind at 1, query at 1.
  destruct (Db.getChannelPlugin pluginId (db w1)) as [[data|]|err] eqn:Hget;
    [|by exists w1..].
  pose proof (getChannelPlugin_id _ _ _ Hget) as Hid.
  unfold bind, Date_now, exec, ret. cbv zeta. cbn [db with_db clock tick].
  rewrite Hid. eexists. split; [reflexivity|]. unfold with_db. cbn [db].
  match goal with |- context [upsertChannelPlugin ?c ?now (db w1)] =>
    pose proof (getChannelPlugin_upsert c now (db w1)) as Hupsert
  end.
  cbn [cfg_id] in Hupsert. rewrite Hget in Hupsert.
  eexists. split; [exact Hupsert|]. done.
Qed.

Lemma stopPlugin_summary pluginId (pm : PluginManager.t S) (w : World) :
  match getPlugin pluginId pm with
  | None => stopPlugin pluginId pm w = (Ok (Ok tt, pm), w)
  | Some plugin =>
      match BasePlugin.stop plugin with
      | (Ok _, _) =>
          ∃ w',
            stopPlugin pluginId pm w
            = (Ok (Ok tt, with_plugins (JsMap.delete pluginId) pm), w')
            ∧ db w' = Db.updateChannelPluginStatus pluginId stopped None
                        (clock w (tick w)) (db w)
      | (Throw message, plugin') =>
          stopPlugin pluginId pm w
          = (Ok (Throw message, with_plugins (JsMap.set pluginId plugin') pm), w)
      end
  end.
Proof.
  unfold getPlugin, stopPlugin.
  destruct (JsMap.get pluginId (plugins pm)) as [plugin|]; [|done].
  destruct (BasePlugin.stop plugin) as [[[]|message] plugin']; [|done].
  unfold bind at 1, Date_now at 1. unfold bind at 1, exec at 1.
  unfold bind at 1. rewrite emitStatusChange_run. unfold ret.
  eexists. split; [reflexivity|].
  by destruct (Db.getChannelPlugin _ _) as [[data|]|].
Qed.
End Disable.

(** X26. [disablePlugin] reports success only after the plugin is
    stopped, and then the stored configuration, if there is one, is
    disabled with status 'stopped' and keeps its type and credentials,
    and the manager no longer holds the plugin. When the plugin's
    [stop()] throws, the call reports that error and changes nothing in
    the process: the configuration stays enabled and the instance stays
    in the manager's map. *)
Theorem disablePlugin_outcome {S : Type} `{!Connector S}
    (pluginId : string) (cm : ChannelManager.t S) (w : World) :
  ∃ outcome cm' w',
    ChannelManager.disablePlugin pluginId cm w = (Ok (outcome, cm'), w')
    ∧ ChannelManager.initialized cm' = ChannelManager.initialized cm
    ∧ (ChannelManager.success outcome = true →
         match Db.getChannelPlugin pluginId (db w) with
         | QOk (Some existing) =>
             ∃ stored,
               Db.getChannelPlugin pluginId (db w') = QOk (Some stored)
               ∧ cfg_enabled stored = false ∧ cfg_status stored = stopped
               ∧ cfg_type stored = cfg_type existing
               ∧ cfg_credentials stored
                 = stored_credentials (cfg_credentials existing)
         | _ => db w' = db w
         end
         ∧ ∀ pm, ChannelManager.pluginManager cm = Some pm → PluginManager.Inv pm →
             ∃ pm', ChannelManager.pluginManager cm' = Some pm'
                    ∧ PluginManager.getPlugin pluginId pm' = None)
    ∧ (ChannelManager.success outcome = false →
         w' = w
         ∧ ∃ pm plugin message pm',
             ChannelManager.pluginManager cm = Some pm
             ∧ PluginManager.getPlugin pluginId pm = Some plugin
             ∧ (BasePlugin.stop plugin).1 = Throw message
             ∧ ChannelManager.error outcome = Some message
             ∧ ChannelManager.pluginManager cm' = Some pm'
             ∧ PluginManager.getPlugin pluginId pm'
               = Some (BasePlugin.stop plugin).2).
Proof.
  unfold ChannelManager.disablePlugin.
  destruct (ChannelManager.pluginManager cm) as [pm|] eqn:Hpm.
  - pose proof (stopPlugin_summary pluginId pm w) as Hstop.
    destruct (PluginManager.getPlugin pluginId pm) as [plugin|] eqn:Hplugin.
    + destruct (BasePlugin.stop plugin) as [[[]|message] plugin'] eqn:Hhalt.
      * destruct Hstop as (w1 & Hstop & Hdb1).
        unfold bind at 1. unfold bind at 1. rewrite Hstop. unfold ret at 1.
        cbn [fst snd].
        destruct (disable_store pluginId
                    (ChannelManager.mk (ChannelManager.initialized cm)
                       (Some (PluginManager.with_plugins (JsMap.delete pluginId) pm)))
                    w1) as (w' & Hrun & Hstored).
        eexists _, _, w'. split; [exact Hrun|]. split; [done|]. split; [|done].
        intros _. split.
        -- rewrite Hdb1, getChannelPlugin_update in Hstored.
           destruct (Db.getChannelPlugin pluginId (db w)) as [[existing|]|err] eqn:Hget.
           ++ exact Hstored.
           ++ subst w'. rewrite Hdb1. by apply updateChannelPluginStatus_absent.
           ++ done.
        -- intros pm0 [= <-] [Hnd _]. eexists. split; [reflexivity|].
           unfold PluginManager.getPlugin. simpl. by apply JsMap_get_delete_eq.
      * unfold bind at 1. unfold bind at 1. rewrite Hstop. unfold ret at 1.
        cbn [fst snd]. unfold ret.
        eexists _, _, w. split; [reflexivity|]. split; [done|]. split; [done|].
        intros _. split; [done|].
        exists pm, plugin, message. eexists. split_and!; try done.
        -- by rewrite Hhalt.
        -- rewrite Hhalt. unfold PluginManager.getPlugin. simpl.
           by rewrite JsMap_get_set_eq.
    + unfold bind at 1. unfold bind at 1. rewrite Hstop. unfold ret at 1.
      cbn [fst snd].
      destruct (disable_store pluginId
                  (ChannelManager.mk (ChannelManager.initialized cm) (Some pm)) w)
        as (w' & Hrun & Hstored).
      eexists _, _, w'. split; [exact Hrun|]. split; [done|]. split; [|done].
      intros _. split.
      * destruct (Db.getChannelPlugin pluginId (db w)) as [[existing|]|err];
          [exact Hstored|by subst..].
      * intros pm0 [= <-] _. by exists pm.
  - unfold bind at 1, ret at 1. cbn [fst snd].
    destruct (disable_store pluginId
                (ChannelManager.mk (ChannelManager.initialized cm) None
                   : ChannelManager.t S) w)
      as (w' & Hrun & Hstored).
    eexists _, _, w'. split; [exact Hrun|]. split; [done|]. split; [|done].
    intros _. split; [|done].
    destruct (Db.getChannelPlugin pluginId (db w)) as [[existing|]|err];
      [exact Hstored|by subst..].
Qed.

Lemma disablePlugin_outcome_witness :
  let st := Demo.running_manager Demo.good_bot in
  ∃ w' stored,
    (ChannelManager.disablePlugin "telegram_default"
       (ChannelManager.mk true (Some st.2)) st.1).2 = w'
    ∧ Db.getChannelPlugin "telegram_default" (db w') = QOk (Some stored)
    ∧ cfg_enabled stored = false ∧ cfg_status stored = stopped.
Proof.
  intros st.
  destruct (disablePlugin_outcome "telegram_default"
              (ChannelManager.mk true (Some st.2)) st.1)
    as (outcome & cm' & w' & Hrun & _ & Hok & _).
  assert (ChannelManager.success outcome = true) as Hsuccess.
  { pose proof Hrun as Hval. vm_compute in Hval. by injection Hval as <- _ _. }
  destruct (Hok Hsuccess) as [Hstored _].
  assert (Db.getChannelPlugin "telegram_default" (db st.1)
          = QOk (Some (mkPluginConfig "telegram_default" telegram "Telegram Bot" true
                         (Some (mkCredentials (Some "123:abc"))) running
                         (Some 1000) 900 1001))) as Hexisting
    by (vm_compute; reflexivity).
  rewrite Hexisting in Hstored.
  destruct Hstored as (stored & Hget & Henabled & Hstatus & _).
  exists w', stored. by rewrite Hrun.
Defined.
(* ===================================================================== *)
(** * System actions: a new session on request                            *)
(* ===================================================================== *)

Section NewSession.
Import SessionManager.
Implicit Types (m : SessionManager.t) (w : World).

Lemma clearSession_run userId m w :
  Inv (db w) m →
  ∃ b m' w',
    clearSession userId m w = (Ok (b, m'), w')
    ∧ Inv (db w') m' ∧ getSession userId m' = None ∧ bridge w' = bridge w.
Proof.
  intros HInv. unfold clearSession, getSession.
  destruct (JsMap.get userId m) as [session|] eqn:Hget.
  - eexists _, _, _. split; [reflexivity|]. simpl.
    split; [by apply clear_Inv|].
    split; [apply JsMap_get_delete_eq, (inv_keys _ _ HInv)|done].
  - by eexists _, _, _.
Qed.

Lemma createSessionWithConversation_run user conversationId agentType workspace m w :
  Inv (db w) m →
  ∃ session m' w',
    createSessionWithConversation user conversationId agentType workspace m w
      = (Ok (session, m'), w')
    ∧ Inv (db w') m' ∧ getSession (usr_id user) m' = Some session
    ∧ ses_conversationId session = Some conversationId
    ∧ ses_id session = uuids w (uu w).
Proof.
  intros HInv.
  destruct (createSessionWithConversation_Inv user conversationId agentType
              workspace m w HInv) as (session & m' & w' & Heq & HInv' & Hget & _).
  exists session, m', w'. split; [exact Heq|]. split; [done|]. split; [done|].
  revert Heq. unfold createSessionWithConversation.
  unfold bind, exec, ret, Date_now, uuid, query.
  destruct (JsMap.get (usr_id user) m); simpl; by intros [= <- _ _].
Qed.

Lemma Inv_no_session_rows d m userId w :
  Inv d m → getSession userId m = None → db w = d →
  stored_sessions userId (w, m) = [].
Proof.
  intros HInv Hget <-. unfold stored_sessions. simpl.
  pose proof (Inv_no_row _ _ _ HInv Hget) as Hnone.
  apply filter_none. intros r Hr. by apply Hnone.
Qed.
End NewSession.

(** X27. What a 'new session' request leaves behind. The old session is
    cleared before the new conversation is asked for, so when creating
    the conversation fails the user is answered 'Failed to create
    session: <error>' and has no session any more, in the cache or in the
    store. When it succeeds the user's session is a new one on the new
    conversation, and the answer shows the last eight characters of its
    id. When clearing the agent context of the old session fails, the
    handler throws that error before anything is changed. *)
Theorem handleSessionNew_outcomes (m : SessionManager.t) (context : IActionContext)
    (channelUser : IChannelUser) (services : SystemActions.Services) (w : World) :
  ctx_channelUser context = Some channelUser →
  SessionManager.Inv (db w) m →
  match SessionManager.getSession (usr_id channelUser) m
        ≫= λ existing, SystemActions.clearContext services (ses_id existing) with
  | Some message =>
      SystemActions.handleSessionNew (Some m) context services w = (Throw message, w)
  | None =>
      ∃ result m' w',
        SystemActions.handleSessionNew (Some m) context services w
        = (Ok (result, Some m'), w')
        ∧ SessionManager.Inv (db w') m'
        ∧ match SystemActions.createGeminiConversation services with
          | QFail err =>
              result = createErrorResponse ("Failed to create session: "
                                            +:+ str_or err "Unknown error")
              ∧ SessionManager.getSession (usr_id channelUser) m' = None
              ∧ SessionManager.stored_sessions (usr_id channelUser) (w', m') = []
          | QOk conversationId =>
              ∃ session,
                SessionManager.getSession (usr_id channelUser) m' = Some session
                ∧ ses_conversationId session = Some conversationId
                ∧ ses_id session = uuids w (uu w)
                ∧ result = createSuccessResponse
                             (Some (SystemActions.newSessionMessage session))
          end
  end.
Proof.
  intros Hctx HInv. unfold SystemActions.handleSessionNew. rewrite Hctx.
  assert (∀ w0, w0 = w →
    ∃ result m' w',
      (cleared <- SessionManager.clearSession (usr_id channelUser) m ;;
       let m := cleared.2 in
       match SystemActions.createGeminiConversation services with
       | QFail err =>
           ret (createErrorResponse ("Failed to create session: "
                                     +:+ str_or err "Unknown error"),
                Some m)
       | QOk conversationId =>
           created <- SessionManager.createSessionWithConversation
                        channelUser conversationId gemini None m ;;
           ret (createSuccessResponse
                  (Some (SystemActions.newSessionMessage created.1)),
                Some created.2)
       end) w0
      = (Ok (result, Some m'), w')
      ∧ SessionManager.Inv (db w') m'
      ∧ match SystemActions.createGeminiConversation services with
        | QFail err =>
            result = createErrorResponse ("Failed to create session: "
                                          +:+ str_or err "Unknown error")
            ∧ SessionManager.getSession (usr_id channelUser) m' = None
            ∧ SessionManager.stored_sessions (usr_id channelUser) (w', m') = []
        | QOk conversationId =>
            ∃ session,
              SessionManager.getSession (usr_id channelUser) m' = Some session
              ∧ ses_conversationId session = Some conversationId
              ∧ ses_id session = uuids w (uu w)
              ∧ result = createSuccessResponse
                           (Some (SystemActions.newSessionMessage session))
        end) as Htail.
  { intros w0 ->.
    destruct (clearSession_run (usr_id channelUser) m w HInv)
      as (b & m1 & w1 & Hclear & HInv1 & Hnone & _).
    unfold bind at 1. rewrite Hclear. cbn [snd]. cbv zeta.
    destruct (SystemActions.createGeminiConversation services)
      as [conversationId|err].
    - destruct (createSessionWithConversation_run channelUser conversationId
                  gemini None m1 w1 HInv1)
        as (session & m2 & w2 & Hcreate & HInv2 & Hget & Hconv & Hid).
      unfold bind. rewrite Hcreate. unfold ret. cbn [fst snd].
      eexists _, _, _. split; [reflexivity|]. split; [done|].
      exists session. split_and!; try done. rewrite Hid.
      revert Hclear. unfold SessionManager.clearSession.
      destruct (JsMap.get _ m); unfold bind, exec, ret; by intros [= _ _ <-].
    - unfold ret. eexists _, _, _. split; [reflexivity|]. split; [done|].
      split_and!; try done. by eapply Inv_no_session_rows. }
  destruct (SessionManager.getSession (usr_id channelUser) m) as [existing|] eqn:Hget;
    cbn [mbind option_bind].
  - destruct (SystemActions.clearContext services (ses_id existing)) as [message|].
    + done.
    + unfold bind at 1, ret at 1.
      destruct (Htail w eq_refl) as (result & m' & w' & Hrun & HInv' & Hcase).
      exists result, m', w'. split; [exact Hrun|]. split; [done|].
      destruct (SystemActions.createGeminiConversation services); [|done].
      destruct Hcase as (session & Hs & Hconv & Hid & Hres).
      exists session. by split_and!.
  - unfold bind at 1, ret at 1.
    destruct (Htail w eq_refl) as (result & m' & w' & Hrun & HInv' & Hcase).
    exists result, m', w'. split; [exact Hrun|]. split; [done|].
    destruct (SystemActions.createGeminiConversation services); [|done].
    destruct Hcase as (session & Hs & Hconv & Hid & Hres).
    exists session. by split_and!.
Qed.

Lemma handleSessionNew_outcomes_witness :
  let st := SessionManager.run SessionExamples.ops
              (SessionManager.init SessionExamples.process) in
  let context :=
    mkContext telegram "telegram_default" "43" "chat-2" (Some "Bob")
      (Some SessionExamples.bob) None None ChatDemo.incoming in
  let services := SystemActions.mkServices (λ _, None) (QFail "quota exceeded") in
  ∃ m' w',
    SystemActions.handleSessionNew (Some st.2) context services st.1
    = (Ok (createErrorResponse "Failed to create session: quota exceeded", Some m'), w')
    ∧ is_Some (SessionManager.getSession "u2" st.2)
    ∧ SessionManager.getSession "u2" m' = None
    ∧ SessionManager.stored_sessions "u2" (w', m') = [].
Proof.
  intros st context services.
  pose proof (handleSessionNew_outcomes st.2 context SessionExamples.bob services
                st.1 eq_refl example_sessions_Inv) as Hrun.
  assert (SessionManager.getSession (usr_id SessionExamples.bob) st.2
          ≫= (λ existing, SystemActions.clearContext services (ses_id existing))
          = None) as Hclear by (vm_compute; reflexivity).
  rewrite Hclear in Hrun.
  destruct Hrun as (result & m' & w' & Heq & _ & -> & Hget & Hrows).
  exists m', w'. split; [exact Heq|]. split; [|exact (conj Hget Hrows)].
  vm_compute. by eexists.
Defined.
